(** * TreeChat: the turn tree of [contents/overlay.tsx] and the pairing step
      of [contents/pageinfo.ts]

    A shallow embedding of the tree/state engine of the overlay (pairing of
    role-tagged messages, reconciliation under the active cursor, alignment,
    subtree deletion, collapse visibility, persistence) and the properties
    stated about it.

    Modelling conventions.
    - A JavaScript string is its sequence of UTF-16 code units ([jsstring]).
    - A JavaScript [number] that the code only uses as a count, a depth or an
      index is an integer ([Z]); the root's [linearIndex] is [-1].
    - A [Record<string, T>] is a finite map over its own properties
      ([gmap jsstring T]); the enumeration order of the keys is outside the
      model. A read [obj[k]] by a key that the caller supplies (the target of
      [deleteSubtree], the cursor in [appendUnderActive], the id given to
      [selectActive]) also finds the members that a plain object inherits
      from [Object.prototype] ([inherited]). The walks ([pathToRoot],
      [flattenTree], [collectSubtreeIds], the collapse helpers) read own
      properties only: they agree with the code on every table whose ids and
      cursor are ids that the code builds ([root], [n_<i>_<hex>],
      [n_align_<i>]).
    - A statement that throws ([TypeError] on a property of [undefined]), a
      recursion that does not return, or a result that is no value of the
      declared type (an [activeId] that is [undefined]) is [None]. *)

From Stdlib Require Import ZArith List Ascii String DecimalString DecimalZ.
From stdpp Require Import gmap list fin_maps.

Local Open Scope Z_scope.

(** ** Strings *)

Definition jsstring : Type := list N.

Definition js (s : string) : jsstring :=
  map N_of_ascii (list_ascii_of_string s).

(** [if (s)]: the empty string is the only falsy string. *)
Definition truthy (s : jsstring) : bool :=
  match s with [] => false | _ => true end.

(** [`${n}`] for an integer [n]: its decimal digits, with a minus sign when
    negative. *)
Definition dec (n : Z) : jsstring :=
  js (NilEmpty.string_of_int (Z.to_int n)).

(** The characters of a decimal rendering: digits and the minus sign. *)
Definition isDecChar (c : ascii) : bool :=
  let n := N_of_ascii c in ((48 <=? n) && (n <=? 57) || (n =? 45))%N.

(** The characters matched by [\s] and removed by [String.prototype.trim]
    (WhiteSpace and LineTerminator of ECMAScript). *)
Definition isSpace (c : N) : bool :=
  ((9 <=? c) && (c <=? 13) || (c =? 32) || (c =? 160) || (c =? 5760)
   || (8192 <=? c) && (c <=? 8202) || (c =? 8232) || (c =? 8233)
   || (c =? 8239) || (c =? 8287) || (c =? 12288) || (c =? 65279))%N.

(** [s.replace(/\s+/g, " ")]: every maximal run of white space becomes one
    space; [inRun] tells that the previous character was white space. *)
Fixpoint replaceSpaces (inRun : bool) (s : jsstring) : jsstring :=
  match s with
  | [] => []
  | c :: r =>
      if isSpace c
      then (if inRun then replaceSpaces true r else 32%N :: replaceSpaces true r)
      else c :: replaceSpaces false r
  end.

Fixpoint trimStart (s : jsstring) : jsstring :=
  match s with
  | [] => []
  | c :: r => if isSpace c then trimStart r else s
  end.

Definition trimEnd (s : jsstring) : jsstring := rev (trimStart (rev s)).

Definition trim (s : jsstring) : jsstring := trimEnd (trimStart s).

Definition ELLIPSIS : N := 8230%N.

Definition EMPTY_SUMMARY : jsstring := js "(empty)".

(** The text [t] of [makeSummaryFromUserText]: white space replaced, then
    trimmed. *)
Definition normalizeText (userText : jsstring) : jsstring :=
  trim (replaceSpaces false userText).

Definition makeSummaryFromUserText (userText : jsstring) (max : nat) : jsstring :=
  let t := normalizeText userText in
  if truthy t
  then (if (length t <=? max)%nat then t else take max t ++ [ELLIPSIS])
  else EMPTY_SUMMARY.

(** The names that a plain object inherits from [Object.prototype]: reading
    one of them on a table that has no such key of its own gives a function
    (the prototype itself for [__proto__]), which is truthy and not nullish
    and has none of the fields of a node. *)
Definition protoNames : list jsstring :=
  [js "constructor"; js "__defineGetter__"; js "__defineSetter__";
   js "hasOwnProperty"; js "__lookupGetter__"; js "__lookupSetter__";
   js "isPrototypeOf"; js "propertyIsEnumerable"; js "toString"; js "valueOf";
   js "__proto__"; js "toLocaleString"].

Definition inherited (k : jsstring) : bool := bool_decide (k ∈ protoNames).

(** ** Types *)

Inductive Role := user | assistant.

Record Msg := mkMsg {
  role : Role;
  text : jsstring;
  html : jsstring
}.

Record Pair := mkPair {
  userText : jsstring;
  assistantText : jsstring;
  pairUserHtml : jsstring;
  pairAssistantHtml : jsstring
}.

Record TreeNode := mkNode {
  id : jsstring;
  parentId : jsstring;
  children : list jsstring;
  depth : Z;
  linearIndex : Z;
  summary : jsstring;
  userHtml : jsstring;
  assistantHtml : jsstring
}.

Record TreeState := mkState {
  convoKey : jsstring;
  seenLinearCount : Z;
  activeId : jsstring;
  nodes : gmap jsstring TreeNode;
  collapsedIds : gmap jsstring bool
}.

Definition ROOT_ID : jsstring := js "root".

(** ** DOM extract: pairing *)

(** One iteration of the loop of [pairMessages] on the state [(out, pending)]. *)
Definition pairStep (s : list Pair * option Msg) (m : Msg) : list Pair * option Msg :=
  let '(out, pending) := s in
  match role m with
  | user => (out, Some m)
  | assistant =>
      match pending with
      | Some u => (out ++ [mkPair (text u) (text m) (html u) (html m)], None)
      | None => (out, None)
      end
  end.

Definition pairMessages (msgs : list Msg) : list Pair :=
  fst (fold_left pairStep msgs ([], None)).

(** The pairing step of [contents/pageinfo.ts]. *)
Module PageInfo.

Record Msg := mkMsg {
  role : Role;
  text : jsstring;
  html : jsstring;
  idx : Z
}.

Record LinearNode := mkLinearNode {
  id : jsstring;
  userText : jsstring;
  userHtml : jsstring;
  assistantText : jsstring;
  assistantHtml : jsstring;
  summary : jsstring;
  linearIndex : Z
}.

(** The loop state is [(nodes, pendingUser, linearIndex)]; the default of an
    absent text or markup to the empty string leaves a string as it is. *)
Definition pairStep (s : list LinearNode * option Msg * Z) (m : Msg)
    : list LinearNode * option Msg * Z :=
  let '(nodes, pendingUser, linearIndex) := s in
  match role m with
  | user => (nodes, Some m, linearIndex)
  | assistant =>
      match pendingUser with
      | Some u =>
          (nodes ++ [mkLinearNode (js "lin_" ++ dec linearIndex)
                       (text u) (html u) (text m) (html m)
                       (makeSummaryFromUserText (text u) 20) linearIndex],
           None, linearIndex + 1)
      | None => (nodes, None, linearIndex)
      end
  end.

Definition pairToLinearNodes (messages : list Msg) : list LinearNode :=
  fst (fst (fold_left pairStep messages ([], None, 0))).

End PageInfo.

(** ** Tree logic *)

Definition rootNode : TreeNode :=
  mkNode ROOT_ID ROOT_ID [] 0 (-1) (js "Root") [] [].

Definition freshTree (key : jsstring) : TreeState :=
  mkState key 0 ROOT_ID {[ ROOT_ID := rootNode ]} ∅.

(** [{ ...n, children: cs }] *)
Definition withChildren (n : TreeNode) (cs : list jsstring) : TreeNode :=
  mkNode (id n) (parentId n) cs (depth n) (linearIndex n) (summary n)
         (userHtml n) (assistantHtml n).

(** [st.nodes[st.activeId] ?? st.nodes[ROOT_ID]] when it is a node. It is
    none when neither id names a node ([undefined]), and when activeId names
    no node but a member inherited from [Object.prototype]: that member is
    not nullish, so the root is not tried. *)
Definition activeOrRoot (st : TreeState) : option TreeNode :=
  match nodes st !! activeId st with
  | Some p => Some p
  | None => if inherited (activeId st) then None else nodes st !! ROOT_ID
  end.

(** The id that [appendUnderActive] builds; [rnd] stands for
    [Math.random().toString(16).slice(2)]. *)
Definition freshId (idx : Z) (rnd : jsstring) : jsstring :=
  js "n_" ++ dec idx ++ js "_" ++ rnd.

(** [pair] is [None] when the caller passes [undefined] (an index outside
    [pairs]); reading [pair.userText], or [parent.id] of [undefined], then
    throws, and so does the spread of [parent.children] when [parent] is an
    inherited member, which has no [children]. *)
Definition appendUnderActive (st : TreeState) (pair : option Pair) (idx : Z)
    (rnd : jsstring) : option TreeState :=
  parent ← activeOrRoot st;
  pair ← pair;
  let id' := freshId idx rnd in
  let node :=
    mkNode id' (id parent) [] (depth parent + 1) idx
           (makeSummaryFromUserText (userText pair) 20)
           (pairUserHtml pair) (pairAssistantHtml pair) in
  Some (mkState (convoKey st) (idx + 1) id'
          (<[ id parent := withChildren parent (children parent ++ [id']) ]>
             (<[ id' := node ]> (nodes st)))
          (collapsedIds st)).

(** [pairs[i]] *)
Definition pairAt (pairs : list Pair) (i : Z) : option Pair :=
  if 0 <=? i then pairs !! Z.to_nat i else None.

(** The loop [for (let i = ...; i < pairs.length; i++) next =
    appendUnderActive(next, pairs[i], i)] of [refresh], with [n] iterations
    left; [rnd k] is the random suffix drawn by the [k]-th call. *)
Fixpoint appendLoop (n : nat) (pairs : list Pair) (rnd : nat → jsstring)
    (k : nat) (i : Z) (next : TreeState) : option TreeState :=
  match n with
  | O => Some next
  | S n' =>
      next' ← appendUnderActive next (pairAt pairs i) i (rnd k);
      appendLoop n' pairs rnd (S k) (i + 1) next'
  end.

(** The state transformation of [refresh] on an unchanged conversation key:
    nothing when [pairs.length <= st.seenLinearCount] (the retry only runs
    the same loop later), the append loop otherwise. *)
Definition reconcile (st : TreeState) (pairs : list Pair) (rnd : nat → jsstring)
    : option TreeState :=
  if Z.of_nat (length pairs) <=? seenLinearCount st then Some st
  else appendLoop (Z.to_nat (Z.of_nat (length pairs) - seenLinearCount st))
         pairs rnd 0 (seenLinearCount st) st.

(** A loop over a list whose body may throw or diverge. *)
Fixpoint foldM {A B : Type} (f : A → B → option A) (a : A) (l : list B) : option A :=
  match l with
  | [] => Some a
  | b :: l' => a' ← f a b; foldM f a' l'
  end.

(** [while (curId && curId !== ROOT_ID && !guard.has(curId))] *)
Definition keepWalking (guard : gset jsstring) (curId : jsstring) : bool :=
  truthy curId && negb (bool_decide (curId = ROOT_ID))
  && negb (bool_decide (curId ∈ guard)).

(** The loop of [pathToRoot]; [out] is in push order (active first). The
    guard set bounds the number of iterations, [fuel] makes that bound
    structural. *)
Fixpoint pathLoop (fuel : nat) (st : TreeState) (guard : gset jsstring)
    (curId : jsstring) (out : list TreeNode) : option (list TreeNode) :=
  match fuel with
  | O => None
  | S f =>
      if keepWalking guard curId then
        match nodes st !! curId with
        | None => Some out
        | Some cur => pathLoop f st ({[curId]} ∪ guard) (parentId cur) (out ++ [cur])
        end
      else Some out
  end.

Definition pathToRoot (st : TreeState) : list TreeNode :=
  rev (default [] (pathLoop (S (size (nodes st))) st ∅ (activeId st) [])).

(** The recursive [dfs] of [flattenTree]; [fuel] bounds the call depth. *)
Fixpoint flattenDfs (fuel : nat) (st : TreeState) (i : jsstring)
    (res : list TreeNode) : option (list TreeNode) :=
  match fuel with
  | O => None
  | S f =>
      match nodes st !! i with
      | None => Some res
      | Some n =>
          foldM (fun acc c => flattenDfs f st c acc)
                (if bool_decide (i = ROOT_ID) then res else res ++ [n])
                (children n)
      end
  end.

Definition flattenTree (fuel : nat) (st : TreeState) : option (list TreeNode) :=
  flattenDfs fuel st ROOT_ID [].

(** ** Align helper *)

Definition alignId (i : nat) : jsstring := js "n_align_" ++ dec (Z.of_nat i).

(** One iteration of the loop of [buildAlignedLinearTreeFromPairs] on the
    state [(nodes, parentId)]. *)
Definition alignStep (pairs : list Pair) (s : gmap jsstring TreeNode * jsstring)
    (i : nat) : option (gmap jsstring TreeNode * jsstring) :=
  let '(nodes, parentId) := s in
  let id' := alignId i in
  let parent := nodes !! parentId in
  let node :=
    mkNode id' parentId [] (default 0 (depth <$> parent) + 1) (Z.of_nat i)
           (makeSummaryFromUserText (default [] (userText <$> pairs !! i)) 20)
           [] [] in
  let nodes1 := <[ id' := node ]> nodes in
  p ← nodes1 !! parentId;
  Some (<[ parentId := withChildren p (children p ++ [id']) ]> nodes1, id').

Definition buildAlignedLinearTreeFromPairs (convoKey : jsstring) (pairs : list Pair)
    : option TreeState :=
  '(nodes, _) ← foldM (alignStep pairs) ({[ ROOT_ID := rootNode ]}, ROOT_ID)
                      (seq 0 (length pairs));
  let activeId :=
    if (0 <? length pairs)%nat then alignId (length pairs - 1) else ROOT_ID in
  Some (mkState convoKey (Z.of_nat (length pairs)) activeId nodes ∅).

(** ** Collapse helpers *)

(** [st.collapsedIds?.[i]] as a condition. *)
Definition isCollapsed (st : TreeState) (i : jsstring) : bool :=
  match collapsedIds st !! i with
  | Some true => true
  | _ => false
  end.

Fixpoint hiddenLoop (fuel : nat) (st : TreeState) (guard : gset jsstring)
    (curId : jsstring) : option bool :=
  match fuel with
  | O => None
  | S f =>
      if keepWalking guard curId then
        match nodes st !! curId with
        | None => Some false
        | Some cur =>
            let pId := parentId cur in
            if truthy pId && isCollapsed st pId then Some true
            else hiddenLoop f st ({[curId]} ∪ guard) pId
        end
      else Some false
  end.

Definition isHiddenByCollapsed (st : TreeState) (nodeId : jsstring) : bool :=
  default false (hiddenLoop (S (size (nodes st))) st ∅ nodeId).

(** [flatNodes]: the listing the panel shows. *)
Definition flatNodes (fuel : nat) (st : TreeState) : option (list TreeNode) :=
  filter (fun n => isHiddenByCollapsed st (id n) = false) <$> flattenTree fuel st.

(** ** Delete helpers *)

Fixpoint collectDfs (fuel : nat) (st : TreeState) (i : jsstring)
    (res : list jsstring) : option (list jsstring) :=
  match fuel with
  | O => None
  | S f =>
      match nodes st !! i with
      | None => Some res
      | Some n => foldM (fun acc c => collectDfs f st c acc) (res ++ [i]) (children n)
      end
  end.

Definition collectSubtreeIds (fuel : nat) (st : TreeState) (rootId : jsstring)
    : option (list jsstring) :=
  collectDfs fuel st rootId [].

(** [deleteSubtree]. When [targetId] is no key of the table but a name
    inherited from [Object.prototype], the guard reads the inherited member
    and does not fire. That member has no [children] and no [parentId]: the
    ids collected are [targetId] alone, and [parentId] is [undefined], read
    as the key [undefined]. No node is removed, the flag of [targetId] is,
    and the cursor goes to the root; when a node is stored under the key
    [undefined], the new activeId is [undefined] itself, which is no
    string. *)
Definition deleteSubtree (fuel : nat) (st : TreeState) (targetId : jsstring)
    : option TreeState :=
  match nodes st !! targetId with
  | None =>
      if inherited targetId then
        match nodes st !! js "undefined" with
        | Some _ => None
        | None =>
            Some (mkState (convoKey st) (seenLinearCount st) ROOT_ID (nodes st)
                    (filter (fun kv => kv.1 ∉ ({[ targetId ]} : gset jsstring))
                       (collapsedIds st)))
        end
      else Some st
  | Some target =>
      if bool_decide (targetId = ROOT_ID) then Some st
      else
        let parentId := parentId target in
        let parent := nodes st !! parentId in
        ids ← collectSubtreeIds fuel st targetId;
        let toDelete : gset jsstring := list_to_set ids in
        let nextNodes0 := foldl (fun m i => delete i m) (nodes st) ids in
        let nextNodes :=
          match parent, nextNodes0 !! parentId with
          | Some p, Some _ =>
              <[ parentId :=
                   withChildren p (filter (fun c => c ≠ targetId) (children p)) ]>
                nextNodes0
          | _, _ => nextNodes0
          end in
        let nextCollapsed :=
          filter (fun kv => kv.1 ∉ toDelete) (collapsedIds st) in
        let nextActiveId :=
          match nextNodes !! parentId with
          | Some _ => parentId
          | None => ROOT_ID
          end in
        Some (mkState (convoKey st) (seenLinearCount st) nextActiveId
                nextNodes nextCollapsed)
  end.

(** ** Collapse actions of the panel *)

(** [ref] is [treeRef.current], read when the handler runs; [prev] is the
    state the updater receives. *)
Definition toggleCollapseNode (ref prev : TreeState) (i : jsstring) : TreeState :=
  let cur := isCollapsed ref i in
  mkState (convoKey prev) (seenLinearCount prev) (activeId prev) (nodes prev)
          (<[ i := negb cur ]> (collapsedIds prev)).

(** A handler that runs once the state has been committed sees
    [treeRef.current = prev]. *)
Definition toggleCollapse (st : TreeState) (i : jsstring) : TreeState :=
  toggleCollapseNode st st i.

Definition expandAllNodes (prev : TreeState) : TreeState :=
  mkState (convoKey prev) (seenLinearCount prev) (activeId prev) (nodes prev) ∅.

(** The upward walk of [collapseAllOtherNodes]; [cur] is [None] for
    [undefined]. *)
Fixpoint upLoop (fuel : nat) (nodes : gmap jsstring TreeNode) (guard : gset jsstring)
    (cur : option jsstring) (up : list jsstring) : option (list jsstring) :=
  match fuel with
  | O => None
  | S f =>
      match cur with
      | Some c =>
          if keepWalking guard c
          then upLoop f nodes ({[c]} ∪ guard) (parentId <$> nodes !! c) (up ++ [c])
          else Some up
      | None => Some up
      end
  end.

(** The body of the loop over the path: the children of [parentId] other
    than [childOnPath] are flagged. *)
Definition collapseOthers (nodes : gmap jsstring TreeNode) (parentId childOnPath : jsstring)
    (nextCollapsed : gmap jsstring bool) : gmap jsstring bool :=
  match nodes !! parentId with
  | Some parent =>
      foldl (fun m c => if bool_decide (c = childOnPath) then m else <[ c := true ]> m)
            nextCollapsed (children parent)
  | None => nextCollapsed
  end.

(** The loop over [path[i], path[i + 1]]. *)
Fixpoint collapseSiblings (nodes : gmap jsstring TreeNode) (path : list jsstring)
    (nextCollapsed : gmap jsstring bool) : gmap jsstring bool :=
  match path with
  | parentId :: ((childOnPath :: _) as rest) =>
      collapseSiblings nodes rest (collapseOthers nodes parentId childOnPath nextCollapsed)
  | _ => nextCollapsed
  end.

Definition collapseAllOtherNodes (prev : TreeState) : TreeState :=
  let nodes := nodes prev in
  let activeId := activeId prev in
  let up := default [] (upLoop (S (S (size nodes))) nodes ∅ (Some activeId) []) in
  let path := ROOT_ID :: rev up in
  let c1 := collapseSiblings nodes path ∅ in
  let c2 :=
    match nodes !! activeId with
    | Some active => foldl (fun m c => <[ c := true ]> m) c1 (children active)
    | None => c1
    end in
  let nextCollapsed := delete activeId (delete ROOT_ID c2) in
  mkState (convoKey prev) (seenLinearCount prev) activeId nodes nextCollapsed.

(** ** Persist *)

Definition stripNode (n : TreeNode) : TreeNode :=
  mkNode (id n) (parentId n) (children n) (depth n) (linearIndex n) (summary n) [] [].

Definition stripTreeForPersist (st : TreeState) : TreeState :=
  mkState (convoKey st) (seenLinearCount st) (activeId st)
          (stripNode <$> nodes st) (collapsedIds st).

(** ** Specification-level definitions *)

Global Instance Role_eq_dec : EqDecision Role.
Proof. solve_decision. Defined.

Definition countRole (r : Role) (msgs : list Msg) : nat :=
  length (filter (fun m => role m = r) msgs).

(** The pairs of a message sequence, said without a loop: every assistant
    message that directly follows a user message, with that user message. *)
Fixpoint adjacentPairs (msgs : list Msg) : list Pair :=
  match msgs with
  | u :: ((a :: _) as rest) =>
      match role u, role a with
      | user, assistant =>
          mkPair (text u) (text a) (html u) (html a) :: adjacentPairs rest
      | _, _ => adjacentPairs rest
      end
  | _ => []
  end.

(** What the pairing loop still emits from a state with [pending]. *)
Definition pendingPairs (pending : option Msg) (msgs : list Msg) : list Pair :=
  match pending with
  | Some u => adjacentPairs (u :: msgs)
  | None => adjacentPairs (mkMsg assistant [] [] :: msgs)
  end.

Definition pendingIsUser (pending : option Msg) : Prop :=
  match pending with Some u => role u = user | None => True end.

(** The messages of [pageinfo.ts] as messages of the overlay, and its nodes
    as numbered pairs. *)
Definition forgetIdx (m : PageInfo.Msg) : Msg :=
  mkMsg (PageInfo.role m) (PageInfo.text m) (PageInfo.html m).

Definition linearNodeOfPair (i : Z) (p : Pair) : PageInfo.LinearNode :=
  PageInfo.mkLinearNode (js "lin_" ++ dec i) (userText p) (pairUserHtml p)
    (assistantText p) (pairAssistantHtml p)
    (makeSummaryFromUserText (userText p) 20) i.

Fixpoint numberFrom (i : Z) (ps : list Pair) : list PageInfo.LinearNode :=
  match ps with
  | [] => []
  | p :: ps' => linearNodeOfPair i p :: numberFrom (i + 1) ps'
  end.

(** Tree integrity (invariants 1 to 3 of the data model) as a check: the root
    is present; every node is stored under its own id, which is not the
    empty string, at depth at least 0;
    every listed child exists, is not the root and names the node as its
    parent; every node but the root is listed by its parent, one level
    deeper. *)
Definition childOk (st : TreeState) (k c : jsstring) : bool :=
  negb (bool_decide (c = ROOT_ID))
  && match nodes st !! c with
     | Some cn => bool_decide (parentId cn = k)
     | None => false
     end.

Definition nodeOk (st : TreeState) (kn : jsstring * TreeNode) : bool :=
  truthy kn.1
  && bool_decide (id kn.2 = kn.1)
  && (0 <=? depth kn.2)
  && forallb (childOk st kn.1) (children kn.2)
  && (bool_decide (kn.1 = ROOT_ID)
      || match nodes st !! parentId kn.2 with
         | Some p => bool_decide (kn.1 ∈ children p) && (depth kn.2 =? depth p + 1)
         | None => false
         end).

Definition tree_ok (st : TreeState) : bool :=
  match nodes st !! ROOT_ID with Some _ => true | None => false end
  && forallb (nodeOk st) (map_to_list (nodes st)).

(** The largest depth in the table (0 at least). *)
Definition maxDepth (st : TreeState) : Z :=
  foldr (fun kn acc => Z.max (depth kn.2) acc) 0 (map_to_list (nodes st)).

(** A call depth that is enough for the recursive walks of a sound tree. *)
Definition enoughFuel (st : TreeState) : nat := S (S (Z.to_nat (maxDepth st))).

(** ** Example states *)

Definition turnNode (i parent : jsstring) (cs : list jsstring) (d li : Z) : TreeNode :=
  mkNode i parent cs d li (js "q") [] [].

(** The root with two branches [n_0_a1] and [n_1_b2]; the cursor is on the
    first. *)
Definition twoBranches : TreeState :=
  mkState (js "c_1") 2 (js "n_0_a1")
    (<[ ROOT_ID := withChildren rootNode [js "n_0_a1"; js "n_1_b2"] ]>
       (<[ js "n_0_a1" := turnNode (js "n_0_a1") ROOT_ID [] 1 0 ]>
          (<[ js "n_1_b2" := turnNode (js "n_1_b2") ROOT_ID [] 1 1 ]> ∅)))
    ∅.



(** ** The reconciler contract, in the words of the specification *)

(** The key under which the parent of an appended node is found: activeId,
    or the root when that id does not resolve. *)
Definition parentKey (st : TreeState) : jsstring :=
  match nodes st !! activeId st with
  | Some _ => activeId st
  | None => ROOT_ID
  end.




(** Every node is stored under its own id. *)
Definition idsConsistent (st : TreeState) : Prop :=
  ∀ k n, nodes st !! k = Some n → id n = k.

(** The state [freshTree] after one append, as [refresh] leaves it. *)
Definition onePair : list Pair := [mkPair (js "hello") (js "hi") [] []].

Definition rndAb (k : nat) : jsstring := js "ab".

(** ** The aligned chain, in the words of the specification *)

(** The root of a chain of [n] aligned nodes: its only child is node 0. *)
Definition alignedRoot (n : nat) : TreeNode :=
  withChildren rootNode (if (0 <? n)%nat then [alignId 0] else []).

(** Node [i] of a chain of [n] aligned nodes: its parent is node [i - 1] (the
    root for node 0), its only child is node [i + 1] (none for the last). *)
Definition alignedNode (pairs : list Pair) (n i : nat) : TreeNode :=
  mkNode (alignId i)
         (match i with O => ROOT_ID | S i' => alignId i' end)
         (if (S i <? n)%nat then [alignId (S i)] else [])
         (Z.of_nat i + 1) (Z.of_nat i)
         (makeSummaryFromUserText (default [] (userText <$> pairs !! i)) 20)
         [] [].

(** The loop state of [buildAlignedLinearTreeFromPairs] after [j] iterations. *)
Definition alignInv (pairs : list Pair) (j : nat)
    (s : gmap jsstring TreeNode * jsstring) : Prop :=
  s.2 = match j with O => ROOT_ID | S j' => alignId j' end
  ∧ s.1 !! ROOT_ID = Some (alignedRoot j)
  ∧ (∀ i, (i < j)%nat → s.1 !! alignId i = Some (alignedNode pairs j i))
  ∧ (∀ k, k ≠ ROOT_ID → (∀ i, (i < j)%nat → k ≠ alignId i) → s.1 !! k = None)
  ∧ size s.1 = S j.

(** ** The path to the root, in the words of the specification *)

(** [upPath st k l]: [l] lists [k] and its ancestors up to the root, the
    root left out. *)
Inductive upPath (st : TreeState) : jsstring → list jsstring → Prop :=
  | upPath_root : upPath st ROOT_ID []
  | upPath_step (k : jsstring) (n : TreeNode) (l : list jsstring) :
      k ≠ ROOT_ID → nodes st !! k = Some n → upPath st (parentId n) l →
      upPath st k (k :: l).

(** The ids on the root-to-active path, the root included. *)
Definition pathIds (st : TreeState) : list jsstring :=
  ROOT_ID :: (id <$> pathToRoot st).

(** [x] is the root or one of the ids of [l]. *)
Definition onPath (l : list jsstring) (x : jsstring) : Prop := x = ROOT_ID ∨ x ∈ l.

(** The tree of the example scenario: [n_0_a1] under the root, the chain
    [n_1_b2], [n_2_c3] and the branch [n_3_d4], [n_4_e5] under it; the cursor
    is on [n_3_d4]. *)
Definition branched : TreeState :=
  mkState (js "c_1") 5 (js "n_3_d4")
    (<[ ROOT_ID := withChildren rootNode [js "n_0_a1"] ]>
       (<[ js "n_0_a1" :=
             turnNode (js "n_0_a1") ROOT_ID [js "n_1_b2"; js "n_3_d4"] 1 0 ]>
          (<[ js "n_1_b2" := turnNode (js "n_1_b2") (js "n_0_a1") [js "n_2_c3"] 2 1 ]>
             (<[ js "n_2_c3" := turnNode (js "n_2_c3") (js "n_1_b2") [] 3 2 ]>
                (<[ js "n_3_d4" :=
                      turnNode (js "n_3_d4") (js "n_0_a1") [js "n_4_e5"] 2 3 ]>
                   (<[ js "n_4_e5" := turnNode (js "n_4_e5") (js "n_3_d4") [] 3 4 ]>
                      ∅))))))
    ∅.

Definition idsOf (ns : list TreeNode) : list jsstring := map id ns.

(** ** JSON: the values, [JSON.stringify] and [JSON.parse]

    The host functions are modelled on the values that the persisted tree
    uses: [null], booleans, integers, strings, arrays and objects (an object
    is the list of its properties in order). [stringify] is the compact text
    of [JSON.stringify]; [parseJSON] reads that compact grammar: integers
    without fraction or exponent, no white space between tokens. *)

Unset Elimination Schemes.

Inductive json : Type :=
  | JNull
  | JBool (b : bool)
  | JNum (z : Z)
  | JStr (s : jsstring)
  | JArr (l : list json)
  | JObj (l : list (jsstring * json)).

Set Elimination Schemes.

Definition hexDigit (n : N) : N := (if n <? 10 then 48 + n else 87 + n)%N.

Definition hex4 (c : N) : jsstring :=
  [hexDigit ((c / 4096) mod 16); hexDigit ((c / 256) mod 16);
   hexDigit ((c / 16) mod 16); hexDigit (c mod 16)]%N.

Definition isHighSurrogate (c : N) : bool := ((55296 <=? c) && (c <=? 56319))%N.
Definition isLowSurrogate (c : N) : bool := ((56320 <=? c) && (c <=? 57343))%N.

(** The two-character escapes of QuoteJSONString. *)
Definition shortEscape (c : N) : option N :=
  (if c =? 8 then Some 98 else if c =? 9 then Some 116 else if c =? 10 then Some 110
   else if c =? 12 then Some 102 else if c =? 13 then Some 114
   else if c =? 34 then Some 34 else if c =? 92 then Some 92 else None)%N.

Definition unicodeEscape (c : N) : jsstring := [92; 117]%N ++ hex4 c.

(** QuoteJSONString without the quotes: short escapes, [\uXXXX] for the
    other control characters and for lone surrogates, the code unit itself
    otherwise. *)
Fixpoint quoteChars (s : jsstring) : jsstring :=
  match s with
  | [] => []
  | c :: r =>
      match shortEscape c with
      | Some e => 92%N :: e :: quoteChars r
      | None =>
          if (c <? 32)%N then unicodeEscape c ++ quoteChars r
          else if isHighSurrogate c then
            match r with
            | c2 :: r2 =>
                if isLowSurrogate c2 then c :: c2 :: quoteChars r2
                else unicodeEscape c ++ quoteChars r
            | [] => unicodeEscape c
            end
          else if isLowSurrogate c then unicodeEscape c ++ quoteChars r
          else c :: quoteChars r
      end
  end.

Definition quote (s : jsstring) : jsstring := 34%N :: quoteChars s ++ [34%N].

Fixpoint joinComma (l : list jsstring) : jsstring :=
  match l with
  | [] => []
  | [x] => x
  | x :: l' => x ++ 44%N :: joinComma l'
  end.

Fixpoint stringify (j : json) : jsstring :=
  match j with
  | JNull => js "null"
  | JBool true => js "true"
  | JBool false => js "false"
  | JNum z => dec z
  | JStr s => quote s
  | JArr l => 91%N :: joinComma (map stringify l) ++ [93%N]
  | JObj l =>
      123%N :: joinComma (map (fun kv => quote kv.1 ++ 58%N :: stringify kv.2) l)
        ++ [125%N]
  end.

Definition unhexDigit (c : N) : option N :=
  (if (48 <=? c) && (c <=? 57) then Some (c - 48)
   else if (97 <=? c) && (c <=? 102) then Some (c - 87)
   else if (65 <=? c) && (c <=? 70) then Some (c - 55)
   else None)%N.

Definition unhex4 (a b c d : N) : option N :=
  a' ← unhexDigit a; b' ← unhexDigit b; c' ← unhexDigit c; d' ← unhexDigit d;
  Some (a' * 4096 + b' * 256 + c' * 16 + d')%N.

Definition unescape (e : N) : option N :=
  (if e =? 98 then Some 8 else if e =? 116 then Some 9 else if e =? 110 then Some 10
   else if e =? 102 then Some 12 else if e =? 114 then Some 13
   else if e =? 34 then Some 34 else if e =? 92 then Some 92
   else if e =? 47 then Some 47 else None)%N.

(** The characters of a string up to its closing quote. *)
Fixpoint parseChars (s acc : jsstring) : option (jsstring * jsstring) :=
  match s with
  | [] => None
  | c :: r =>
      if (c =? 34)%N then Some (acc, r)
      else if (c =? 92)%N then
        match r with
        | e :: r1 =>
            if (e =? 117)%N then
              match r1 with
              | a :: b :: c' :: d :: r2 =>
                  h ← unhex4 a b c' d; parseChars r2 (acc ++ [h])
              | _ => None
              end
            else u ← unescape e; parseChars r1 (acc ++ [u])
        | [] => None
        end
      else if (c <? 32)%N then None
      else parseChars r (acc ++ [c])
  end.

Definition isNumChar (c : N) : bool := ((48 <=? c) && (c <=? 57) || (c =? 45))%N.

Fixpoint spanNum (s : jsstring) : jsstring * jsstring :=
  match s with
  | c :: r => if isNumChar c then let '(t, r') := spanNum r in (c :: t, r') else ([], s)
  | [] => ([], [])
  end.

Definition unjs (s : jsstring) : string :=
  string_of_list_ascii (map ascii_of_N s).

(** An integer in the canonical form of the JSON grammar. *)
Definition parseNumber (s : jsstring) : option (json * jsstring) :=
  let '(tok, rest) := spanNum s in
  d ← NilEmpty.int_of_string (unjs tok);
  let z := Z.of_int d in
  if bool_decide (dec z = tok) then Some (JNum z, rest) else None.

Fixpoint dropPrefix (p s : jsstring) : option jsstring :=
  match p, s with
  | [], _ => Some s
  | a :: p', b :: s' => if (a =? b)%N then dropPrefix p' s' else None
  | _ :: _, [] => None
  end.

(** What the parser is reading: a value, the rest of an array after [acc],
    or the rest of an object after [acc]. *)
Inductive parseMode : Type :=
  | MValue
  | MElems (acc : list json)
  | MMembers (acc : list (jsstring * json)).

Fixpoint parseWith (fuel : nat) (m : parseMode) (s : jsstring) : option (json * jsstring) :=
  match fuel with
  | O => None
  | S f =>
      match m with
      | MValue =>
          match s with
          | c :: r =>
              if (c =? 34)%N then '(str, r') ← parseChars r []; Some (JStr str, r')
              else if (c =? 91)%N then
                match r with
                | c2 :: r2 => if (c2 =? 93)%N then Some (JArr [], r2)
                              else parseWith f (MElems []) r
                | [] => None
                end
              else if (c =? 123)%N then
                match r with
                | c2 :: r2 => if (c2 =? 125)%N then Some (JObj [], r2)
                              else parseWith f (MMembers []) r
                | [] => None
                end
              else if (c =? 110)%N then r' ← dropPrefix (js "null") s; Some (JNull, r')
              else if (c =? 116)%N then r' ← dropPrefix (js "true") s; Some (JBool true, r')
              else if (c =? 102)%N then r' ← dropPrefix (js "false") s; Some (JBool false, r')
              else parseNumber s
          | [] => None
          end
      | MElems acc =>
          '(v, r) ← parseWith f MValue s;
          match r with
          | c :: r' =>
              if (c =? 44)%N then parseWith f (MElems (acc ++ [v])) r'
              else if (c =? 93)%N then Some (JArr (acc ++ [v]), r')
              else None
          | [] => None
          end
      | MMembers acc =>
          match s with
          | c :: r0 =>
              if (c =? 34)%N then
                '(k, r1) ← parseChars r0 [];
                match r1 with
                | c1 :: r2 =>
                    if (c1 =? 58)%N then
                      '(v, r) ← parseWith f MValue r2;
                      match r with
                      | c' :: r' =>
                          if (c' =? 44)%N then parseWith f (MMembers (acc ++ [(k, v)])) r'
                          else if (c' =? 125)%N then Some (JObj (acc ++ [(k, v)]), r')
                          else None
                      | [] => None
                      end
                    else None
                | [] => None
                end
              else None
          | [] => None
          end
      end
  end.

(** [JSON.parse(s)] on the texts that [JSON.stringify] writes, which are
    the texts the overlay stores: no white space between the tokens and
    integer numbers. [None] for a SyntaxError, and for a text outside that
    form. *)
Definition parseJSON (s : jsstring) : option json :=
  match parseWith (S (length s)) MValue s with
  | Some (j, []) => Some j
  | _ => None
  end.

(** Fuel that lets [parseWith] read back the text of a value. *)
Fixpoint weight (j : json) : nat :=
  match j with
  | JArr l => S (list_sum (map (fun e => S (weight e)) l))
  | JObj l => S (list_sum (map (fun kv => S (weight kv.2)) l))
  | _ => 1%nat
  end.

(** The text after a value does not go on with a character of a number. *)
Definition okRest (rest : jsstring) : Prop :=
  match rest with
  | c :: _ => isNumChar c = false
  | [] => True
  end.

(** [parseWith] reads back the text of [j], whatever follows. *)
Definition readsBack (j : json) : Prop :=
  ∀ f rest, (weight j ≤ f)%nat → okRest rest →
    parseWith f MValue (stringify j ++ rest) = Some (j, rest).

(** The text of one property of an object. *)
Definition memberText (kv : jsstring * json) : jsstring :=
  quote kv.1 ++ 58%N :: stringify kv.2.

(** *** The tree as a JSON value *)

(** [o[k]]: the last property named [k]. *)
Fixpoint jget (k : jsstring) (o : list (jsstring * json)) : option json :=
  match o with
  | [] => None
  | kv :: o' =>
      match jget k o' with
      | Some v => Some v
      | None => if bool_decide (kv.1 = k) then Some kv.2 else None
      end
  end.

Definition asStr (j : json) : option jsstring :=
  match j with JStr s => Some s | _ => None end.

Definition asNum (j : json) : option Z :=
  match j with JNum z => Some z | _ => None end.

Definition asBool (j : json) : option bool :=
  match j with JBool b => Some b | _ => None end.

Definition asStrs (j : json) : option (list jsstring) :=
  match j with JArr l => mapM asStr l | _ => None end.

(** A [Record<string, V>]: a later property of the same name wins. *)
Definition asRecord {V : Type} (f : json → option V) (j : json)
    : option (gmap jsstring V) :=
  match j with
  | JObj o =>
      kvs ← mapM (fun kv => v ← f kv.2; Some (kv.1, v)) o;
      Some (list_to_map (rev kvs))
  | _ => None
  end.

(** The properties of a node, in the order of the object literal of
    [stripTreeForPersist]. *)
Definition jsonOfNode (n : TreeNode) : json :=
  JObj [(js "id", JStr (id n)); (js "parentId", JStr (parentId n));
        (js "children", JArr (JStr <$> children n));
        (js "depth", JNum (depth n)); (js "linearIndex", JNum (linearIndex n));
        (js "summary", JStr (summary n)); (js "userHtml", JStr (userHtml n));
        (js "assistantHtml", JStr (assistantHtml n))].

Definition jsonOfState (st : TreeState) : json :=
  JObj [(js "convoKey", JStr (convoKey st));
        (js "seenLinearCount", JNum (seenLinearCount st));
        (js "activeId", JStr (activeId st));
        (js "nodes", JObj (prod_map Datatypes.id jsonOfNode <$> map_to_list (nodes st)));
        (js "collapsedIds",
         JObj (prod_map Datatypes.id JBool <$> map_to_list (collapsedIds st)))].

(** A parsed value read as a [TreeNode] (the cast of [safeJsonParse]);
    [None] when it does not have the shape of the type. *)
Definition nodeOfJson (j : json) : option TreeNode :=
  match j with
  | JObj o =>
      i ← jget (js "id") o ≫= asStr;
      p ← jget (js "parentId") o ≫= asStr;
      cs ← jget (js "children") o ≫= asStrs;
      d ← jget (js "depth") o ≫= asNum;
      li ← jget (js "linearIndex") o ≫= asNum;
      s ← jget (js "summary") o ≫= asStr;
      uh ← jget (js "userHtml") o ≫= asStr;
      ah ← jget (js "assistantHtml") o ≫= asStr;
      Some (mkNode i p cs d li s uh ah)
  | _ => None
  end.

Definition stateOfJson (j : json) : option TreeState :=
  match j with
  | JObj o =>
      key ← jget (js "convoKey") o ≫= asStr;
      seen ← jget (js "seenLinearCount") o ≫= asNum;
      active ← jget (js "activeId") o ≫= asStr;
      ns ← jget (js "nodes") o ≫= asRecord nodeOfJson;
      cs ← jget (js "collapsedIds") o ≫= asRecord asBool;
      Some (mkState key seen active ns cs)
  | _ => None
  end.

(** [!v] on a parsed value. *)
Definition jfalsy (j : json) : bool :=
  match j with
  | JNull | JBool false | JNum 0 | JStr [] => true
  | _ => false
  end.

(** *** [localStorage] *)

Definition STORAGE_PREFIX : jsstring := js "treechat:v3:".

Definition storageKey (convoKey : jsstring) : jsstring := STORAGE_PREFIX ++ convoKey.

(** [s] is [None] for [null] (no item). *)
Definition safeJsonParse (s : option jsstring) : option json :=
  s ← s; if truthy s then parseJSON s else None.

(** [if (!st.collapsedIds) st.collapsedIds = {}] on a parsed object. *)
Definition defaultCollapsedIds (j : json) : json :=
  match j with
  | JObj o =>
      match jget (js "collapsedIds") o with
      | Some v => if jfalsy v then JObj (o ++ [(js "collapsedIds", JObj [])]) else j
      | None => JObj (o ++ [(js "collapsedIds", JObj [])])
      end
  | _ => j
  end.

Definition loadTree (storage : gmap jsstring jsstring) (convoKey : jsstring)
    : option TreeState :=
  st ← safeJsonParse (storage !! storageKey convoKey);
  if jfalsy st then None else stateOfJson (defaultCollapsedIds st).

(** [saveTree], when [localStorage.setItem] does not throw. *)
Definition saveTree (storage : gmap jsstring jsstring) (st : TreeState)
    : gmap jsstring jsstring :=
  <[ storageKey (convoKey st) := stringify (jsonOfState st) ]> storage.

(** ** Further definitions *)

(** Tree integrity of one entry of the table, as a proposition. *)
Definition soundNode (st : TreeState) (k : jsstring) (n : TreeNode) : Prop :=
  truthy k = true ∧ id n = k ∧ 0 ≤ depth n
  ∧ (∀ c, c ∈ children n →
       c ≠ ROOT_ID ∧ ∃ cn, nodes st !! c = Some cn ∧ parentId cn = k)
  ∧ (k ≠ ROOT_ID →
       ∃ p, nodes st !! parentId n = Some p ∧ k ∈ children p
            ∧ depth n = depth p + 1).

(** What a depth-first collection from the ids [starts] adds: nodes of the
    table only, every start that is in the table, with every node all its
    children that are in the table, and nothing that is not a start or a
    child of something added. *)
Definition collected (st : TreeState) (starts added : list jsstring) : Prop :=
  (∀ c, c ∈ starts → is_Some (nodes st !! c) → c ∈ added)
  ∧ (∀ x, x ∈ added → is_Some (nodes st !! x))
  ∧ (∀ k n c, k ∈ added → nodes st !! k = Some n → c ∈ children n →
       is_Some (nodes st !! c) → c ∈ added)
  ∧ (∀ x, x ∈ added →
       x ∈ starts ∨ ∃ y yn, y ∈ added ∧ nodes st !! y = Some yn ∧ x ∈ children yn).

(** [l] is a walk that starts at the node stored under [cur] and goes from
    each node to the node its [parentId] names, never through the root. *)
Fixpoint chained (st : TreeState) (cur : jsstring) (l : list TreeNode) : Prop :=
  match l with
  | [] => True
  | n :: l' => cur ≠ ROOT_ID ∧ nodes st !! cur = Some n ∧ chained st (parentId n) l'
  end.

(** A table whose parent links form a cycle: [n_0_a1] and [n_1_b2] name each
    other as parent. *)
Definition cyclic : TreeState :=
  mkState (js "c_1") 2 (js "n_0_a1")
    (<[ ROOT_ID := rootNode ]>
       (<[ js "n_0_a1" := turnNode (js "n_0_a1") (js "n_1_b2") [js "n_1_b2"] 1 0 ]>
          (<[ js "n_1_b2" := turnNode (js "n_1_b2") (js "n_0_a1") [js "n_0_a1"] 2 1 ]>
             ∅)))
    ∅.

(** [hasChildren] of the collapse helpers. *)
Definition hasChildren (st : TreeState) (i : jsstring) : bool :=
  match nodes st !! i with
  | Some n => (0 <? length (children n))%nat
  | None => false
  end.

(** The strict ancestors of the start of an upward path [l]: the rest of
    the path, then the root. *)
Definition ancestorsOf (l : list jsstring) : list jsstring :=
  match l with
  | [] => []
  | _ :: l' => l' ++ [ROOT_ID]
  end.

(** *** The other entries of [localStorage] *)

Definition STORAGE_SCROLL_PREFIX : jsstring := js "treechat:scroll:v1:".

Definition storageScrollKey (convoKey : jsstring) : jsstring :=
  STORAGE_SCROLL_PREFIX ++ convoKey.

Definition PANEL_LEFT_KEY : jsstring := js "treechat:panelLeftVw:v1".

Definition PANEL_BOTTOM_KEY : jsstring := js "treechat:panelBottomVh:v1".

(** [saveScroll], when [setItem] does not throw; [encoded] stands for
    [JSON.stringify(s)], the offsets being floating-point numbers. *)
Definition saveScroll (storage : gmap jsstring jsstring) (convoKey encoded : jsstring)
    : gmap jsstring jsstring :=
  <[ storageScrollKey convoKey := encoded ]> storage.

(** The tree a conversation starts from: [loadTree(key) ?? freshTree(key)]. *)
Definition initialTree (storage : gmap jsstring jsstring) (key : jsstring) : TreeState :=
  default (freshTree key) (loadTree storage key).

(** A snapshot in the older format, without [collapsedIds]. *)
Definition oldJsonOfState (st : TreeState) : json :=
  JObj [(js "convoKey", JStr (convoKey st));
        (js "seenLinearCount", JNum (seenLinearCount st));
        (js "activeId", JStr (activeId st));
        (js "nodes", JObj (prod_map Datatypes.id jsonOfNode <$> map_to_list (nodes st)))].

(** ** DOM extract: messages *)

Definition LF : N := 10%N.

(** [s.replace(/\u00a0/g, " ")] *)
Definition replaceNbsp (s : jsstring) : jsstring :=
  map (fun c => if (c =? 160)%N then 32%N else c) s.

(** The match of [\s*\n] at the head of [s], as the regular-expression
    engine finds it: its length, the white space taken as long as a line
    feed still follows. *)
Fixpoint spacesNewline (s : jsstring) : option nat :=
  match s with
  | [] => None
  | c :: r =>
      if isSpace c
      then match spacesNewline r with
           | Some n => Some (S n)
           | None => if (c =? LF)%N then Some 1%nat else None
           end
      else None
  end.

(** The length of the match of [/\s+\n/] at the head of [s]. *)
Definition matchAt (s : jsstring) : option nat :=
  match s with
  | [] => None
  | c :: r => if isSpace c then option_map S (spacesNewline r) else None
  end.

(** [s.replace(/\s+\n/g, "\n")], read from left to right; [skip] counts the
    characters of the current match that are still to be passed over. *)
Fixpoint replaceLoop (skip : nat) (s : jsstring) : jsstring :=
  match s with
  | [] => []
  | c :: r =>
      match skip with
      | S k => replaceLoop k r
      | O =>
          match matchAt s with
          | Some n => LF :: replaceLoop (Nat.pred n) r
          | None => c :: replaceLoop 0 r
          end
      end
  end.

Definition cleanText (s : jsstring) : jsstring :=
  trim (replaceLoop 0 (replaceNbsp s)).

(** An element carrying [data-message-author-role], as the extraction reads
    it: [elKey] is its identity, [nested] tells that an ancestor carries the
    attribute too. *)
Record RoleEl := mkEl {
  elKey : nat;
  nested : bool;
  roleRaw : option jsstring;
  innerText : jsstring;
  innerHTML : jsstring
}.

(** [all] is the result of [querySelectorAll]. *)
Definition uniqueTopLevelRoleEls (all : list RoleEl) : list RoleEl :=
  filter (fun el => nested el = false) all.

Definition roleOf (roleRaw : option jsstring) : option Role :=
  match roleRaw with
  | Some r =>
      if decide (r = js "user") then Some user
      else if decide (r = js "assistant") then Some assistant
      else None
  | None => None
  end.

(** The two assignments to [last] of the merging branch. *)
Definition mergeText (lastText text : jsstring) : jsstring :=
  cleanText (lastText ++ [LF; LF] ++ text).

Definition mergeHtml (lastHtml html : jsstring) : jsstring :=
  lastHtml ++ [LF] ++ html.

(** One iteration of the loop of [extractMessages] on [out]; the last
    message is updated in place. *)
Definition extractStep (out : list Msg) (el : RoleEl) : list Msg :=
  match roleOf (roleRaw el) with
  | None => out
  | Some r =>
      let t := cleanText (innerText el) in
      let h := trim (innerHTML el) in
      if negb (truthy t) && negb (truthy h) then out
      else
        match last out with
        | Some l =>
            if decide (role l = r)
            then <[ Nat.pred (length out) :=
                      mkMsg (role l) (mergeText (text l) t) (mergeHtml (html l) h) ]> out
            else out ++ [mkMsg r t h]
        | None => out ++ [mkMsg r t h]
        end
  end.

Definition extractMessages (all : list RoleEl) : list Msg :=
  fold_left extractStep (uniqueTopLevelRoleEls all) [].

(** The extraction of [contents/pageinfo.ts]. *)
Module PageInfoExtract.

(** The loop over [top] with the set [seen]. *)
Definition uniqueStep (s : gset nat * list RoleEl) (el : RoleEl)
    : gset nat * list RoleEl :=
  let '(seen, out) := s in
  if decide (elKey el ∈ seen) then s else ({[ elKey el ]} ∪ seen, out ++ [el]).

Definition uniqueTopLevelRoleEls (all : list RoleEl) : list RoleEl :=
  snd (fold_left uniqueStep (filter (fun el => nested el = false) all) (∅, [])).

(** The first loop, on [(messagesRaw, idx)]. *)
Definition rawStep (s : list PageInfo.Msg * Z) (el : RoleEl) : list PageInfo.Msg * Z :=
  let '(messagesRaw, idx) := s in
  match roleOf (roleRaw el) with
  | None => s
  | Some r =>
      let t := cleanText (innerText el) in
      let h := trim (innerHTML el) in
      if negb (truthy t) && negb (truthy h) then s
      else (messagesRaw ++ [PageInfo.mkMsg r t h idx], idx + 1)
  end.

(** The second loop, on [merged]. *)
Definition mergeStep (merged : list PageInfo.Msg) (m : PageInfo.Msg)
    : list PageInfo.Msg :=
  match last merged with
  | Some l =>
      if decide (PageInfo.role l = PageInfo.role m)
      then <[ Nat.pred (length merged) :=
                PageInfo.mkMsg (PageInfo.role l)
                  (mergeText (PageInfo.text l) (PageInfo.text m))
                  (mergeHtml (PageInfo.html l) (PageInfo.html m))
                  (PageInfo.idx l) ]> merged
      else merged ++ [m]
  | None => merged ++ [m]
  end.

Record Debug := mkDebug {
  roleCount : Z;
  messageCount : Z
}.

Definition extractMessagesByRole (all : list RoleEl) : list PageInfo.Msg * Debug :=
  let roleEls := uniqueTopLevelRoleEls all in
  let messagesRaw := fst (fold_left rawStep roleEls ([], 0)) in
  let merged := fold_left mergeStep messagesRaw [] in
  (merged, mkDebug (Z.of_nat (length roleEls)) (Z.of_nat (length merged))).

(** The [linearNodes] and the counts [roleCount], [messageCount] and
    [nodeCount] of the answer to [GET_PAGE_INFO]. *)
Definition pageInfo (all : list RoleEl) : list PageInfo.LinearNode * (Z * Z * Z) :=
  let '(messages, debug) := extractMessagesByRole all in
  let linearNodes := PageInfo.pairToLinearNodes messages in
  (linearNodes, (roleCount debug, messageCount debug, Z.of_nat (length linearNodes))).

End PageInfoExtract.

(** The roles of a message list alternate. *)
Fixpoint alternating (msgs : list Msg) : Prop :=
  match msgs with
  | a :: ((b :: _) as rest) => role a ≠ role b ∧ alternating rest
  | _ => True
  end.

(** The messages that pairing cannot use in a list of alternating roles: an
    assistant message at the head and a user message at the end. *)
Definition unpaired (msgs : list Msg) : nat :=
  (match head msgs with
   | Some m => if decide (role m = assistant) then 1 else 0
   | None => 0
   end
   + match last msgs with
     | Some m => if decide (role m = user) then 1 else 0
     | None => 0
     end)%nat.

(** What merging leaves of two cleaned texts: the texts that are not empty,
    on two lines. *)
Definition joinLines (a b : jsstring) : jsstring :=
  if truthy a then (if truthy b then a ++ [LF] ++ b else a) else b.

Definition headIsLF (s : jsstring) : bool :=
  match s with
  | d :: _ => (d =? LF)%N
  | [] => false
  end.

(** No white-space character of [s] stands directly before a line feed. *)
Fixpoint lineClean (s : jsstring) : bool :=
  match s with
  | c :: r => negb (isSpace c && headIsLF r) && lineClean r
  | [] => true
  end.

(** The texts that [cleanText] leaves as they are: no no-break space, no
    white space directly before a line feed, none at either end. *)
Definition cleaned (t : jsstring) : Prop :=
  (160%N ∉ t)
  ∧ (∀ i c, t !! i = Some c → t !! S i = Some LF → isSpace c = false)
  ∧ (∀ c, head t = Some c → isSpace c = false)
  ∧ (∀ c, last t = Some c → isSpace c = false).

(** ** The overlay's handlers *)

(** Every stored tree lies under the key of its own conversation. *)
Definition keyed (storage : gmap jsstring jsstring) : Prop :=
  ∀ k st, loadTree storage k = Some st → convoKey st = k.

(** The state transformation of [refresh]: the tree of the conversation
    [key] when the page has moved to another conversation, the pass over
    the pairs otherwise. *)
Definition refresh (storage : gmap jsstring jsstring) (key : jsstring)
    (st : TreeState) (pairs : list Pair) (rnd : nat → jsstring) : option TreeState :=
  if decide (convoKey st = key) then reconcile st pairs rnd
  else Some (initialTree storage key).

(** [deleteActiveNode]: the new tree, the storage and whether the alert
    [Cannot delete Root.] was shown; [ok] is the answer to the
    confirmation. *)
Definition deleteActiveNode (fuel : nat) (st : TreeState) (ok : bool)
    (storage : gmap jsstring jsstring)
    : option (TreeState * gmap jsstring jsstring * bool) :=
  let id := activeId st in
  if negb (truthy id) || bool_decide (id = ROOT_ID) then Some (st, storage, true)
  else if ok then
    next ← deleteSubtree fuel st id;
    Some (next, saveTree storage (stripTreeForPersist next), false)
  else Some (st, storage, false).

(** [selectActive] as a state transformation; [ref] is [treeRef.current],
    [prev] the state the update is applied to. The guard reads [nodes[id]],
    which is truthy for a node and for an inherited member. *)
Definition selectActive (ref prev : TreeState) (i : jsstring) : TreeState :=
  match nodes ref !! i with
  | Some _ =>
      mkState (convoKey prev) (seenLinearCount prev) i (nodes prev) (collapsedIds prev)
  | None =>
      if inherited i
      then mkState (convoKey prev) (seenLinearCount prev) i (nodes prev)
             (collapsedIds prev)
      else prev
  end.

Definition NOT_LOADED : jsstring := js "(not loaded yet)".

(** [getLiveHtmlByIndex]: the markup of the pair of index [idx] on the
    page, as [(userHtml, assistantHtml)]. *)
Definition getLiveHtmlByIndex (livePairs : list Pair) (idx : Z) : jsstring * jsstring :=
  match pairAt livePairs idx with
  | Some p => (pairUserHtml p, pairAssistantHtml p)
  | None => (NOT_LOADED, NOT_LOADED)
  end.

(** The markup of the cards of the left panel: one card for each node of
    the path, with the live markup of its [linearIndex]. *)
Definition cardsHtml (st : TreeState) (livePairs : list Pair) : list (jsstring * jsstring) :=
  map (fun n => getLiveHtmlByIndex livePairs (linearIndex n)) (pathToRoot st).

(** The id drawn for the [j]-th node of a pass that starts at index [i],
    [k] draws after the first. *)
Definition drawn (i : Z) (rnd : nat → jsstring) (k j : nat) : jsstring :=
  freshId (i + Z.of_nat j) (rnd (k + j)%nat).

(** * Properties *)

(** ** Summaries *)

Lemma isSpace_space : isSpace 32 = true.
Proof. reflexivity. Qed.

Lemma trimStart_nil (s : jsstring) : trimStart s = [] ↔ forallb isSpace s = true.
Proof.
  induction s as [|c r IH]; simpl; [done|].
  destruct (isSpace c); simpl; [exact IH|]. split; discriminate.
Qed.

Lemma forallb_rev (f : N → bool) (s : jsstring) : forallb f (rev s) = forallb f s.
Proof.
  induction s as [|c r IH]; simpl; [done|].
  rewrite forallb_app, IH. simpl. rewrite andb_true_r. apply andb_comm.
Qed.

Lemma forallb_trimStart (s : jsstring) :
  forallb isSpace (trimStart s) = forallb isSpace s.
Proof.
  induction s as [|c r IH]; simpl; [done|].
  destruct (isSpace c) eqn:E; simpl; [exact IH|]. by rewrite E.
Qed.

Lemma trim_nil (s : jsstring) : trim s = [] ↔ forallb isSpace s = true.
Proof.
  unfold trim, trimEnd. split.
  - intros H. apply (f_equal (@rev N)) in H. rewrite rev_involutive in H. simpl in H.
    apply trimStart_nil in H. by rewrite forallb_rev, forallb_trimStart in H.
  - intros H. apply trimStart_nil in H. by rewrite H.
Qed.

Lemma forallb_replaceSpaces (b : bool) (s : jsstring) :
  forallb isSpace (replaceSpaces b s) = forallb isSpace s.
Proof.
  revert b. induction s as [|c r IH]; intros b; simpl; [done|].
  destruct (isSpace c) eqn:E; simpl.
  - destruct b; simpl; by rewrite IH.
  - by rewrite E.
Qed.

Lemma normalizeText_nil (userText : jsstring) :
  normalizeText userText = [] ↔ forallb isSpace userText = true.
Proof.
  unfold normalizeText. rewrite trim_nil. by rewrite forallb_replaceSpaces.
Qed.

Lemma truthy_false (s : jsstring) : truthy s = false ↔ s = [].
Proof. destruct s; simpl; split; done. Qed.

(** C8. The summary of a user turn is the placeholder [(empty)] when the
    text is empty after white-space normalisation (that is, when it holds
    white space only); otherwise it is the normalised text when that has at
    most 20 characters, and its first 20 characters followed by one ellipsis
    when it is longer. In every case the summary is a body of at most 20
    characters, followed by an ellipsis exactly when the text was truncated. *)
Theorem summary_bound (userText : jsstring) :
  let t := normalizeText userText in
  let s := makeSummaryFromUserText userText 20 in
  (t = [] ↔ forallb isSpace userText = true)
  ∧ (t = [] → s = EMPTY_SUMMARY)
  ∧ (t ≠ [] → (length t ≤ 20)%nat → s = t)
  ∧ ((20 < length t)%nat → s = take 20 t ++ [ELLIPSIS])
  ∧ ∃ body : jsstring,
      (length body ≤ 20)%nat
      ∧ s = body ++ (if (20 <? length t)%nat then [ELLIPSIS] else []).
Proof.
  intros t s. subst s. unfold makeSummaryFromUserText. fold t.
  split; [apply normalizeText_nil|].
  split; [intros ->; reflexivity|].
  split.
  { intros Hne Hle. destruct t; [done|]. simpl truthy. cbv iota.
    by apply Nat.leb_le in Hle as ->. }
  split.
  { intros Hlt. destruct t; [simpl in Hlt; lia|]. simpl truthy. cbv iota.
    by apply Nat.leb_gt in Hlt as ->. }
  destruct (truthy t) eqn:Ht.
  - destruct (length t <=? 20)%nat eqn:Hl.
    + exists t. apply Nat.leb_le in Hl. split; [done|].
      assert ((20 <? length t)%nat = false) as -> by (apply Nat.ltb_ge; lia).
      by rewrite app_nil_r.
    + exists (take 20 t). apply Nat.leb_gt in Hl. split.
      * rewrite length_take. lia.
      * by assert ((20 <? length t)%nat = true) as -> by (apply Nat.ltb_lt; lia).
  - apply truthy_false in Ht. rewrite Ht. exists EMPTY_SUMMARY. split.
    + vm_compute. lia.
    + reflexivity.
Qed.

(** ** Pairing *)

Lemma pairLoop_spec (msgs : list Msg) (out : list Pair) (pending : option Msg) :
  pendingIsUser pending →
  fst (fold_left pairStep msgs (out, pending)) = out ++ pendingPairs pending msgs.
Proof.
  revert out pending. induction msgs as [|m rest IH]; intros out pending Hp.
  - simpl. destruct pending as [u|]; simpl; [|by rewrite app_nil_r].
    by rewrite app_nil_r.
  - simpl fold_left. unfold pairStep at 1. destruct (role m) eqn:Hm.
    + rewrite IH by exact Hm. f_equal.
      destruct pending as [u|]; simpl in *; rewrite ?Hp, Hm; reflexivity.
    + destruct pending as [u|]; simpl in Hp.
      * rewrite IH by exact I. rewrite <- app_assoc. f_equal.
        simpl. by rewrite Hp, Hm.
      * rewrite IH by exact I. f_equal. simpl. by rewrite Hm.
Qed.

Lemma adjacentPairs_cons2 (u a : Msg) (rest : list Msg) :
  adjacentPairs (u :: a :: rest)
  = match role u, role a with
    | user, assistant =>
        mkPair (text u) (text a) (html u) (html a) :: adjacentPairs (a :: rest)
    | _, _ => adjacentPairs (a :: rest)
    end.
Proof. reflexivity. Qed.

Lemma adjacentPairs_assistant_head (a : Msg) (msgs : list Msg) :
  role a = assistant → adjacentPairs (a :: msgs) = adjacentPairs msgs.
Proof. intros Ha. destruct msgs as [|m rest]; simpl; [done|]. by rewrite Ha. Qed.

Lemma pairMessages_adjacent (msgs : list Msg) : pairMessages msgs = adjacentPairs msgs.
Proof.
  unfold pairMessages. rewrite pairLoop_spec by exact I. rewrite app_nil_l.
  unfold pendingPairs. by apply adjacentPairs_assistant_head.
Qed.

Lemma countRole_cons (r : Role) (m : Msg) (msgs : list Msg) :
  countRole r (m :: msgs)
  = ((if bool_decide (role m = r) then 1 else 0) + countRole r msgs)%nat.
Proof.
  unfold countRole. rewrite filter_cons. case_bool_decide; case_decide; done.
Qed.

Lemma adjacentPairs_count (msgs : list Msg) :
  (length (adjacentPairs msgs)
   + (match msgs with m :: _ => if bool_decide (role m = assistant) then 1 else 0
                    | [] => 0 end)
   ≤ countRole assistant msgs)%nat
  ∧ (length (adjacentPairs msgs) ≤ countRole user msgs)%nat.
Proof.
  induction msgs as [|u rest IH]; [simpl; unfold countRole; simpl; lia|].
  rewrite !countRole_cons. destruct rest as [|a rest'].
  - simpl. unfold countRole. simpl. repeat case_bool_decide; lia.
  - destruct IH as [IHa IHu]. rewrite adjacentPairs_cons2.
    destruct (role u) eqn:Hu, (role a) eqn:Ha;
      rewrite ?length_cons; repeat case_bool_decide; try congruence; lia.
Qed.

Lemma adjacentPairs_trailing_user (msgs : list Msg) (u : Msg) :
  role u = user → adjacentPairs (msgs ++ [u]) = adjacentPairs msgs.
Proof.
  intros Hu. induction msgs as [|m rest IH]; [done|].
  destruct rest as [|a rest'].
  - simpl. rewrite Hu. by destruct (role m).
  - change ((m :: a :: rest') ++ [u]) with (m :: a :: (rest' ++ [u])).
    rewrite !adjacentPairs_cons2.
    change (a :: (rest' ++ [u])) with ((a :: rest') ++ [u]).
    by rewrite IH.
Qed.

Lemma numberFrom_length (i : Z) (ps : list Pair) :
  length (numberFrom i ps) = length ps.
Proof. revert i. induction ps as [|p ps IH]; intros i; simpl; [done|]. by rewrite IH. Qed.

Lemma pageinfo_loop_spec (msgs : list PageInfo.Msg) (out : list PageInfo.LinearNode)
    (pending : option PageInfo.Msg) (i : Z) :
  pendingIsUser (forgetIdx <$> pending) →
  fst (fst (fold_left PageInfo.pairStep msgs (out, pending, i)))
  = out ++ numberFrom i (pendingPairs (forgetIdx <$> pending) (map forgetIdx msgs)).
Proof.
  revert out pending i. induction msgs as [|m rest IH]; intros out pending i Hp.
  - simpl. destruct pending as [u|]; simpl; by rewrite app_nil_r.
  - simpl fold_left. unfold PageInfo.pairStep at 1.
    destruct (PageInfo.role m) eqn:Hm.
    + rewrite IH by exact Hm. f_equal. f_equal.
      destruct pending as [u|]; simpl in *; rewrite ?Hp, Hm; reflexivity.
    + destruct pending as [u|]; simpl in Hp.
      * rewrite IH by exact I. rewrite <- app_assoc. f_equal.
        simpl. by rewrite Hp, Hm.
      * rewrite IH by exact I. f_equal. simpl. by rewrite Hm.
Qed.

Lemma pairToLinearNodes_spec (msgs : list PageInfo.Msg) :
  PageInfo.pairToLinearNodes msgs = numberFrom 0 (pairMessages (map forgetIdx msgs)).
Proof.
  unfold PageInfo.pairToLinearNodes. rewrite pageinfo_loop_spec by exact I.
  rewrite app_nil_l, pairMessages_adjacent. f_equal.
  unfold pendingPairs, fmap, option_fmap, option_map.
  by apply adjacentPairs_assistant_head.
Qed.

(** C9. Pairing drops incomplete exchanges. [pairMessages] emits exactly one
    pair for every assistant message that directly follows a user message
    (the pending one), and nothing else: an assistant message with no pending
    user message and a trailing user message add no pair, and the number of
    pairs is at most the number of assistant messages and at most the number
    of user messages. [pairToLinearNodes] of [pageinfo.ts] emits the same
    pairs, numbered from 0. *)
Theorem pairing_drops_incomplete (msgs : list Msg) (pmsgs : list PageInfo.Msg) :
  pairMessages msgs = adjacentPairs msgs
  ∧ (length (pairMessages msgs) ≤ countRole assistant msgs)%nat
  ∧ (length (pairMessages msgs) ≤ countRole user msgs)%nat
  ∧ (∀ a, role a = assistant → pairMessages (a :: msgs) = pairMessages msgs)
  ∧ (∀ u, role u = user → pairMessages (msgs ++ [u]) = pairMessages msgs)
  ∧ PageInfo.pairToLinearNodes pmsgs = numberFrom 0 (pairMessages (map forgetIdx pmsgs))
  ∧ (length (PageInfo.pairToLinearNodes pmsgs)
     ≤ countRole assistant (map forgetIdx pmsgs))%nat
  ∧ (length (PageInfo.pairToLinearNodes pmsgs)
     ≤ countRole user (map forgetIdx pmsgs))%nat.
Proof.
  pose proof (adjacentPairs_count msgs) as [Ha Hu].
  pose proof (adjacentPairs_count (map forgetIdx pmsgs)) as [Ha' Hu'].
  rewrite pairToLinearNodes_spec, numberFrom_length.
  rewrite !pairMessages_adjacent.
  split; [done|]. split; [lia|]. split; [lia|].
  split.
  { intros a Hr. rewrite !pairMessages_adjacent.
    by apply adjacentPairs_assistant_head. }
  split.
  { intros u Hr. rewrite !pairMessages_adjacent.
    by apply adjacentPairs_trailing_user. }
  split; [done|]. split; lia.
Qed.

(** ** Deleting with an invalid target *)



(** ** The guarded walks end *)

Lemma guard_grows (m : gmap jsstring TreeNode) (guard : gset jsstring) (c : jsstring) :
  guard ⊆ dom m → c ∉ guard → is_Some (m !! c) →
  {[c]} ∪ guard ⊆ dom m ∧ size ({[c]} ∪ guard) = S (size guard).
Proof.
  intros Hsub Hc Hin. split.
  - apply union_subseteq. split; [|done].
    apply singleton_subseteq_l. by apply elem_of_dom.
  - rewrite size_union by set_solver. by rewrite size_singleton.
Qed.

Lemma keepWalking_guard (guard : gset jsstring) (c : jsstring) :
  keepWalking guard c = true → c ∉ guard.
Proof.
  unfold keepWalking. intros H. apply andb_true_iff in H as [_ H].
  apply negb_true_iff in H. by apply bool_decide_eq_false in H.
Qed.

Lemma guard_bound (m : gmap jsstring TreeNode) (guard : gset jsstring) :
  guard ⊆ dom m → (size guard ≤ size m)%nat.
Proof. intros H. rewrite <- size_dom. by apply subseteq_size. Qed.

(** The walk of [isHiddenByCollapsed] returns within its bound, on every
    state. *)
Lemma hiddenLoop_returns (st : TreeState) (fuel : nat) (guard : gset jsstring)
    (curId : jsstring) :
  guard ⊆ dom (nodes st) → (size (nodes st) < fuel + size guard)%nat →
  is_Some (hiddenLoop fuel st guard curId).
Proof.
  revert guard curId. induction fuel as [|f IH]; intros guard curId Hsub Hf.
  - pose proof (guard_bound _ _ Hsub). lia.
  - cbn [hiddenLoop]. destruct (keepWalking guard curId) eqn:Hw; [|eauto].
    destruct (nodes st !! curId) as [cur|] eqn:Hcur; [|eauto].
    destruct (truthy (parentId cur) && isCollapsed st (parentId cur)); [eauto|].
    destruct (guard_grows (nodes st) guard curId Hsub) as [Hsub' Hsize];
      [by apply keepWalking_guard | eauto |].
    apply IH; [done | lia].
Qed.

Lemma isHiddenByCollapsed_returns (st : TreeState) (nodeId : jsstring) :
  hiddenLoop (S (size (nodes st))) st ∅ nodeId = Some (isHiddenByCollapsed st nodeId).
Proof.
  unfold isHiddenByCollapsed.
  destruct (hiddenLoop_returns st (S (size (nodes st))) ∅ nodeId) as [b ->].
  - apply empty_subseteq.
  - rewrite size_empty. lia.
  - reflexivity.
Qed.

(** So does the walk of [pathToRoot]. *)
Lemma pathLoop_returns (st : TreeState) (fuel : nat) (guard : gset jsstring)
    (curId : jsstring) (out : list TreeNode) :
  guard ⊆ dom (nodes st) → (size (nodes st) < fuel + size guard)%nat →
  is_Some (pathLoop fuel st guard curId out).
Proof.
  revert guard curId out. induction fuel as [|f IH]; intros guard curId out Hsub Hf.
  - pose proof (guard_bound _ _ Hsub). lia.
  - cbn [pathLoop]. destruct (keepWalking guard curId) eqn:Hw; [|eauto].
    destruct (nodes st !! curId) as [cur|] eqn:Hcur; [|eauto].
    destruct (guard_grows (nodes st) guard curId Hsub) as [Hsub' Hsize];
      [by apply keepWalking_guard | eauto |].
    apply IH; [done | lia].
Qed.

Lemma pathToRoot_returns (st : TreeState) :
  pathLoop (S (size (nodes st))) st ∅ (activeId st) [] = Some (rev (pathToRoot st)).
Proof.
  unfold pathToRoot.
  destruct (pathLoop_returns st (S (size (nodes st))) ∅ (activeId st) []) as [l ->].
  - apply empty_subseteq.
  - rewrite size_empty. lia.
  - cbn [default]. by rewrite rev_involutive.
Qed.

(** And the upward walk of [collapseAllOtherNodes], which takes one more
    step when it leaves the table. *)
Lemma upLoop_returns (m : gmap jsstring TreeNode) (fuel : nat) (guard : gset jsstring)
    (cur : option jsstring) (up : list jsstring) :
  match cur with
  | Some _ => guard ⊆ dom m ∧ (S (size m) < fuel + size guard)%nat
  | None => (0 < fuel)%nat
  end →
  is_Some (upLoop fuel m guard cur up).
Proof.
  revert guard cur up. induction fuel as [|f IH]; intros guard cur up Hf.
  - destruct cur as [c|]; [|lia]. destruct Hf as [Hsub Hf].
    pose proof (guard_bound _ _ Hsub). lia.
  - cbn [upLoop]. destruct cur as [c|]; [|eauto]. destruct Hf as [Hsub Hf].
    destruct (keepWalking guard c) eqn:Hw; [|eauto].
    apply IH. destruct (m !! c) as [n|] eqn:Hc; cbn [fmap option_fmap option_map].
    + destruct (guard_grows m guard c Hsub) as [Hsub' Hsize];
        [by apply keepWalking_guard | eauto |].
      split; [done | lia].
    + pose proof (guard_bound _ _ Hsub). lia.
Qed.

Lemma upLoop_top_returns (st : TreeState) :
  is_Some (upLoop (S (S (size (nodes st)))) (nodes st) ∅ (Some (activeId st)) []).
Proof.
  apply upLoop_returns. split; [apply empty_subseteq|]. rewrite size_empty. lia.
Qed.

(** ** Collapse toggle *)

Lemma hiddenLoop_ext (st st' : TreeState) (fuel : nat) (guard : gset jsstring)
    (curId : jsstring) :
  nodes st' = nodes st →
  (∀ p, isCollapsed st' p = isCollapsed st p) →
  hiddenLoop fuel st' guard curId = hiddenLoop fuel st guard curId.
Proof.
  intros Hn Hc. revert guard curId.
  induction fuel as [|f IH]; intros guard curId; simpl; [done|].
  rewrite Hn. destruct (keepWalking guard curId); [|done].
  destruct (nodes st !! curId) as [cur|]; [|done].
  rewrite Hc. destruct (truthy (parentId cur) && isCollapsed st (parentId cur)); [done|].
  apply IH.
Qed.

Lemma isHiddenByCollapsed_ext (st st' : TreeState) (nodeId : jsstring) :
  nodes st' = nodes st →
  (∀ p, isCollapsed st' p = isCollapsed st p) →
  isHiddenByCollapsed st' nodeId = isHiddenByCollapsed st nodeId.
Proof.
  intros Hn Hc. unfold isHiddenByCollapsed. rewrite Hn.
  by rewrite (hiddenLoop_ext st st') by done.
Qed.

Lemma isCollapsed_toggle (st : TreeState) (i p : jsstring) :
  isCollapsed (toggleCollapse st i) p
  = if bool_decide (p = i) then negb (isCollapsed st i) else isCollapsed st p.
Proof.
  unfold toggleCollapse, toggleCollapseNode, isCollapsed at 1. simpl.
  case_bool_decide as Hp.
  - subst p. rewrite lookup_insert_eq. by destruct (isCollapsed st i).
  - by rewrite lookup_insert_ne.
Qed.

(** C10. The collapse toggle is a visibility involution: toggling the same
    id twice gives a state in which [isHiddenByCollapsed] answers as in the
    original state for every node id (its guarded walk returning within its
    bound on every state), and a toggle changes neither the nodes table, nor
    activeId, nor seenLinearCount (nor the conversation key). *)
Theorem toggleCollapse_involution (st : TreeState) (i : jsstring) :
  (∀ nodeId,
     isHiddenByCollapsed (toggleCollapse (toggleCollapse st i) i) nodeId
     = isHiddenByCollapsed st nodeId)
  ∧ (∀ st' nodeId,
       hiddenLoop (S (size (nodes st'))) st' ∅ nodeId
       = Some (isHiddenByCollapsed st' nodeId))
  ∧ nodes (toggleCollapse st i) = nodes st
  ∧ activeId (toggleCollapse st i) = activeId st
  ∧ seenLinearCount (toggleCollapse st i) = seenLinearCount st
  ∧ convoKey (toggleCollapse st i) = convoKey st.
Proof.
  split; [|split; [apply isHiddenByCollapsed_returns | done]].
  intros nodeId. apply isHiddenByCollapsed_ext; [done|].
  intros p. rewrite (isCollapsed_toggle (toggleCollapse st i)).
  case_bool_decide as Hp; rewrite isCollapsed_toggle.
  - rewrite bool_decide_eq_true_2 by done. subst p. apply negb_involutive.
  - by rewrite bool_decide_eq_false_2.
Qed.

(** ** Tree integrity *)

Lemma tree_ok_root (st : TreeState) :
  tree_ok st = true → is_Some (nodes st !! ROOT_ID).
Proof.
  unfold tree_ok. intros H. apply andb_true_iff in H as [H _].
  destruct (nodes st !! ROOT_ID); [eauto | done].
Qed.

Lemma tree_ok_node (st : TreeState) (k : jsstring) (n : TreeNode) :
  tree_ok st = true → nodes st !! k = Some n →
  id n = k ∧ 0 ≤ depth n
  ∧ (∀ c, c ∈ children n →
       c ≠ ROOT_ID ∧ ∃ cn, nodes st !! c = Some cn ∧ parentId cn = k)
  ∧ (k ≠ ROOT_ID →
       ∃ p, nodes st !! parentId n = Some p ∧ k ∈ children p
            ∧ depth n = depth p + 1).
Proof.
  unfold tree_ok. intros H Hk. apply andb_true_iff in H as [_ H].
  rewrite forallb_forall in H. specialize (H (k, n)).
  rewrite <- list_elem_of_In, elem_of_map_to_list in H. specialize (H Hk).
  unfold nodeOk in H. simpl in H.
  apply andb_true_iff in H as [H H4]. apply andb_true_iff in H as [H H3].
  apply andb_true_iff in H as [H H2]. apply andb_true_iff in H as [_ H1].
  apply bool_decide_eq_true in H1. apply Z.leb_le in H2.
  split; [done|]. split; [done|]. split.
  - intros c Hc. rewrite forallb_forall in H3. specialize (H3 c).
    rewrite <- list_elem_of_In in H3. specialize (H3 Hc). unfold childOk in H3.
    apply andb_true_iff in H3 as [Ha Hb]. apply negb_true_iff in Ha.
    apply bool_decide_eq_false in Ha. split; [done|].
    destruct (nodes st !! c) as [cn|]; [|done].
    apply bool_decide_eq_true in Hb. eauto.
  - intros Hne. apply orb_true_iff in H4 as [H4|H4].
    + apply bool_decide_eq_true in H4. done.
    + destruct (nodes st !! parentId n) as [p|]; [|done].
      apply andb_true_iff in H4 as [Ha Hb]. apply bool_decide_eq_true in Ha.
      apply Z.eqb_eq in Hb. eauto.
Qed.

Lemma tree_ok_truthy (st : TreeState) (k : jsstring) (n : TreeNode) :
  tree_ok st = true → nodes st !! k = Some n → truthy k = true.
Proof.
  unfold tree_ok. intros H Hk. apply andb_true_iff in H as [_ H].
  rewrite forallb_forall in H. specialize (H (k, n)).
  rewrite <- list_elem_of_In, elem_of_map_to_list in H. specialize (H Hk).
  unfold nodeOk in H. simpl in H.
  apply andb_true_iff in H as [H _]. apply andb_true_iff in H as [H _].
  apply andb_true_iff in H as [H _]. by apply andb_true_iff in H as [H _].
Qed.

Lemma tree_ok_child (st : TreeState) (k c : jsstring) (n : TreeNode) :
  tree_ok st = true → nodes st !! k = Some n → c ∈ children n →
  c ≠ ROOT_ID ∧ ∃ cn, nodes st !! c = Some cn ∧ parentId cn = k
                      ∧ depth cn = depth n + 1.
Proof.
  intros Hok Hk Hc.
  destruct (tree_ok_node st k n Hok Hk) as (_ & _ & Hch & _).
  destruct (Hch c Hc) as (Hne & cn & Hcn & Hp). split; [done|].
  exists cn. split; [done|]. split; [done|].
  destruct (tree_ok_node st c cn Hok Hcn) as (_ & _ & _ & Hpar).
  destruct (Hpar Hne) as (p & Hp' & _ & Hd). rewrite Hp, Hk in Hp'.
  by injection Hp' as <-.
Qed.

Lemma maxDepth_bound (st : TreeState) (k : jsstring) (n : TreeNode) :
  nodes st !! k = Some n → depth n ≤ maxDepth st.
Proof.
  intros Hk. apply elem_of_map_to_list in Hk. unfold maxDepth.
  induction (map_to_list (nodes st)) as [|kn l IH]; [by apply elem_of_nil in Hk|].
  apply elem_of_cons in Hk as [<- | Hk]; simpl; [lia|].
  specialize (IH Hk). lia.
Qed.

Lemma foldM_is_Some {A B : Type} (f : A → B → option A) (l : list B) (a : A) :
  (∀ a' b, b ∈ l → is_Some (f a' b)) → is_Some (foldM f a l).
Proof.
  revert a. induction l as [|b l IH]; intros a H; simpl; [eauto|].
  destruct (H a b) as [a' Ha']; [left|]. rewrite Ha'. simpl.
  apply IH. intros a'' b' Hb'. apply H. by right.
Qed.

(** Enough call depth lets the recursive collection return on a sound tree. *)
Lemma collectDfs_total (st : TreeState) (fuel : nat) (i : jsstring) (res : list jsstring) :
  tree_ok st = true →
  (match nodes st !! i with
   | Some n => maxDepth st - depth n < Z.of_nat fuel
   | None => 0 < Z.of_nat fuel
   end) →
  is_Some (collectDfs fuel st i res).
Proof.
  intros Hok. revert i res. induction fuel as [|f IH]; intros i res Hf.
  - destruct (nodes st !! i) as [n|] eqn:Hn; [|lia].
    pose proof (maxDepth_bound st i n Hn). lia.
  - simpl. destruct (nodes st !! i) as [n|] eqn:Hn; [|eauto].
    apply foldM_is_Some. intros acc c Hc. apply IH.
    destruct (tree_ok_child st i c n Hok Hn Hc) as (_ & cn & Hcn & _ & Hd).
    rewrite Hcn. lia.
Qed.

Lemma collectSubtreeIds_total (st : TreeState) (fuel : nat) (i : jsstring) :
  tree_ok st = true → (enoughFuel st ≤ fuel)%nat →
  is_Some (collectSubtreeIds fuel st i).
Proof.
  intros Hok Hf. apply collectDfs_total; [done|]. unfold enoughFuel in Hf.
  destruct (nodes st !! i) as [n|] eqn:Hn; [|lia].
  destruct (tree_ok_node st i n Hok Hn) as (_ & Hd & _).
  pose proof (maxDepth_bound st i n Hn). lia.
Qed.

Lemma deleteSubtree_total (st : TreeState) (fuel : nat) (targetId : jsstring) :
  tree_ok st = true → (enoughFuel st ≤ fuel)%nat →
  is_Some (nodes st !! targetId) →
  is_Some (deleteSubtree fuel st targetId).
Proof.
  intros Hok Hf [target Ht]. unfold deleteSubtree. rewrite Ht.
  destruct (bool_decide (targetId = ROOT_ID)); [eauto|].
  destruct (collectSubtreeIds_total st fuel targetId Hok Hf) as [ids ->].
  simpl. eauto.
Qed.

(** ** Deleting a subtree *)

Lemma foldM_inv {A B : Type} (P : A → Prop) (f : A → B → option A) (l : list B)
    (a r : A) :
  P a →
  (∀ a0 b a1, b ∈ l → P a0 → f a0 b = Some a1 → P a1) →
  foldM f a l = Some r → P r.
Proof.
  revert a. induction l as [|b l IH]; intros a Ha Hstep; simpl.
  - by intros [= <-].
  - destruct (f a b) as [a1|] eqn:Hf; [|done]. simpl. apply IH.
    + eapply Hstep; [left | exact Ha | exact Hf].
    + intros a0 b0 a2 Hb0. apply Hstep. by right.
Qed.

(** The collection adds only nodes of the table that lie at the depth of its
    start or deeper, and never the root. *)
Lemma collectDfs_below (st : TreeState) (d : Z) (fuel : nat) (i : jsstring)
    (res res' : list jsstring) :
  tree_ok st = true →
  i ≠ ROOT_ID →
  (∀ n, nodes st !! i = Some n → d ≤ depth n) →
  collectDfs fuel st i res = Some res' →
  ∀ x, x ∈ res' →
    x ∈ res ∨ (x ≠ ROOT_ID ∧ ∃ xn, nodes st !! x = Some xn ∧ d ≤ depth xn).
Proof.
  intros Hok. revert i res res'. induction fuel as [|f IH]; intros i res res' Hi Hd; [done|].
  simpl. destruct (nodes st !! i) as [n|] eqn:Hn.
  - intros Hfold.
    refine (foldM_inv
      (fun acc => ∀ x, x ∈ acc →
         x ∈ res ∨ (x ≠ ROOT_ID ∧ ∃ xn, nodes st !! x = Some xn ∧ d ≤ depth xn))
      _ _ _ _ _ _ Hfold).
    + intros x Hx. apply elem_of_app in Hx as [Hx|Hx]; [by left|].
      apply list_elem_of_singleton in Hx as ->. right. split; [done|].
      exists n. split; [done|]. by apply Hd.
    + intros acc c acc' Hc Hacc Hrec x Hx.
      destruct (tree_ok_child st i c n Hok Hn Hc) as (Hcr & cn & Hcn & _ & Hcd).
      destruct (IH c acc acc' Hcr) with (x := x) as [Hx'|Hx']; try done.
      * intros n' Hn'. rewrite Hcn in Hn'. injection Hn' as <-.
        specialize (Hd n eq_refl). lia.
      * by apply Hacc.
      * by right.
  - intros [= <-] x Hx. by left.
Qed.

Lemma lookup_foldl_delete {V : Type} (m : gmap jsstring V) (ids : list jsstring)
    (k : jsstring) :
  foldl (fun m i => delete i m) m ids !! k
  = if bool_decide (k ∈ ids) then None else m !! k.
Proof.
  revert m. induction ids as [|i ids IH]; intros m.
  - rewrite bool_decide_eq_false_2; [done|]. apply not_elem_of_nil.
  - cbn [foldl]. rewrite IH. case_bool_decide as H1; case_bool_decide as H2; try done.
    + apply not_elem_of_cons in H2 as [_ H2]. done.
    + apply elem_of_cons in H2 as [-> | H2]; [|done]. apply lookup_delete_eq.
    + apply not_elem_of_cons in H2 as [H2 _]. by apply lookup_delete_ne.
Qed.

(** What [deleteSubtree] computes for a valid target, field by field. *)
Lemma deleteSubtree_valid (fuel : nat) (st st' : TreeState) (targetId : jsstring)
    (target : TreeNode) :
  nodes st !! targetId = Some target → targetId ≠ ROOT_ID →
  deleteSubtree fuel st targetId = Some st' →
  ∃ ids nextNodes0,
    collectSubtreeIds fuel st targetId = Some ids
    ∧ nextNodes0 = foldl (fun m i => delete i m) (nodes st) ids
    ∧ nodes st'
      = match nodes st !! parentId target, nextNodes0 !! parentId target with
        | Some p, Some _ =>
            <[ parentId target :=
                 withChildren p (filter (fun c => c ≠ targetId) (children p)) ]>
              nextNodes0
        | _, _ => nextNodes0
        end
    ∧ activeId st'
      = match nodes st' !! parentId target with
        | Some _ => parentId target
        | None => ROOT_ID
        end
    ∧ collapsedIds st'
      = filter (fun kv => kv.1 ∉ (list_to_set ids : gset jsstring)) (collapsedIds st)
    ∧ seenLinearCount st' = seenLinearCount st
    ∧ convoKey st' = convoKey st.
Proof.
  intros Ht Hne. unfold deleteSubtree. rewrite Ht.
  rewrite bool_decide_eq_false_2 by done.
  destruct (collectSubtreeIds fuel st targetId) as [ids|]; [|done]. simpl.
  intros [= <-]. exists ids, (foldl (fun m i => delete i m) (nodes st) ids).
  simpl. done.
Qed.

(** On a sound tree the parent of the target survives the deletion. *)
Lemma deleteSubtree_parent_survives (fuel : nat) (st : TreeState) (targetId : jsstring)
    (target : TreeNode) (ids : list jsstring) :
  tree_ok st = true →
  nodes st !! targetId = Some target → targetId ≠ ROOT_ID →
  collectSubtreeIds fuel st targetId = Some ids →
  (parentId target ∉ ids) ∧ (ROOT_ID ∉ ids) ∧ is_Some (nodes st !! parentId target).
Proof.
  intros Hok Ht Hne Hids.
  destruct (tree_ok_node st targetId target Hok Ht) as (_ & _ & _ & Hpar).
  destruct (Hpar Hne) as (p & Hp & _ & Hd).
  pose proof (collectDfs_below st (depth target) fuel targetId [] ids Hok Hne) as Hb.
  assert (∀ n, nodes st !! targetId = Some n → depth target ≤ depth n) as Hle.
  { intros n Hn. rewrite Ht in Hn. injection Hn as <-. lia. }
  specialize (Hb Hle Hids).
  split; [ | split; [ | eauto ] ].
  - intros Hin. destruct (Hb _ Hin) as [Hnil | (_ & xn & Hxn & Hdx)].
    + by apply elem_of_nil in Hnil.
    + rewrite Hp in Hxn. injection Hxn as <-. lia.
  - intros Hin. destruct (Hb _ Hin) as [Hnil | (Hr & _)]; [|done].
    by apply elem_of_nil in Hnil.
Qed.

(** C5 (amended). For a valid target that is not the root, [deleteSubtree]
    sets activeId to the parent of the deleted node when that parent is still
    in the table, and to the root otherwise, wherever the previous activeId
    lay: inside the deleted subtree or outside it. On a sound tree the walk
    returns as soon as the call depth allowed is [enoughFuel st], and the new
    activeId is the parent of the deleted node. *)
Theorem deleteSubtree_repoints_active (fuel : nat) (st : TreeState)
    (targetId : jsstring) (target : TreeNode) :
  nodes st !! targetId = Some target → targetId ≠ ROOT_ID →
  (∀ st', deleteSubtree fuel st targetId = Some st' →
     activeId st' = match nodes st' !! parentId target with
                    | Some _ => parentId target
                    | None => ROOT_ID
                    end)
  ∧ (tree_ok st = true → (enoughFuel st ≤ fuel)%nat →
     ∃ st', deleteSubtree fuel st targetId = Some st'
            ∧ activeId st' = parentId target).
Proof.
  intros Ht Hne. split.
  - intros st' Hdel.
    destruct (deleteSubtree_valid fuel st st' targetId target Ht Hne Hdel)
      as (ids & m0 & _ & _ & _ & Ha & _). exact Ha.
  - intros Hok Hf.
    destruct (deleteSubtree_total st fuel targetId Hok Hf) as [st' Hdel]; [eauto|].
    exists st'. split; [done|].
    destruct (deleteSubtree_valid fuel st st' targetId target Ht Hne Hdel)
      as (ids & m0 & Hids & Hm0 & Hn & Ha & _).
    destruct (deleteSubtree_parent_survives fuel st targetId target ids Hok Ht Hne Hids)
      as (Hnotin & _ & [p Hp]).
    rewrite Ha, Hn, Hp.
    assert (m0 !! parentId target = Some p) as ->.
    { rewrite Hm0, lookup_foldl_delete. by rewrite bool_decide_eq_false_2. }
    by rewrite lookup_insert_eq.
Qed.

Lemma deleteSubtree_repoints_active_witness :
  nodes twoBranches !! js "n_0_a1" = Some (turnNode (js "n_0_a1") ROOT_ID [] 1 0)
  ∧ js "n_0_a1" ≠ ROOT_ID
  ∧ tree_ok twoBranches = true
  ∧ (enoughFuel twoBranches ≤ 3)%nat
  ∧ ∃ st', deleteSubtree 3 twoBranches (js "n_0_a1") = Some st'
           ∧ activeId st' = ROOT_ID.
Proof.
  assert (nodes twoBranches !! js "n_0_a1"
          = Some (turnNode (js "n_0_a1") ROOT_ID [] 1 0)) as H1 by (vm_compute; reflexivity).
  assert (js "n_0_a1" ≠ ROOT_ID) as H2 by (vm_compute; discriminate).
  assert (tree_ok twoBranches = true) as H3 by (vm_compute; reflexivity).
  assert (enoughFuel twoBranches ≤ 3)%nat as H4 by (vm_compute; lia).
  split; [exact H1|]. split; [exact H2|]. split; [exact H3|]. split; [exact H4|].
  exact (proj2 (deleteSubtree_repoints_active 3 twoBranches (js "n_0_a1")
                  (turnNode (js "n_0_a1") ROOT_ID [] 1 0) H1 H2) H3 H4).
Defined.

(** C5 as stated fails: in [twoBranches] the cursor is on [n_0_a1], outside
    the subtree of [n_1_b2] (which is that node alone); deleting [n_1_b2]
    still moves the cursor, to the root. *)
Lemma deleteSubtree_active_outside_counterexample :
  collectSubtreeIds 3 twoBranches (js "n_1_b2") = Some [js "n_1_b2"]
  ∧ activeId twoBranches = js "n_0_a1"
  ∧ (js "n_0_a1" ∉ [js "n_1_b2"])
  ∧ (activeId <$> deleteSubtree 3 twoBranches (js "n_1_b2")) = Some ROOT_ID
  ∧ ROOT_ID ≠ activeId twoBranches.
Proof.
  split; [vm_compute; reflexivity|]. split; [reflexivity|].
  split; [rewrite list_elem_of_singleton; vm_compute; discriminate|].
  split; [vm_compute; reflexivity|]. vm_compute; discriminate.
Qed.

(** ** Identifiers *)

Lemma string_of_uint_chars (d : Decimal.uint) :
  forallb isDecChar (list_ascii_of_string (NilEmpty.string_of_uint d)) = true.
Proof. induction d; simpl; try done. Qed.

Lemma string_of_int_chars (d : Decimal.int) :
  forallb isDecChar (list_ascii_of_string (NilEmpty.string_of_int d)) = true.
Proof. destruct d; simpl; apply string_of_uint_chars. Qed.

Lemma dec_no_underscore (z : Z) : 95%N ∉ dec z.
Proof.
  unfold dec, js. intros H. apply list_elem_of_fmap in H as (c & Hc & Hin).
  pose proof (string_of_int_chars (Z.to_int z)) as Hall.
  rewrite forallb_forall in Hall. apply list_elem_of_In in Hin.
  specialize (Hall c Hin). unfold isDecChar in Hall. rewrite <- Hc in Hall.
  done.
Qed.

Lemma js_inj (s1 s2 : string) : js s1 = js s2 → s1 = s2.
Proof.
  unfold js. intros H.
  rewrite <- (string_of_list_ascii_of_string s1), <- (string_of_list_ascii_of_string s2).
  f_equal. revert H. generalize (list_ascii_of_string s1) (list_ascii_of_string s2).
  intros l1. induction l1 as [|a l1 IH]; intros [|b l2]; simpl; try done.
  intros [= Hab Hl]. f_equal; [|by apply IH].
  rewrite <- (ascii_N_embedding a), <- (ascii_N_embedding b). by rewrite Hab.
Qed.

Lemma string_of_int_inj (d1 d2 : Decimal.int) :
  NilEmpty.string_of_int d1 = NilEmpty.string_of_int d2 → d1 = d2.
Proof.
  intros H. pose proof (NilEmpty.isi d1) as H1. rewrite H, NilEmpty.isi in H1.
  by injection H1.
Qed.

Lemma dec_inj (z1 z2 : Z) : dec z1 = dec z2 → z1 = z2.
Proof.
  unfold dec. intros H. apply js_inj, string_of_int_inj in H.
  by apply DecimalZ.to_int_inj.
Qed.

Lemma split_at_first (c : N) (l1 l2 r1 r2 : jsstring) :
  c ∉ l1 → c ∉ l2 → l1 ++ c :: r1 = l2 ++ c :: r2 → l1 = l2.
Proof.
  revert l2. induction l1 as [|a l1 IH]; intros [|b l2] H1 H2; simpl; try done.
  - intros [= <- _]. exfalso. apply H2. left.
  - intros [= -> _]. exfalso. apply H1. left.
  - intros [= -> Hl]. f_equal. apply IH; [| |done].
    + intros Hin. apply H1. by right.
    + intros Hin. apply H2. by right.
Qed.

(** Two ids built by [appendUnderActive] for different indices differ,
    whatever the random suffixes. *)
Lemma freshId_inj (i1 i2 : Z) (r1 r2 : jsstring) :
  freshId i1 r1 = freshId i2 r2 → i1 = i2.
Proof.
  unfold freshId. intros H. apply app_inv_head in H.
  apply dec_inj. apply (split_at_first 95%N _ _ r1 r2); try apply dec_no_underscore.
  exact H.
Qed.

Lemma alignId_inj (i j : nat) : alignId i = alignId j → i = j.
Proof.
  unfold alignId. intros H. apply app_inv_head, dec_inj in H. lia.
Qed.

Lemma alignId_not_root (i : nat) : alignId i ≠ ROOT_ID.
Proof. unfold alignId. vm_compute. discriminate. Qed.

(** ** Reconciliation *)

Lemma activeOrRoot_parentKey (st : TreeState) (p : TreeNode) :
  activeOrRoot st = Some p → nodes st !! parentKey st = Some p.
Proof.
  unfold activeOrRoot, parentKey. destruct (nodes st !! activeId st) eqn:H.
  - by intros [= <-].
  - by destruct (inherited (activeId st)).
Qed.


Lemma pairAt_Some (pairs : list Pair) (i : Z) :
  0 ≤ i → i < Z.of_nat (length pairs) → is_Some (pairAt pairs i).
Proof.
  intros H0 Hlt. unfold pairAt. rewrite (proj2 (Z.leb_le 0 i) H0).
  apply lookup_lt_is_Some. lia.
Qed.







(** ** No resurrection *)

Lemma withChildren_self (n : TreeNode) : withChildren n (children n) = n.
Proof. by destruct n. Qed.

Lemma appendUnderActive_nodes (st st' : TreeState) (pair : option Pair) (i : Z)
    (rnd : jsstring) :
  appendUnderActive st pair i rnd = Some st' →
  seenLinearCount st' = i + 1
  ∧ is_Some (nodes st' !! activeId st')
  ∧ ∀ k n, nodes st' !! k = Some n →
      linearIndex n = i
      ∨ ∃ k0 n0 cs, nodes st !! k0 = Some n0 ∧ n = withChildren n0 cs.
Proof.
  unfold appendUnderActive.
  destruct (activeOrRoot st) as [p|] eqn:Hact; [|done].
  pose proof (activeOrRoot_parentKey st p Hact) as Hp.
  destruct pair as [pr|]; [|done]. simpl. intros [= <-]. simpl.
  split; [done|]. split.
  { destruct (decide (id p = freshId i rnd)) as [->|Hne].
    - rewrite lookup_insert_eq. eauto.
    - rewrite lookup_insert_ne by done. rewrite lookup_insert_eq. eauto. }
  intros k n Hk.
  destruct (decide (k = id p)) as [->|Hk1].
  { rewrite lookup_insert_eq in Hk. injection Hk as <-. right. eauto. }
  rewrite lookup_insert_ne in Hk by done.
  destruct (decide (k = freshId i rnd)) as [->|Hk2].
  { rewrite lookup_insert_eq in Hk. injection Hk as <-. by left. }
  rewrite lookup_insert_ne in Hk by done.
  right. exists k, n, (children n). by rewrite withChildren_self.
Qed.

Lemma appendLoop_nodes (pairs : list Pair) (rnd : nat → jsstring) (n : nat) :
  ∀ (k : nat) (i : Z) (st st' : TreeState),
    appendLoop n pairs rnd k i st = Some st' →
    ((0 < n)%nat → seenLinearCount st' = i + Z.of_nat n)
    ∧ ∀ x nx, nodes st' !! x = Some nx →
        i ≤ linearIndex nx
        ∨ ∃ k0 n0 cs, nodes st !! k0 = Some n0 ∧ nx = withChildren n0 cs.
Proof.
  induction n as [|n IH]; intros k i st st'; simpl.
  - intros [= <-]. split; [lia|]. intros x nx Hx. right.
    exists x, nx, (children nx). by rewrite withChildren_self.
  - destruct (appendUnderActive st (pairAt pairs i) i (rnd k)) as [mid|] eqn:Hmid;
      [|done]. simpl. intros Hloop.
    destruct (appendUnderActive_nodes _ _ _ _ _ Hmid) as (Hs & _ & Hmidn).
    destruct (IH _ _ _ _ Hloop) as (Hseen & Hn). split.
    + intros _. destruct n as [|n'].
      * simpl in Hloop. injection Hloop as <-. lia.
      * rewrite Hseen by lia. lia.
    + intros x nx Hx. destruct (Hn x nx Hx) as [Hle | (k0 & n0 & cs & Hk0 & ->)].
      * left. lia.
      * destruct (Hmidn k0 n0 Hk0) as [Hli | (k1 & n1 & cs1 & Hk1 & ->)].
        -- left. simpl. lia.
        -- right. exists k1, n1, cs. split; [done|]. by destruct n1.
Qed.

Lemma appendLoop_total (pairs : list Pair) (rnd : nat → jsstring) (n : nat) :
  ∀ (k : nat) (i : Z) (st : TreeState),
    0 ≤ i → i + Z.of_nat n ≤ Z.of_nat (length pairs) →
    is_Some (activeOrRoot st) →
    is_Some (appendLoop n pairs rnd k i st).
Proof.
  induction n as [|n IH]; intros k i st H0 Hlen [p Hp]; simpl; [eauto|].
  destruct (pairAt_Some pairs i) as [pr Hpr]; [lia..|].
  destruct (appendUnderActive st (pairAt pairs i) i (rnd k)) as [mid|] eqn:Hmid.
  - simpl. apply IH; [lia..|].
    destruct (appendUnderActive_nodes _ _ _ _ _ Hmid) as (_ & [a Ha] & _).
    unfold activeOrRoot. rewrite Ha. eauto.
  - unfold appendUnderActive in Hmid. rewrite Hp, Hpr in Hmid. done.
Qed.

(** The pass returns whenever the count is not negative and the cursor or the
    root resolves. *)
Lemma reconcile_total (st : TreeState) (pairs : list Pair) (rnd : nat → jsstring) :
  0 ≤ seenLinearCount st → is_Some (activeOrRoot st) →
  is_Some (reconcile st pairs rnd).
Proof.
  intros H0 Hact. unfold reconcile.
  destruct (Z.of_nat (length pairs) <=? seenLinearCount st) eqn:E; [eauto|].
  apply Z.leb_gt in E. apply appendLoop_total; [lia..|done].
Qed.

(** A pass only adds nodes for indices from seenLinearCount on. *)
Lemma reconcile_nodes (st st' : TreeState) (pairs : list Pair) (rnd : nat → jsstring) :
  reconcile st pairs rnd = Some st' →
  seenLinearCount st ≤ seenLinearCount st'
  ∧ ∀ x nx, nodes st' !! x = Some nx →
      seenLinearCount st ≤ linearIndex nx
      ∨ ∃ k0 n0 cs, nodes st !! k0 = Some n0 ∧ nx = withChildren n0 cs.
Proof.
  unfold reconcile.
  destruct (Z.of_nat (length pairs) <=? seenLinearCount st) eqn:E.
  - intros [= <-]. split; [lia|]. intros x nx Hx. right.
    exists x, nx, (children nx). by rewrite withChildren_self.
  - apply Z.leb_gt in E. intros Hloop.
    destruct (appendLoop_nodes _ _ _ _ _ _ _ Hloop) as (Hseen & Hn).
    split; [rewrite Hseen; lia | done].
Qed.

(** The nodes that a deletion leaves are nodes of the state before it, under
    the same key and outside the collected subtree, up to the list of
    children. *)
Lemma deleteSubtree_survivors (fuel : nat) (st st' : TreeState) (targetId : jsstring)
    (target : TreeNode) (ids : list jsstring) :
  nodes st !! targetId = Some target → targetId ≠ ROOT_ID →
  collectSubtreeIds fuel st targetId = Some ids →
  deleteSubtree fuel st targetId = Some st' →
  ∀ k n, nodes st' !! k = Some n →
    (k ∉ ids) ∧ ∃ n0 cs, nodes st !! k = Some n0 ∧ n = withChildren n0 cs.
Proof.
  intros Ht Hne Hids Hdel k n Hk.
  destruct (deleteSubtree_valid fuel st st' targetId target Ht Hne Hdel)
    as (ids' & m0 & Hids' & Hm0 & Hn & _).
  rewrite Hids in Hids'. injection Hids' as <-.
  assert (∀ k n, m0 !! k = Some n → (k ∉ ids) ∧ nodes st !! k = Some n) as Hm0l.
  { intros k' n' Hk'. rewrite Hm0, lookup_foldl_delete in Hk'.
    case_bool_decide; [done|]. done. }
  rewrite Hn in Hk.
  destruct (nodes st !! parentId target) as [p|] eqn:Hp;
    [destruct (m0 !! parentId target) as [p'|] eqn:Hp'|].
  - destruct (decide (k = parentId target)) as [->|Hkp].
    + rewrite lookup_insert_eq in Hk. injection Hk as <-.
      destruct (Hm0l _ _ Hp') as [Hnin Hst]. split; [done|].
      rewrite Hp in Hst. injection Hst as <-. eauto.
    + rewrite lookup_insert_ne in Hk by done.
      destruct (Hm0l _ _ Hk) as [Hnin Hst]. split; [done|].
      exists n, (children n). by rewrite withChildren_self.
  - destruct (Hm0l _ _ Hk) as [Hnin Hst]. split; [done|].
    exists n, (children n). by rewrite withChildren_self.
  - destruct (Hm0l _ _ Hk) as [Hnin Hst]. split; [done|].
    exists n, (children n). by rewrite withChildren_self.
Qed.

(** On a sound tree the root survives a deletion. *)
Lemma deleteSubtree_keeps_root (fuel : nat) (st st' : TreeState) (targetId : jsstring)
    (target : TreeNode) :
  tree_ok st = true →
  nodes st !! targetId = Some target → targetId ≠ ROOT_ID →
  deleteSubtree fuel st targetId = Some st' →
  is_Some (nodes st' !! ROOT_ID).
Proof.
  intros Hok Ht Hne Hdel.
  destruct (deleteSubtree_valid fuel st st' targetId target Ht Hne Hdel)
    as (ids & m0 & Hids & Hm0 & Hn & _).
  destruct (deleteSubtree_parent_survives fuel st targetId target ids Hok Ht Hne Hids)
    as (_ & Hroot & _).
  assert (is_Some (m0 !! ROOT_ID)) as Hr.
  { rewrite Hm0, lookup_foldl_delete. rewrite bool_decide_eq_false_2 by done.
    by apply tree_ok_root. }
  rewrite Hn. destruct (nodes st !! parentId target) as [p|]; [|done].
  destruct (m0 !! parentId target) as [p'|] eqn:Hp'; [|done].
  destruct (decide (parentId target = ROOT_ID)) as [->|Hpr].
  - rewrite lookup_insert_eq. eauto.
  - by rewrite lookup_insert_ne.
Qed.

(** C1. No resurrection. For a valid target that is not the root,
    [deleteSubtree] leaves seenLinearCount as it was; the nodes it leaves are
    nodes of the state before, outside the deleted subtree; and after a
    later pass of the reconciler, with any pairs, seenLinearCount has not
    decreased and every node of the table is either one that the deletion
    left (up to its list of children) or has a linearIndex of at least the
    seenLinearCount from before the deletion: no node is created for an
    index that was already folded into the tree. On a sound tree with a
    count that is not negative, the deletion returns as soon as the call
    depth allowed is [enoughFuel st], and every later pass returns. *)
Theorem no_resurrection (fuel : nat) (st : TreeState) (targetId : jsstring)
    (target : TreeNode) :
  nodes st !! targetId = Some target → targetId ≠ ROOT_ID →
  (∀ st1, deleteSubtree fuel st targetId = Some st1 →
     seenLinearCount st1 = seenLinearCount st
     ∧ (∃ ids, collectSubtreeIds fuel st targetId = Some ids
               ∧ ∀ k n, nodes st1 !! k = Some n →
                   (k ∉ ids) ∧ ∃ n0 cs, nodes st !! k = Some n0 ∧ n = withChildren n0 cs)
     ∧ ∀ pairs rnd st2, reconcile st1 pairs rnd = Some st2 →
         seenLinearCount st ≤ seenLinearCount st2
         ∧ ∀ x nx, nodes st2 !! x = Some nx →
             seenLinearCount st ≤ linearIndex nx
             ∨ ∃ k0 n0 cs, nodes st1 !! k0 = Some n0 ∧ nx = withChildren n0 cs)
  ∧ (tree_ok st = true → (enoughFuel st ≤ fuel)%nat → 0 ≤ seenLinearCount st →
     ∃ st1, deleteSubtree fuel st targetId = Some st1
            ∧ ∀ pairs rnd, is_Some (reconcile st1 pairs rnd)).
Proof.
  intros Ht Hne. split.
  - intros st1 Hdel.
    destruct (deleteSubtree_valid fuel st st1 targetId target Ht Hne Hdel)
      as (ids & m0 & Hids & _ & _ & _ & _ & Hseen & _).
    split; [done|]. split.
    { exists ids. split; [done|].
      by apply (deleteSubtree_survivors fuel st st1 targetId target ids). }
    intros pairs rnd st2 Hrec. rewrite <- Hseen. by apply (reconcile_nodes _ _ pairs rnd).
  - intros Hok Hf H0.
    destruct (deleteSubtree_total st fuel targetId Hok Hf) as [st1 Hdel]; [eauto|].
    exists st1. split; [done|]. intros pairs rnd.
    destruct (deleteSubtree_valid fuel st st1 targetId target Ht Hne Hdel)
      as (ids & m0 & _ & _ & _ & Ha & _ & Hseen & _).
    apply reconcile_total; [lia|].
    destruct (deleteSubtree_keeps_root fuel st st1 targetId target Hok Ht Hne Hdel)
      as [r Hr].
    unfold activeOrRoot. rewrite Ha.
    destruct (nodes st1 !! parentId target) as [q|] eqn:Hq.
    + rewrite Hq. eauto.
    + rewrite Hr. eauto.
Qed.

Lemma no_resurrection_witness :
  nodes twoBranches !! js "n_0_a1" = Some (turnNode (js "n_0_a1") ROOT_ID [] 1 0)
  ∧ js "n_0_a1" ≠ ROOT_ID
  ∧ tree_ok twoBranches = true
  ∧ (enoughFuel twoBranches ≤ 3)%nat
  ∧ 0 ≤ seenLinearCount twoBranches
  ∧ ∃ st1, deleteSubtree 3 twoBranches (js "n_0_a1") = Some st1
           ∧ ∀ pairs rnd, is_Some (reconcile st1 pairs rnd).
Proof.
  assert (nodes twoBranches !! js "n_0_a1"
          = Some (turnNode (js "n_0_a1") ROOT_ID [] 1 0)) as H1 by (vm_compute; reflexivity).
  assert (js "n_0_a1" ≠ ROOT_ID) as H2 by (vm_compute; discriminate).
  assert (tree_ok twoBranches = true) as H3 by (vm_compute; reflexivity).
  assert (enoughFuel twoBranches ≤ 3)%nat as H4 by (vm_compute; lia).
  assert (0 ≤ seenLinearCount twoBranches) as H5 by (simpl; lia).
  split; [exact H1|]. split; [exact H2|]. split; [exact H3|]. split; [exact H4|].
  split; [exact H5|].
  exact (proj2 (no_resurrection 3 twoBranches (js "n_0_a1")
                  (turnNode (js "n_0_a1") ROOT_ID [] 1 0) H1 H2) H3 H4 H5).
Defined.

(** ** Alignment *)

Lemma alignStep_inv (pairs : list Pair) (j : nat) (s : gmap jsstring TreeNode * jsstring) :
  alignInv pairs j s →
  ∃ s', alignStep pairs s j = Some s' ∧ alignInv pairs (S j) s'.
Proof.
  destruct s as [m pid]. intros (Hpid & Hroot & Hnodes & Hnone & Hsize).
  simpl in Hpid, Hroot, Hnodes, Hnone, Hsize.
  assert (m !! alignId j = None) as Hfresh.
  { apply Hnone; [apply alignId_not_root|].
    intros i Hi Heq. apply alignId_inj in Heq. lia. }
  assert (∃ p, m !! pid = Some p ∧ depth p = Z.of_nat j
               ∧ withChildren p (children p ++ [alignId j])
                 = match j with
                   | O => alignedRoot 1
                   | S j' => alignedNode pairs (S j) j'
                   end) as (p & Hp & Hdp & Hp').
  { destruct j as [|j']; subst pid.
    - exists (alignedRoot 0). split; [done|]. split; done.
    - exists (alignedNode pairs (S j') j'). split; [apply Hnodes; lia|].
      split; [simpl; lia|]. unfold alignedNode, withChildren. simpl.
      rewrite (proj2 (Nat.ltb_ge (S j') (S j'))) by lia.
      rewrite (proj2 (Nat.ltb_lt (S j') (S (S j')))) by lia. done. }
  assert (pid ≠ alignId j) as Hne by congruence.
  unfold alignStep. rewrite Hp. simpl.
  rewrite lookup_insert_ne by done. rewrite Hp. simpl.
  eexists. split; [reflexivity|].
  unfold alignInv. simpl. split; [done|]. split; [|split; [|split]].
  - destruct (decide (pid = ROOT_ID)) as [Heq|Hnr].
    + rewrite Heq. rewrite lookup_insert_eq. destruct j as [|j'].
      * by rewrite Hp'.
      * exfalso. rewrite Hpid in Heq. by apply alignId_not_root in Heq.
    + rewrite lookup_insert_ne by done.
      rewrite lookup_insert_ne by apply alignId_not_root.
      rewrite Hroot. destruct j as [|j']; [done|]. done.
  - intros i Hi. destruct (decide (alignId i = pid)) as [Heq|Hnp].
    + rewrite <- Heq. rewrite lookup_insert_eq. destruct j as [|j'].
      * exfalso. rewrite Hpid in Heq. by apply alignId_not_root in Heq.
      * rewrite Hpid in Heq. apply alignId_inj in Heq. subst i. by rewrite Hp'.
    + rewrite lookup_insert_ne by done.
      destruct (decide (i = j)) as [->|Hij].
      * rewrite lookup_insert_eq. unfold alignedNode.
        rewrite (proj2 (Nat.ltb_ge (S j) (S j))) by lia.
        rewrite Hdp. rewrite Hpid. done.
      * rewrite lookup_insert_ne by (intros Heq; apply alignId_inj in Heq; lia).
        rewrite Hnodes by lia. unfold alignedNode. f_equal. f_equal.
        assert (S i ≠ j).
        { intros <-. apply Hnp. by rewrite Hpid. }
        rewrite (proj2 (Nat.ltb_lt (S i) j)) by lia.
        by rewrite (proj2 (Nat.ltb_lt (S i) (S j))) by lia.
  - intros k Hk Hki.
    assert (k ≠ pid) as Hkp.
    { intros ->. destruct j as [|j']; [done|]. by apply (Hki j'); [lia|]. }
    rewrite lookup_insert_ne by done.
    rewrite lookup_insert_ne by (apply not_eq_sym, Hki; lia).
    apply Hnone; [done|]. intros i Hi. apply Hki. lia.
  - rewrite map_size_insert_Some.
    + rewrite map_size_insert_None by done. lia.
    + rewrite lookup_insert_ne by done. eauto.
Qed.

Lemma alignLoop_inv (pairs : list Pair) (m : nat) :
  ∀ (j : nat) (s : gmap jsstring TreeNode * jsstring),
    alignInv pairs j s →
    ∃ s', foldM (alignStep pairs) s (seq j m) = Some s' ∧ alignInv pairs (j + m) s'.
Proof.
  induction m as [|m IH]; intros j s Hinv; simpl.
  - exists s. by rewrite Nat.add_0_r.
  - destruct (alignStep_inv pairs j s Hinv) as (s1 & -> & Hinv1). simpl.
    destruct (IH (S j) s1 Hinv1) as (s' & Hs' & Hinv').
    exists s'. split; [done|]. by replace (j + S m)%nat with (S j + m)%nat by lia.
Qed.

Lemma alignInv_init (pairs : list Pair) :
  alignInv pairs 0 ({[ ROOT_ID := rootNode ]}, ROOT_ID).
Proof.
  unfold alignInv. simpl. split; [done|]. split; [by rewrite lookup_singleton_eq|].
  split; [intros; lia|]. split.
  - intros k Hk _. by rewrite lookup_singleton_ne.
  - by rewrite map_size_singleton.
Qed.


(** ** Walking up a sound tree *)

Lemma keepWalking_true (guard : gset jsstring) (k : jsstring) :
  truthy k = true → k ≠ ROOT_ID → k ∉ guard → keepWalking guard k = true.
Proof.
  intros Ht Hr Hg. unfold keepWalking. rewrite Ht.
  rewrite bool_decide_eq_false_2 by done. by rewrite bool_decide_eq_false_2.
Qed.

Lemma keepWalking_root (guard : gset jsstring) : keepWalking guard ROOT_ID = false.
Proof.
  unfold keepWalking. rewrite (bool_decide_eq_true_2 (ROOT_ID = ROOT_ID)) by done.
  by rewrite andb_false_r.
Qed.

Lemma fmap_rev {A B : Type} (f : A → B) (l : list A) : f <$> rev l = rev (f <$> l).
Proof.
  induction l as [|a l IH]; [done|]. simpl. by rewrite fmap_app, IH.
Qed.

Lemma elem_of_rev {A : Type} (x : A) (l : list A) : x ∈ rev l ↔ x ∈ l.
Proof. by rewrite !list_elem_of_In, <- in_rev. Qed.

Section walks.

Variable st : TreeState.
Hypothesis Hok : tree_ok st = true.

Lemma upPath_exists (d : nat) (k : jsstring) (n : TreeNode) :
nodes st !! k = Some n → depth n ≤ Z.of_nat d → ∃ l, upPath st k l.
Proof using Hok.
revert k n. induction d as [|d IH]; intros k n Hk Hd.
- destruct (decide (k = ROOT_ID)) as [->|Hne]; [exists []; constructor|].
  destruct (tree_ok_node st k n Hok Hk) as (_ & _ & _ & Hpar).
  destruct (Hpar Hne) as (p & Hp & _ & Hdp).
  destruct (tree_ok_node st _ p Hok Hp) as (_ & Hp0 & _). lia.
- destruct (decide (k = ROOT_ID)) as [->|Hne]; [exists []; constructor|].
  destruct (tree_ok_node st k n Hok Hk) as (_ & _ & _ & Hpar).
  destruct (Hpar Hne) as (p & Hp & _ & Hdp).
  destruct (IH _ p Hp) as [l Hl]; [lia|].
  exists (k :: l). by econstructor.
Qed.

Lemma upPath_of_node (k : jsstring) (n : TreeNode) :
nodes st !! k = Some n → ∃ l, upPath st k l.
Proof using Hok.
intros Hk. apply (upPath_exists (Z.to_nat (depth n)) k n Hk).
destruct (tree_ok_node st k n Hok Hk) as (_ & H0 & _). lia.
Qed.

Lemma upPath_nodes (k : jsstring) (l : list jsstring) :
upPath st k l →
∀ n, nodes st !! k = Some n →
∀ x, x ∈ l → x ≠ ROOT_ID ∧ ∃ xn, nodes st !! x = Some xn ∧ depth xn ≤ depth n.
Proof using Hok.
induction 1 as [|k n l Hne Hk Hup IH]; intros n' Hn' x Hx.
- by apply elem_of_nil in Hx.
- rewrite Hk in Hn'. injection Hn' as <-.
  apply elem_of_cons in Hx as [->|Hx].
  + split; [done|]. exists n. split; [done|lia].
  + destruct (tree_ok_node st k n Hok Hk) as (_ & _ & _ & Hpar).
    destruct (Hpar Hne) as (p & Hp & _ & Hdp).
    destruct (IH p Hp x Hx) as (Hxr & xn & Hxn & Hle).
    split; [done|]. exists xn. split; [done|lia].
Qed.

Lemma upPath_NoDup (k : jsstring) (l : list jsstring) :
upPath st k l → NoDup l.
Proof using Hok.
induction 1 as [|k n l Hne Hk Hup IH]; [constructor|].
constructor; [|done]. intros Hin.
destruct (tree_ok_node st k n Hok Hk) as (_ & _ & _ & Hpar).
destruct (Hpar Hne) as (p & Hp & _ & Hdp).
destruct (upPath_nodes _ _ Hup p Hp k Hin) as (_ & xn & Hxn & Hle).
rewrite Hk in Hxn. injection Hxn as <-. lia.
Qed.

Lemma upPath_in_table (k : jsstring) (l : list jsstring) :
upPath st k l → ∀ x, x ∈ l → x ≠ ROOT_ID ∧ is_Some (nodes st !! x).
Proof using Hok.
induction 1 as [|k n l Hne Hk Hup IH]; intros x Hx.
- by apply elem_of_nil in Hx.
- apply elem_of_cons in Hx as [->|Hx]; [eauto | by apply IH].
Qed.

Lemma upPath_length (k : jsstring) (l : list jsstring) :
upPath st k l → (length l ≤ size (nodes st))%nat.
Proof using Hok.
intros Hup. rewrite <- size_dom.
rewrite <- (size_list_to_set (C := gset jsstring) l) by by eapply upPath_NoDup.
apply subseteq_size. intros x Hx. apply elem_of_list_to_set in Hx.
apply elem_of_dom. by apply (upPath_in_table k l).
Qed.

Lemma upPath_closed (k : jsstring) (l : list jsstring) :
upPath st k l →
∀ x xn, x ∈ l → nodes st !! x = Some xn →
  parentId xn = ROOT_ID ∨ parentId xn ∈ l.
Proof using Type.
induction 1 as [|k n l Hne Hk Hup IH]; intros x xn Hx Hxn.
- by apply elem_of_nil in Hx.
- apply elem_of_cons in Hx as [->|Hx].
  + rewrite Hk in Hxn. injection Hxn as <-.
    inversion Hup; subst; [by left|]. right. right. left.
  + destruct (IH x xn Hx Hxn) as [?|?]; [by left|]. right. by right.
Qed.

Lemma upPath_functional (k : jsstring) (l1 l2 : list jsstring) :
upPath st k l1 → upPath st k l2 → l1 = l2.
Proof using Type.
intros H1. revert l2. induction H1 as [|k n l Hne Hk Hup IH]; intros l2 H2.
- inversion H2; subst; done.
- inversion H2; subst; [done|]. f_equal. apply IH.
  match goal with H : nodes st !! k = Some ?n0 |- _ =>
    rewrite Hk in H; injection H as <- end. done.
Qed.

(** The walk of [collapseAllOtherNodes] returns the path. *)
Lemma upLoop_spec (k : jsstring) (l : list jsstring) :
upPath st k l →
∀ fuel guard up, (length l < fuel)%nat → (∀ x, x ∈ l → x ∉ guard) →
  upLoop fuel (nodes st) guard (Some k) up = Some (up ++ l).
Proof using Hok.
intros Hup. pose proof (upPath_NoDup _ _ Hup) as Hnd. revert Hnd.
induction Hup as [|k n l Hne Hk Hup IH]; intros Hnd fuel guard up Hf Hg.
- destruct fuel as [|f]; [simpl in Hf; lia|]. cbn [upLoop].
  rewrite keepWalking_root. by rewrite app_nil_r.
- destruct fuel as [|f]; [simpl in Hf; lia|]. cbn [upLoop].
  rewrite keepWalking_true; [|by eapply tree_ok_truthy|done|apply Hg; left].
  rewrite Hk. cbn [fmap option_fmap option_map]. apply NoDup_cons in Hnd as [Hnin Hnd].
  rewrite IH; [by rewrite <- app_assoc|done|simpl in Hf; lia|].
  intros x Hx. apply not_elem_of_union. split.
  + apply not_elem_of_singleton. by intros ->.
  + apply Hg. by right.
Qed.

(** The walk of [pathToRoot] returns the nodes of the path. *)
Lemma pathLoop_spec (k : jsstring) (l : list jsstring) :
upPath st k l →
∀ fuel guard out, (length l < fuel)%nat → (∀ x, x ∈ l → x ∉ guard) →
  ∃ ns, pathLoop fuel st guard k out = Some (out ++ ns) ∧ id <$> ns = l.
Proof using Hok.
intros Hup. pose proof (upPath_NoDup _ _ Hup) as Hnd. revert Hnd.
induction Hup as [|k n l Hne Hk Hup IH]; intros Hnd fuel guard out Hf Hg.
- destruct fuel as [|f]; [simpl in Hf; lia|]. cbn [pathLoop].
  rewrite keepWalking_root. exists []. by rewrite app_nil_r.
- destruct fuel as [|f]; [simpl in Hf; lia|]. cbn [pathLoop].
  rewrite keepWalking_true; [|by eapply tree_ok_truthy|done|apply Hg; left].
  rewrite Hk. apply NoDup_cons in Hnd as [Hnin Hnd].
  destruct (IH Hnd f ({[k]} ∪ guard) (out ++ [n])) as (ns & Hns & Hids).
  { simpl in Hf. lia. }
  { intros x Hx. apply not_elem_of_union. split.
    - apply not_elem_of_singleton. by intros ->.
    - apply Hg. by right. }
  exists (n :: ns). rewrite Hns, <- app_assoc. split; [done|].
  rewrite fmap_cons, Hids. f_equal.
  by destruct (tree_ok_node st k n Hok Hk) as (-> & _).
Qed.

Lemma pathIds_spec (l : list jsstring) :
upPath st (activeId st) l → pathIds st = ROOT_ID :: rev l.
Proof using Hok.
intros Hup. unfold pathIds, pathToRoot.
destruct (pathLoop_spec _ _ Hup (S (size (nodes st))) ∅ []) as (ns & -> & Hids).
- pose proof (upPath_length _ _ Hup). lia.
- intros x _. apply not_elem_of_empty.
- simpl. by rewrite fmap_rev, Hids.
Qed.

End walks.

(** ** The flags that [collapseAllOtherNodes] sets *)

Lemma foldl_collapse_others (q : jsstring) (cs : list jsstring)
    (acc : gmap jsstring bool) (x : jsstring) :
  foldl (fun m c => if bool_decide (c = q) then m else <[ c := true ]> m) acc cs !! x
  = Some true
  ↔ acc !! x = Some true ∨ (x ∈ cs ∧ x ≠ q).
Proof.
  revert acc. induction cs as [|c cs IH]; intros acc.
  - simpl. split; [by left|]. intros [?|[H _]]; [done|]. by apply elem_of_nil in H.
  - cbn [foldl]. rewrite IH. case_bool_decide as Hc.
    + subst c. split.
      * intros [?|[? ?]]; [by left|]. right. split; [by right|done].
      * intros [?|[Hx ?]]; [by left|]. right.
        apply elem_of_cons in Hx as [->|?]; done.
    + split.
      * intros [Hx|[? ?]].
        -- destruct (decide (x = c)) as [->|Hne].
           ++ right. split; [left|done].
           ++ rewrite lookup_insert_ne in Hx by done. by left.
        -- right. split; [by right|done].
      * intros [Hx|[Hx ?]].
        -- left. destruct (decide (x = c)) as [->|Hne].
           ++ by rewrite lookup_insert_eq.
           ++ by rewrite lookup_insert_ne.
        -- apply elem_of_cons in Hx as [->|?].
           ++ left. by rewrite lookup_insert_eq.
           ++ by right.
Qed.

Lemma foldl_collapse_all (cs : list jsstring) (acc : gmap jsstring bool) (x : jsstring) :
  foldl (fun m c => <[ c := true ]> m) acc cs !! x = Some true
  ↔ acc !! x = Some true ∨ x ∈ cs.
Proof.
  revert acc. induction cs as [|c cs IH]; intros acc.
  - simpl. split; [by left|]. intros [?|H]; [done|]. by apply elem_of_nil in H.
  - cbn [foldl]. rewrite IH. split.
    + intros [Hx|?]; [|right; by right].
      destruct (decide (x = c)) as [->|Hne]; [right; left|].
      rewrite lookup_insert_ne in Hx by done. by left.
    + intros [Hx|Hx].
      * left. destruct (decide (x = c)) as [->|Hne].
        -- by rewrite lookup_insert_eq.
        -- by rewrite lookup_insert_ne.
      * apply elem_of_cons in Hx as [->|?]; [|by right].
        left. by rewrite lookup_insert_eq.
Qed.

Lemma collapseSiblings_snoc (nodes : gmap jsstring TreeNode) (path : list jsstring)
    (p q : jsstring) (acc : gmap jsstring bool) :
  collapseSiblings nodes (path ++ [p; q]) acc
  = collapseOthers nodes p q (collapseSiblings nodes (path ++ [p]) acc).
Proof.
  revert acc. induction path as [|x path IH]; intros acc; [done|].
  destruct path as [|y path'].
  - simpl. reflexivity.
  - change ((x :: y :: path') ++ [p; q]) with (x :: y :: (path' ++ [p; q])).
    change ((x :: y :: path') ++ [p]) with (x :: y :: (path' ++ [p])).
    cbn [collapseSiblings].
    change (y :: (path' ++ [p; q])) with ((y :: path') ++ [p; q]).
    change (y :: (path' ++ [p])) with ((y :: path') ++ [p]).
    apply IH.
Qed.

Section flags.

Variable st : TreeState.
Hypothesis Hok : tree_ok st = true.

Lemma upPath_down_last (k : jsstring) (l : list jsstring) :
upPath st k l → ∃ path0, ROOT_ID :: rev l = path0 ++ [k].
Proof using Type.
intros Hup. inversion Hup; subst.
- by exists [].
- exists (ROOT_ID :: rev l0). reflexivity.
Qed.

Lemma upPath_onPath_self (k : jsstring) (l : list jsstring) :
upPath st k l → onPath l k.
Proof using Type. intros Hup. inversion Hup; subst; [by left|]. right. left. Qed.

Lemma collapseSiblings_spec (k : jsstring) (l : list jsstring) :
upPath st k l →
∀ x, collapseSiblings (nodes st) (ROOT_ID :: rev l) ∅ !! x = Some true
     ↔ x ≠ ROOT_ID ∧ (x ∉ l)
       ∧ ∃ xn, nodes st !! x = Some xn ∧ onPath l (parentId xn)
               ∧ parentId xn ≠ k.
Proof using Hok.
induction 1 as [|k n l Hne Hk Hup IH]; intros x.
- simpl. rewrite lookup_empty. split; [done|].
  intros (_ & _ & xn & _ & [Hr|Hin] & Hnr); [done|]. by apply elem_of_nil in Hin.
- destruct (tree_ok_node st k n Hok Hk) as (_ & _ & _ & Hpar).
  destruct (Hpar Hne) as (p & Hp & Hkin & Hdp).
  pose proof (upPath_NoDup st Hok _ _ (upPath_step st k n l Hne Hk Hup)) as Hnd.
  apply NoDup_cons in Hnd as [Hknin _].
  destruct (upPath_down_last _ _ Hup) as [path0 Hpath0].
  change (ROOT_ID :: rev (k :: l)) with ((ROOT_ID :: rev l) ++ [k]).
  rewrite Hpath0, <- app_assoc. change ([parentId n] ++ [k]) with [parentId n; k].
  rewrite collapseSiblings_snoc, <- Hpath0.
  unfold collapseOthers. rewrite Hp, foldl_collapse_others, IH.
  split.
  + intros [(Hxr & Hxl & xn & Hxn & Hon & Hnp) | [Hxc Hxk]].
    * split; [done|]. split.
      { apply not_elem_of_cons. split; [|done]. intros ->.
        rewrite Hk in Hxn. by injection Hxn as <-. }
      exists xn. split; [done|]. split.
      { destruct Hon as [?|?]; [by left|]. right. by right. }
      intros Heq. rewrite Heq in Hon. destruct Hon as [?|?]; done.
    * destruct (tree_ok_child st _ x p Hok Hp Hxc) as (Hxr & xn & Hxn & Hxp & Hxd).
      split; [done|]. split.
      { apply not_elem_of_cons. split; [done|]. intros Hin.
        destruct (upPath_nodes st Hok _ _ Hup p Hp x Hin) as (_ & xn' & Hxn' & Hle).
        rewrite Hxn in Hxn'. injection Hxn' as <-. lia. }
      exists xn. split; [done|]. rewrite Hxp. split.
      { destruct (upPath_onPath_self _ _ Hup) as [?|?]; [by left|]. right. by right. }
      intros Heq. rewrite Heq, Hk in Hp. injection Hp as <-. lia.
  + intros (Hxr & Hxl & xn & Hxn & Hon & Hnk).
    apply not_elem_of_cons in Hxl as [Hxk Hxl].
    assert (onPath l (parentId xn)) as Hon'.
    { destruct Hon as [?|Hin]; [by left|].
      apply elem_of_cons in Hin as [?|?]; [done|by right]. }
    destruct (decide (parentId xn = parentId n)) as [Heq|Hneq].
    * right. split; [|done].
      destruct (tree_ok_node st x xn Hok Hxn) as (_ & _ & _ & Hxpar).
      destruct (Hxpar Hxr) as (p' & Hp' & Hxin & _).
      rewrite Heq, Hp in Hp'. by injection Hp' as <-.
    * left. split; [done|]. split; [done|]. by exists xn.
Qed.

(** A node is flagged by [collapseAllOtherNodes] exactly when it is off the
  path to the active node and its parent is on it. *)
Lemma collapseAllOtherNodes_flags (a : TreeNode) (l : list jsstring) :
nodes st !! activeId st = Some a → upPath st (activeId st) l →
∀ x, isCollapsed (collapseAllOtherNodes st) x = true
     ↔ x ≠ ROOT_ID ∧ (x ∉ l)
       ∧ ∃ xn, nodes st !! x = Some xn ∧ onPath l (parentId xn).
Proof using Hok.
intros Ha Hup x.
assert (isCollapsed (collapseAllOtherNodes st) x = true
        ↔ collapsedIds (collapseAllOtherNodes st) !! x = Some true) as ->.
{ unfold isCollapsed.
  destruct (collapsedIds (collapseAllOtherNodes st) !! x) as [[|]|]; split; done. }
unfold collapseAllOtherNodes. cbn [collapsedIds].
rewrite (upLoop_spec st Hok _ _ Hup (S (S (size (nodes st)))) ∅ []).
2:{ pose proof (upPath_length st Hok _ _ Hup). lia. }
2:{ intros y _. apply not_elem_of_empty. }
cbn [default app]. rewrite Ha.
pose proof (collapseSiblings_spec _ _ Hup x) as Hsib.
pose proof (upPath_onPath_self _ _ Hup) as Hself.
split.
- intros Hx. destruct (decide (x = activeId st)) as [->|Hxa].
  { by rewrite lookup_delete_eq in Hx. }
  rewrite lookup_delete_ne in Hx by done.
  destruct (decide (x = ROOT_ID)) as [->|Hxr].
  { by rewrite lookup_delete_eq in Hx. }
  rewrite lookup_delete_ne in Hx by done.
  apply foldl_collapse_all in Hx as [Hx|Hx].
  + apply Hsib in Hx as (_ & Hxl & xn & Hxn & Hon & _). eauto.
  + destruct (tree_ok_child st _ x a Hok Ha Hx) as (_ & xn & Hxn & Hxp & Hxd).
    split; [done|]. split.
    * intros Hin.
      destruct (upPath_nodes st Hok _ _ Hup a Ha x Hin) as (_ & xn' & Hxn' & Hle).
      rewrite Hxn in Hxn'. injection Hxn' as <-. lia.
    * exists xn. split; [done|]. by rewrite Hxp.
- intros (Hxr & Hxl & xn & Hxn & Hon).
  assert (x ≠ activeId st) as Hxa.
  { intros ->. destruct Hself as [?|?]; done. }
  rewrite lookup_delete_ne by done. rewrite lookup_delete_ne by done.
  apply foldl_collapse_all.
  destruct (decide (parentId xn = activeId st)) as [Heq|Hneq].
  + right. destruct (tree_ok_node st x xn Hok Hxn) as (_ & _ & _ & Hxpar).
    destruct (Hxpar Hxr) as (p' & Hp' & Hxin & _).
    rewrite Heq, Ha in Hp'. by injection Hp' as <-.
  + left. apply Hsib. split; [done|]. split; [done|]. by exists xn.
Qed.

End flags.

(** ** Visibility after [collapseAllOtherNodes] *)

Section focus.

Variable st : TreeState.
Hypothesis Hok : tree_ok st = true.
Variable a : TreeNode.
Hypothesis Ha : nodes st !! activeId st = Some a.
Variable l : list jsstring.
Hypothesis Hl : upPath st (activeId st) l.

Lemma hiddenLoop_focus (k : jsstring) (lk : list jsstring) :
upPath st k lk →
∀ fuel guard, (length lk < fuel)%nat → (∀ x, x ∈ lk → x ∉ guard) →
  ∃ b, hiddenLoop fuel (collapseAllOtherNodes st) guard k = Some b
       ∧ (b = true
          ↔ k ≠ ROOT_ID ∧ ∃ n, nodes st !! k = Some n ∧ ¬ onPath l (parentId n)).
Proof using Hok Ha Hl.
intros Hup. pose proof (upPath_NoDup st Hok _ _ Hup) as Hnd. revert Hnd.
induction Hup as [|k n lk Hne Hk Hup IH]; intros Hnd fuel guard Hf Hg.
- destruct fuel as [|f]; [simpl in Hf; lia|]. cbn [hiddenLoop].
  rewrite keepWalking_root. exists false. split; [done|].
  split; [done|]. by intros [? _].
- destruct fuel as [|f]; [simpl in Hf; lia|]. cbn [hiddenLoop].
  rewrite keepWalking_true; [|by eapply tree_ok_truthy|done|apply Hg; left].
  change (nodes (collapseAllOtherNodes st)) with (nodes st). rewrite Hk.
  destruct (tree_ok_node st k n Hok Hk) as (_ & _ & _ & Hpar).
  destruct (Hpar Hne) as (p & Hp & _ & _).
  rewrite (tree_ok_truthy st _ p Hok Hp). cbn [andb].
  pose proof (collapseAllOtherNodes_flags st Hok a l Ha Hl (parentId n)) as Hflag.
  destruct (isCollapsed (collapseAllOtherNodes st) (parentId n)) eqn:Hc.
  + exists true. split; [done|]. split; [|done]. intros _. split; [done|].
    exists n. split; [done|].
    destruct (proj1 Hflag eq_refl) as (Hpr & Hpl & _). intros [?|?]; done.
  + apply NoDup_cons in Hnd as [Hknin Hnd].
    destruct (IH Hnd f ({[k]} ∪ guard)) as (b & Hb & Hbiff).
    { simpl in Hf. lia. }
    { intros x Hx. apply not_elem_of_union. split.
      - apply not_elem_of_singleton. by intros ->.
      - apply Hg. by right. }
    exists b. split; [done|]. rewrite Hbiff. split.
    * intros (Hpr & pn & Hpn & Hoff). split; [done|]. exists n. split; [done|].
      intros [?|Hin]; [done|]. apply Hoff.
      apply (upPath_closed st _ _ Hl _ pn Hin Hpn).
    * intros (_ & n' & Hn' & Hoff). rewrite ?Hk in Hn'. injection Hn' as <-.
      assert (parentId n ≠ ROOT_ID) as Hpr by (intros Heq; apply Hoff; by left).
      split; [done|]. exists p. split; [done|]. intros Hon.
      assert (false = true) as Hc'; [|discriminate].
      apply Hflag. split; [done|]. split; [|by exists p].
      intros Hin. apply Hoff. by right.
Qed.

(** After [collapseAllOtherNodes] a node other than the root is hidden
  exactly when its parent is off the path to the active node. *)
Lemma isHidden_focus (k : jsstring) (n : TreeNode) :
nodes st !! k = Some n → k ≠ ROOT_ID →
isHiddenByCollapsed (collapseAllOtherNodes st) k = false
↔ onPath l (parentId n).
Proof using Hok Ha Hl.
intros Hk Hne. destruct (upPath_of_node st Hok k n Hk) as [lk Hlk].
unfold isHiddenByCollapsed.
change (nodes (collapseAllOtherNodes st)) with (nodes st).
destruct (hiddenLoop_focus k lk Hlk (S (size (nodes st))) ∅) as (b & -> & Hb).
{ pose proof (upPath_length st Hok _ _ Hlk). lia. }
{ intros x _. apply not_elem_of_empty. }
change (default false (Some b)) with b. split.
- intros ->. destruct (decide (onPath l (parentId n))) as [?|Hoff]; [done|].
  exfalso. assert (false = true); [|done]. apply Hb. split; [done|]. eauto.
- intros Hon. destruct b; [|done]. exfalso.
  destruct (proj1 Hb eq_refl) as (_ & n' & Hn' & Hoff).
  rewrite Hk in Hn'. by injection Hn' as <-.
Qed.

End focus.

(** The listing of [flattenTree] depends on the nodes table only, and holds
    nodes of the table other than the root. *)
Lemma flattenDfs_ext (st st' : TreeState) (fuel : nat) (i : jsstring)
    (res : list TreeNode) :
  nodes st' = nodes st → flattenDfs fuel st' i res = flattenDfs fuel st i res.
Proof.
  intros Hn. revert i res. induction fuel as [|f IH]; intros i res; [done|].
  cbn [flattenDfs]. rewrite Hn. destruct (nodes st !! i) as [n|]; [|done].
  generalize (if bool_decide (i = ROOT_ID) then res else res ++ [n]).
  induction (children n) as [|c cs IHc]; intros acc; [done|].
  cbn [foldM]. rewrite IH. destruct (flattenDfs f st c acc); [|done]. apply IHc.
Qed.

Lemma flattenDfs_members (st : TreeState) (fuel : nat) (i : jsstring)
    (res res' : list TreeNode) :
  tree_ok st = true →
  flattenDfs fuel st i res = Some res' →
  ∀ x, x ∈ res' → x ∈ res ∨ (nodes st !! id x = Some x ∧ id x ≠ ROOT_ID).
Proof.
  intros Hok. revert i res res'. induction fuel as [|f IH]; intros i res res'; [done|].
  cbn [flattenDfs]. destruct (nodes st !! i) as [n|] eqn:Hn.
  - intros Hfold.
    refine (foldM_inv
      (fun acc => ∀ x, x ∈ acc → x ∈ res ∨ (nodes st !! id x = Some x ∧ id x ≠ ROOT_ID))
      _ _ _ _ _ _ Hfold).
    + intros x Hx. case_bool_decide as Hi; [by left|].
      apply elem_of_app in Hx as [?|Hx]; [by left|].
      apply list_elem_of_singleton in Hx as ->. right.
      destruct (tree_ok_node st i n Hok Hn) as (-> & _). done.
    + intros acc c acc' _ Hacc Hrec x Hx.
      destruct (IH c acc acc' Hrec x Hx) as [?|?]; [by apply Hacc | by right].
  - intros [= <-] x Hx. by left.
Qed.

Lemma flattenDfs_total (st : TreeState) (fuel : nat) (i : jsstring) (res : list TreeNode) :
  tree_ok st = true →
  (match nodes st !! i with
   | Some n => maxDepth st - depth n < Z.of_nat fuel
   | None => 0 < Z.of_nat fuel
   end) →
  is_Some (flattenDfs fuel st i res).
Proof.
  intros Hok. revert i res. induction fuel as [|f IH]; intros i res Hf.
  - destruct (nodes st !! i) as [n|] eqn:Hn; [|lia].
    pose proof (maxDepth_bound st i n Hn). lia.
  - cbn [flattenDfs]. destruct (nodes st !! i) as [n|] eqn:Hn; [|eauto].
    apply foldM_is_Some. intros acc c Hc. apply IH.
    destruct (tree_ok_child st i c n Hok Hn Hc) as (_ & cn & Hcn & _ & Hd).
    rewrite Hcn. lia.
Qed.

Lemma filter_ext_in {A : Type} (P Q : A → Prop) `{!∀ x, Decision (P x)}
    `{!∀ x, Decision (Q x)} (l : list A) :
  (∀ x, x ∈ l → P x ↔ Q x) → filter P l = filter Q l.
Proof.
  induction l as [|x l IH]; intros Hpq; [done|].
  rewrite !filter_cons. rewrite IH by (intros y Hy; apply Hpq; by right).
  destruct (decide (P x)) as [HP|HP], (decide (Q x)) as [HQ|HQ]; try done.
  - exfalso. apply HQ, Hpq; [left|done].
  - exfalso. apply HP, Hpq; [left|done].
Qed.

(** C4 (amended). On a sound tree whose activeId resolves,
    [collapseAllOtherNodes] changes collapsedIds only, and the listing shown
    afterwards ([flattenTree] without the nodes that [isHiddenByCollapsed]
    hides) holds exactly the nodes whose parent is on the root-to-active path
    (the root and the active node included): the nodes of the path, the
    direct children of the active node, and the direct children of the other
    nodes of the path, which are the flagged siblings; every deeper node is
    hidden. The listing is returned as soon as the call depth allowed is
    [enoughFuel st]. *)
Theorem focus_visibility (fuel : nat) (st : TreeState) :
  tree_ok st = true → is_Some (nodes st !! activeId st) →
  nodes (collapseAllOtherNodes st) = nodes st
  ∧ activeId (collapseAllOtherNodes st) = activeId st
  ∧ seenLinearCount (collapseAllOtherNodes st) = seenLinearCount st
  ∧ (∀ k n, nodes st !! k = Some n → k ≠ ROOT_ID →
       isHiddenByCollapsed (collapseAllOtherNodes st) k = false
       ↔ parentId n ∈ pathIds st)
  ∧ (∀ shown, flattenTree fuel st = Some shown →
       flatNodes fuel (collapseAllOtherNodes st)
       = Some (filter (fun n => parentId n ∈ pathIds st) shown))
  ∧ ((enoughFuel st ≤ fuel)%nat → is_Some (flattenTree fuel st)).
Proof.
  intros Hok [a Ha].
  destruct (upPath_of_node st Hok _ a Ha) as [l Hl].
  assert (∀ x, x ∈ pathIds st ↔ onPath l x) as Hpath.
  { intros x. rewrite (pathIds_spec st Hok l Hl). unfold onPath.
    rewrite elem_of_cons, elem_of_rev. done. }
  assert (∀ k n, nodes st !! k = Some n → k ≠ ROOT_ID →
            isHiddenByCollapsed (collapseAllOtherNodes st) k = false
            ↔ parentId n ∈ pathIds st) as Hhid.
  { intros k n Hk Hne. rewrite Hpath. by apply (isHidden_focus st Hok a Ha l Hl). }
  split; [done|]. split; [done|]. split; [done|]. split; [exact Hhid|]. split.
  - intros shown Hshown. unfold flatNodes, flattenTree.
    rewrite (flattenDfs_ext st (collapseAllOtherNodes st)) by done.
    unfold flattenTree in Hshown. rewrite Hshown. cbn [fmap option_fmap option_map].
    f_equal. apply filter_ext_in. intros x Hx.
    destruct (flattenDfs_members st fuel ROOT_ID [] shown Hok Hshown x Hx)
      as [Hnil|[Hxn Hxr]]; [by apply elem_of_nil in Hnil|].
    by apply Hhid.
  - intros Hf. apply flattenDfs_total; [done|]. unfold enoughFuel in Hf.
    destruct (tree_ok_root st Hok) as [r Hr]. rewrite Hr.
    destruct (tree_ok_node st _ r Hok Hr) as (_ & Hd & _).
    pose proof (maxDepth_bound st _ r Hr). lia.
Qed.

Lemma focus_visibility_witness :
  tree_ok branched = true
  ∧ is_Some (nodes branched !! activeId branched)
  ∧ (enoughFuel branched ≤ 5)%nat
  ∧ is_Some (flattenTree 5 branched)
  ∧ ∀ shown, flattenTree 5 branched = Some shown →
      flatNodes 5 (collapseAllOtherNodes branched)
      = Some (filter (fun n => parentId n ∈ pathIds branched) shown).
Proof.
  assert (tree_ok branched = true) as H1 by (vm_compute; reflexivity).
  assert (is_Some (nodes branched !! activeId branched)) as H2
    by (vm_compute; eauto).
  assert (enoughFuel branched ≤ 5)%nat as H3 by (vm_compute; lia).
  destruct (focus_visibility 5 branched H1 H2) as (_ & _ & _ & _ & Hshown & Htot).
  split; [exact H1|]. split; [exact H2|]. split; [exact H3|].
  split; [exact (Htot H3) | exact Hshown].
Defined.

(** C4 as stated fails: in [branched] the cursor is on [n_3_d4], the path
    from the root is [n_0_a1], [n_3_d4] and the only child of the active node
    is [n_4_e5]; after [collapseAllOtherNodes] the listing also shows
    [n_1_b2], the flagged sibling of [n_3_d4], which is neither on the path
    nor a child of the active node. *)
Lemma focus_visibility_counterexample :
  tree_ok branched = true
  ∧ activeId branched = js "n_3_d4"
  ∧ idsOf (pathToRoot branched) = [js "n_0_a1"; js "n_3_d4"]
  ∧ nodes branched !! js "n_3_d4"
    = Some (turnNode (js "n_3_d4") (js "n_0_a1") [js "n_4_e5"] 2 3)
  ∧ option_map idsOf (flatNodes 5 (collapseAllOtherNodes branched))
    = Some [js "n_0_a1"; js "n_1_b2"; js "n_3_d4"; js "n_4_e5"]
  ∧ isHiddenByCollapsed (collapseAllOtherNodes branched) (js "n_1_b2") = false
  ∧ (js "n_1_b2" ∉ [js "n_0_a1"; js "n_3_d4"])
  ∧ (js "n_1_b2" ∉ [js "n_4_e5"]).
Proof.
  split; [vm_compute; reflexivity|]. split; [reflexivity|].
  split; [vm_compute; reflexivity|]. split; [vm_compute; reflexivity|].
  split; [vm_compute; reflexivity|]. split; [vm_compute; reflexivity|].
  split.
  - rewrite !not_elem_of_cons. repeat split; try (vm_compute; discriminate).
    apply not_elem_of_nil.
  - rewrite list_elem_of_singleton. vm_compute. discriminate.
Qed.

(** ** JSON text *)

(** Induction on JSON values, through arrays and objects. *)
Lemma json_ind' (P : json → Prop) :
  P JNull → (∀ b, P (JBool b)) → (∀ z, P (JNum z)) → (∀ s, P (JStr s)) →
  (∀ l, Forall P l → P (JArr l)) →
  (∀ l, Forall (fun kv => P kv.2) l → P (JObj l)) →
  ∀ j, P j.
Proof.
  intros Hnull Hbool Hnum Hstr Harr Hobj.
  fix go 1. intros [|b|z|s|l|l].
  - exact Hnull.
  - apply Hbool.
  - apply Hnum.
  - apply Hstr.
  - apply Harr. induction l as [|e l IH]; constructor; [apply go | exact IH].
  - apply Hobj. induction l as [|kv l IH]; constructor; [apply go | exact IH].
Qed.

Lemma unhexDigit_hexDigit (n : N) : (n < 16)%N → unhexDigit (hexDigit n) = Some n.
Proof.
  intros Hn. assert (∃ k : nat, (k < 16)%nat ∧ n = N.of_nat k) as (k & Hk & ->).
  { exists (N.to_nat n). split; lia. }
  do 16 (destruct k as [|k]; [reflexivity|]). lia.
Qed.

Lemma unhex4_hex4 (c : N) (rest : jsstring) :
  (c < 65536)%N →
  ∃ a b c' d, hex4 c ++ rest = a :: b :: c' :: d :: rest ∧ unhex4 a b c' d = Some c.
Proof.
  intros Hc. unfold hex4. do 4 eexists. split; [reflexivity|]. unfold unhex4.
  rewrite !unhexDigit_hexDigit by (apply N.mod_lt; lia). simpl. f_equal.
  assert (c / 256 = c / 16 / 16)%N as -> by (rewrite N.Div0.div_div; reflexivity).
  assert (c / 4096 = c / 16 / 16 / 16)%N as -> by (rewrite !N.Div0.div_div; reflexivity).
  pose proof (N.Div0.div_mod c 16) as E0.
  pose proof (N.Div0.div_mod (c / 16) 16) as E1.
  pose proof (N.Div0.div_mod (c / 16 / 16) 16) as E2.
  assert (c / 16 / 16 / 16 < 16)%N as Hq.
  { rewrite !N.Div0.div_div. apply N.Div0.div_lt_upper_bound. simpl. lia. }
  rewrite (N.mod_small (c / 16 / 16 / 16) 16) by exact Hq.
  lia.
Qed.

Lemma parseChars_unicodeEscape (c : N) (rest acc : jsstring) :
  (c < 65536)%N →
  parseChars (unicodeEscape c ++ rest) acc = parseChars rest (acc ++ [c]).
Proof.
  intros Hc. unfold unicodeEscape. rewrite <- app_assoc.
  destruct (unhex4_hex4 c rest Hc) as (a & b & c' & d & -> & Hun).
  cbn -[unhex4]. by rewrite Hun.
Qed.

Lemma parseChars_shortEscape (c e : N) (rest acc : jsstring) :
  shortEscape c = Some e →
  parseChars (92%N :: e :: rest) acc = parseChars rest (acc ++ [c]).
Proof.
  unfold shortEscape.
  destruct (N.eqb_spec c 8) as [->|?]; [intros [= <-]; reflexivity|].
  destruct (N.eqb_spec c 9) as [->|?]; [intros [= <-]; reflexivity|].
  destruct (N.eqb_spec c 10) as [->|?]; [intros [= <-]; reflexivity|].
  destruct (N.eqb_spec c 12) as [->|?]; [intros [= <-]; reflexivity|].
  destruct (N.eqb_spec c 13) as [->|?]; [intros [= <-]; reflexivity|].
  destruct (N.eqb_spec c 34) as [->|?]; [intros [= <-]; reflexivity|].
  destruct (N.eqb_spec c 92) as [->|?]; [intros [= <-]; reflexivity|].
  done.
Qed.

Lemma parseChars_literal (c : N) (rest acc : jsstring) :
  shortEscape c = None → (c <? 32)%N = false →
  parseChars (c :: rest) acc = parseChars rest (acc ++ [c]).
Proof.
  intros Hs Hc. cbn [parseChars]. rewrite Hc.
  unfold shortEscape in Hs.
  destruct (N.eqb_spec c 34) as [->|?]; [done|].
  destruct (N.eqb_spec c 92) as [->|?]; [done|]. done.
Qed.

Lemma surrogate_facts (c : N) :
  isHighSurrogate c = true ∨ isLowSurrogate c = true →
  shortEscape c = None ∧ (c <? 32)%N = false ∧ (c < 65536)%N.
Proof.
  unfold isHighSurrogate, isLowSurrogate, shortEscape. intros H.
  assert (55296 ≤ c ≤ 57343)%N as Hr.
  { destruct H as [H|H]; apply andb_true_iff in H as [H1 H2];
      apply N.leb_le in H1, H2; lia. }
  destruct (N.eqb_spec c 8) as [->|_]; [lia|].
  destruct (N.eqb_spec c 9) as [->|_]; [lia|].
  destruct (N.eqb_spec c 10) as [->|_]; [lia|].
  destruct (N.eqb_spec c 12) as [->|_]; [lia|].
  destruct (N.eqb_spec c 13) as [->|_]; [lia|].
  destruct (N.eqb_spec c 34) as [->|_]; [lia|].
  destruct (N.eqb_spec c 92) as [->|_]; [lia|].
  split; [done|]. split; [apply N.ltb_ge|]; lia.
Qed.

Lemma parseChars_quoteChars_aux (n : nat) :
  ∀ (s rest acc : jsstring), (length s ≤ n)%nat →
    parseChars (quoteChars s ++ 34%N :: rest) acc = Some (acc ++ s, rest).
Proof.
  induction n as [|n IH]; intros s rest acc Hlen.
  - destruct s; [|simpl in Hlen; lia]. simpl. by rewrite app_nil_r.
  - destruct s as [|c r]; [simpl; by rewrite app_nil_r|].
    simpl in Hlen.
    assert (∀ acc', parseChars (quoteChars r ++ 34%N :: rest) acc'
                    = Some (acc' ++ r, rest)) as IHr by (intros; apply IH; lia).
    assert ((acc ++ [c]) ++ r = acc ++ c :: r) as Happ by by rewrite <- app_assoc.
    cbn [quoteChars]. destruct (shortEscape c) as [e|] eqn:Hs.
    { change ((92%N :: e :: quoteChars r) ++ 34%N :: rest)
        with (92%N :: e :: (quoteChars r ++ 34%N :: rest)).
      rewrite (parseChars_shortEscape c e) by done. by rewrite IHr, Happ. }
    destruct (c <? 32)%N eqn:Hc.
    { rewrite <- app_assoc, parseChars_unicodeEscape by (apply N.ltb_lt in Hc; lia).
      by rewrite IHr, Happ. }
    destruct (isHighSurrogate c) eqn:Hh.
    { destruct (surrogate_facts c (or_introl Hh)) as (_ & _ & Hc16).
      destruct r as [|c2 r2].
      - rewrite parseChars_unicodeEscape by done. reflexivity.
      - destruct (isLowSurrogate c2) eqn:Hl2.
        + destruct (surrogate_facts c2 (or_intror Hl2)) as (Hs2 & Hc2 & _).
          change ((c :: c2 :: quoteChars r2) ++ 34%N :: rest)
            with (c :: c2 :: (quoteChars r2 ++ 34%N :: rest)).
          rewrite parseChars_literal by done. rewrite parseChars_literal by done.
          rewrite IH by (simpl in Hlen; lia). by rewrite <- !app_assoc.
        + rewrite <- app_assoc, parseChars_unicodeEscape by done.
          by rewrite IHr, Happ. }
    destruct (isLowSurrogate c) eqn:Hl.
    { destruct (surrogate_facts c (or_intror Hl)) as (_ & _ & Hc16).
      rewrite <- app_assoc, parseChars_unicodeEscape by done. by rewrite IHr, Happ. }
    change ((c :: quoteChars r) ++ 34%N :: rest)
      with (c :: (quoteChars r ++ 34%N :: rest)).
    rewrite parseChars_literal by done. by rewrite IHr, Happ.
Qed.

(** A quoted string is read back, up to its closing quote. *)
Lemma parseChars_quoteChars (s rest : jsstring) :
  parseChars (quoteChars s ++ 34%N :: rest) [] = Some (s, rest).
Proof. by rewrite (parseChars_quoteChars_aux (length s)). Qed.

Lemma unjs_js (s : string) : unjs (js s) = s.
Proof.
  unfold unjs, js. rewrite map_map.
  rewrite (map_ext _ (fun a => a)) by (intros a; apply ascii_N_embedding).
  rewrite map_id. apply string_of_list_ascii_of_string.
Qed.

Lemma dec_numChars (z : Z) : forallb isNumChar (dec z) = true.
Proof.
  unfold dec, js. pose proof (string_of_int_chars (Z.to_int z)) as H.
  revert H. generalize (list_ascii_of_string (NilEmpty.string_of_int (Z.to_int z))).
  intros l. induction l as [|a l IH]; [done|]. simpl. intros H.
  apply andb_true_iff in H as [Ha Hl]. rewrite IH by done.
  unfold isDecChar in Ha. unfold isNumChar. by rewrite Ha.
Qed.

Lemma dec_nonempty (z : Z) : ∃ c t, dec z = c :: t ∧ isNumChar c = true.
Proof.
  pose proof (dec_numChars z) as Hall. destruct (dec z) as [|c t] eqn:E.
  - exfalso. unfold dec in E.
    assert (NilEmpty.string_of_int (Z.to_int z) = EmptyString) as Hs.
    { apply js_inj. by rewrite E. }
    pose proof (NilEmpty.isi (Z.to_int z)) as Hisi. rewrite Hs in Hisi.
    simpl in Hisi. injection Hisi as Hd.
    pose proof (DecimalZ.of_to z) as Hz. rewrite <- Hd in Hz. simpl in Hz.
    subst z. done.
  - simpl in Hall. apply andb_true_iff in Hall as [Hc _]. eauto.
Qed.

Lemma spanNum_app (t rest : jsstring) :
  forallb isNumChar t = true → okRest rest → spanNum (t ++ rest) = (t, rest).
Proof.
  intros Ht Hrest. induction t as [|c t IH]; simpl.
  - destruct rest as [|c r]; [done|]. simpl in Hrest. simpl. by rewrite Hrest.
  - simpl in Ht. apply andb_true_iff in Ht as [Hc Ht]. rewrite Hc, IH; done.
Qed.

(** An integer is read back when the text does not go on with a digit. *)
Lemma parseNumber_dec (z : Z) (rest : jsstring) :
  okRest rest → parseNumber (dec z ++ rest) = Some (JNum z, rest).
Proof.
  intros Hrest. unfold parseNumber.
  rewrite spanNum_app by (done || apply dec_numChars). cbv iota beta.
  assert (unjs (dec z) = NilEmpty.string_of_int (Z.to_int z)) as ->
    by apply unjs_js.
  rewrite NilEmpty.isi. cbn [mbind option_bind]. cbv zeta.
  rewrite DecimalZ.of_to. by rewrite bool_decide_eq_true_2.
Qed.

Lemma isNumChar_dispatch (c : N) :
  isNumChar c = true →
  (c =? 34)%N = false ∧ (c =? 91)%N = false ∧ (c =? 123)%N = false
  ∧ (c =? 110)%N = false ∧ (c =? 116)%N = false ∧ (c =? 102)%N = false
  ∧ (c =? 93)%N = false.
Proof.
  unfold isNumChar. intros H.
  assert ((48 ≤ c ≤ 57) ∨ c = 45)%N as Hr.
  { apply orb_true_iff in H as [H|H].
    - apply andb_true_iff in H as [H1 H2]. apply N.leb_le in H1, H2. lia.
    - apply N.eqb_eq in H. lia. }
  repeat split; apply N.eqb_neq; lia.
Qed.

Lemma stringify_head (j : json) :
  ∃ c t, stringify j = c :: t ∧ (c =? 93)%N = false.
Proof.
  destruct j as [|[|]|z|s|l|l]; try (do 2 eexists; split; [reflexivity|reflexivity]).
  destruct (dec_nonempty z) as (c & t & Hz & Hc). exists c, t. split; [done|].
  by apply isNumChar_dispatch in Hc as (_ & _ & _ & _ & _ & _ & ?).
Qed.

Lemma parseElems_spec (l : list json) :
  Forall readsBack l → l ≠ [] →
  ∀ f acc rest, (list_sum (map (fun e => S (weight e)) l) ≤ f)%nat →
    parseWith f (MElems acc) (joinComma (map stringify l) ++ 93%N :: rest)
    = Some (JArr (acc ++ l), rest).
Proof.
  induction 1 as [|e l He Hl IH]; [done|]. intros _ f acc rest Hf.
  destruct f as [|f]; [simpl in Hf; lia|]. simpl in Hf.
  destruct l as [|e2 l'].
  - cbn [map joinComma parseWith].
    rewrite He by (done || lia). reflexivity.
  - change (joinComma (map stringify (e :: e2 :: l')))
      with (stringify e ++ 44%N :: joinComma (map stringify (e2 :: l'))).
    rewrite <- app_assoc. cbn [parseWith].
    rewrite He by (done || lia). cbn [app mbind option_bind].
    change ((44%N :: joinComma (map stringify (e2 :: l'))) ++ 93%N :: rest)
      with (44%N :: (joinComma (map stringify (e2 :: l')) ++ 93%N :: rest)).
    cbn beta iota. rewrite N.eqb_refl. rewrite IH by (done || simpl in *; lia).
    by rewrite <- app_assoc.
Qed.

Lemma parseMembers_spec (l : list (jsstring * json)) :
  Forall (fun kv => readsBack kv.2) l → l ≠ [] →
  ∀ f acc rest, (list_sum (map (fun kv => S (weight kv.2)) l) ≤ f)%nat →
    parseWith f (MMembers acc) (joinComma (map memberText l) ++ 125%N :: rest)
    = Some (JObj (acc ++ l), rest).
Proof.
  induction 1 as [|[k v] l He Hl IH]; [done|]. intros _ f acc rest Hf.
  destruct f as [|f]; [simpl in Hf; lia|]. simpl in Hf. simpl in He.
  assert (∀ tail, memberText (k, v) ++ tail
                  = 34%N :: (quoteChars k ++ 34%N :: 58%N :: (stringify v ++ tail)))
    as Htext.
  { intros tail. unfold memberText, quote. simpl. by rewrite <- !app_assoc. }
  destruct l as [|kv2 l'].
  - cbn [map joinComma]. rewrite Htext. cbn [parseWith]. rewrite N.eqb_refl.
    rewrite parseChars_quoteChars. cbn [mbind option_bind]. cbn beta iota.
    rewrite N.eqb_refl. rewrite He by (done || lia). reflexivity.
  - change (joinComma (map memberText ((k, v) :: kv2 :: l')))
      with (memberText (k, v) ++ 44%N :: joinComma (map memberText (kv2 :: l'))).
    rewrite <- app_assoc, Htext. cbn [parseWith]. rewrite N.eqb_refl.
    rewrite parseChars_quoteChars. cbn [mbind option_bind]. cbn beta iota.
    rewrite N.eqb_refl. rewrite He by (done || lia).
    cbn [app mbind option_bind]. cbn beta iota. rewrite N.eqb_refl.
    rewrite IH by (done || simpl in *; lia).
    by rewrite <- app_assoc.
Qed.

(** [parseWith] reads back the text of every value. *)
Lemma parseWith_stringify (j : json) : readsBack j.
Proof.
  induction j as [|b|z|s|l IH|l IH] using json_ind'; intros f rest Hf Hrest;
    (destruct f as [|f]; [simpl in Hf; lia|]).
  - reflexivity.
  - by destruct b.
  - destruct (dec_nonempty z) as (c & t & Hz & Hc).
    pose proof (parseNumber_dec z rest Hrest) as Hnum.
    cbn [stringify] in *. rewrite Hz in *. cbn [app parseWith] in *.
    apply isNumChar_dispatch in Hc as (-> & -> & -> & -> & -> & -> & _).
    exact Hnum.
  - cbn [stringify]. unfold quote. cbn [app parseWith]. rewrite N.eqb_refl.
    rewrite <- app_assoc. cbn [app]. by rewrite parseChars_quoteChars.
  - cbn [stringify]. destruct l as [|e l']; [reflexivity|].
    destruct (stringify_head e) as (c & t & He & Hc).
    cbn [app parseWith]. rewrite <- app_assoc. cbn [app].
    assert (∃ tail, joinComma (map stringify (e :: l')) ++ 93%N :: rest = c :: tail)
      as [tail Htail].
    { destruct l'; cbn [map joinComma]; rewrite He; by eexists. }
    rewrite Htail. cbn beta iota. rewrite Hc, <- Htail.
    rewrite (parseElems_spec (e :: l') IH) by (done || simpl in *; lia). done.
  - cbn [stringify]. destruct l as [|kv l']; [reflexivity|].
    change (map (fun kv => quote kv.1 ++ 58%N :: stringify kv.2) (kv :: l'))
      with (map memberText (kv :: l')).
    cbn [app parseWith]. rewrite <- app_assoc. cbn [app].
    assert (∃ tail, joinComma (map memberText (kv :: l')) ++ 125%N :: rest
                    = 34%N :: tail) as [tail Htail].
    { destruct l'; cbn [map joinComma]; unfold memberText, quote; by eexists. }
    rewrite Htail. cbn beta iota. change (34 =? 125)%N with false. cbn iota.
    rewrite <- Htail.
    rewrite (parseMembers_spec (kv :: l') IH) by (done || simpl in *; lia). done.
Qed.

Lemma joinComma_weight {A : Type} (w : A → nat) (t : A → jsstring) (l : list A) :
  Forall (fun x => (w x ≤ length (t x))%nat) l →
  (list_sum (map (fun x => S (w x)) l) ≤ length (joinComma (map t l)) + 1)%nat.
Proof.
  induction 1 as [|x l Hx Hl IH]; [simpl; lia|].
  destruct l as [|y l'].
  - simpl. lia.
  - change (joinComma (map t (x :: y :: l')))
      with (t x ++ 44%N :: joinComma (map t (y :: l'))).
    rewrite length_app. cbn [length]. cbn [map list_sum fold_right] in *. lia.
Qed.

Lemma weight_le_length (j : json) : (weight j ≤ length (stringify j))%nat.
Proof.
  induction j as [|b|z|s|l IH|l IH] using json_ind'.
  - simpl. lia.
  - destruct b; simpl; lia.
  - destruct (dec_nonempty z) as (c & t & Hz & _). cbn [stringify weight].
    rewrite Hz. simpl. lia.
  - simpl. lia.
  - cbn [stringify weight]. pose proof (joinComma_weight weight stringify l IH).
    cbn [length]. rewrite length_app. simpl. lia.
  - cbn [stringify weight].
    pose proof (joinComma_weight (fun kv => weight kv.2) memberText l) as H.
    change (map (fun kv => quote kv.1 ++ 58%N :: stringify kv.2) l)
      with (map memberText l).
    cbn [length]. rewrite length_app. simpl.
    assert (list_sum (map (fun kv => S (weight kv.2)) l)
            ≤ length (joinComma (map memberText l)) + 1)%nat; [|lia].
    apply H. eapply Forall_impl; [exact IH|]. intros kv Hkv. simpl in Hkv.
    unfold memberText. rewrite length_app. simpl. lia.
Qed.

(** [JSON.parse(JSON.stringify(j))] is [j]. *)
Lemma parseJSON_stringify (j : json) : parseJSON (stringify j) = Some j.
Proof.
  unfold parseJSON.
  rewrite <- (app_nil_r (stringify j)) at 2.
  rewrite parseWith_stringify; [done| |done].
  pose proof (weight_le_length j). lia.
Qed.

(** ** Persistence *)

Lemma asStrs_strings (cs : list jsstring) : asStrs (JArr (JStr <$> cs)) = Some cs.
Proof.
  unfold asStrs. induction cs as [|c cs IH]; [done|].
  rewrite fmap_cons. cbn [mapM]. cbn [asStr mbind option_bind]. by rewrite IH.
Qed.

Lemma jget_node_fields (v1 v2 v3 v4 v5 v6 v7 v8 : json) :
  let o := [(js "id", v1); (js "parentId", v2); (js "children", v3);
            (js "depth", v4); (js "linearIndex", v5); (js "summary", v6);
            (js "userHtml", v7); (js "assistantHtml", v8)] in
  jget (js "id") o = Some v1 ∧ jget (js "parentId") o = Some v2
  ∧ jget (js "children") o = Some v3 ∧ jget (js "depth") o = Some v4
  ∧ jget (js "linearIndex") o = Some v5 ∧ jget (js "summary") o = Some v6
  ∧ jget (js "userHtml") o = Some v7 ∧ jget (js "assistantHtml") o = Some v8.
Proof. vm_compute. repeat split. Qed.

Lemma jget_state_fields (v1 v2 v3 v4 v5 : json) :
  let o := [(js "convoKey", v1); (js "seenLinearCount", v2); (js "activeId", v3);
            (js "nodes", v4); (js "collapsedIds", v5)] in
  jget (js "convoKey") o = Some v1 ∧ jget (js "seenLinearCount") o = Some v2
  ∧ jget (js "activeId") o = Some v3 ∧ jget (js "nodes") o = Some v4
  ∧ jget (js "collapsedIds") o = Some v5.
Proof. vm_compute. repeat split. Qed.

Lemma nodeOfJson_jsonOfNode (n : TreeNode) : nodeOfJson (jsonOfNode n) = Some n.
Proof.
  destruct n as [i p cs d li s uh ah]. unfold jsonOfNode, nodeOfJson.
  cbn [id parentId children depth linearIndex summary userHtml assistantHtml].
  destruct (jget_node_fields (JStr i) (JStr p) (JArr (JStr <$> cs)) (JNum d)
              (JNum li) (JStr s) (JStr uh) (JStr ah))
    as (-> & -> & -> & -> & -> & -> & -> & ->).
  cbn [mbind option_bind asStr asNum]. rewrite asStrs_strings. reflexivity.
Qed.

Lemma asRecord_record {V : Type} (f : json → option V) (g : V → json)
    (m : gmap jsstring V) :
  (∀ v, f (g v) = Some v) →
  asRecord f (JObj (prod_map Datatypes.id g <$> map_to_list m)) = Some m.
Proof.
  intros Hfg. unfold asRecord.
  assert (∀ l : list (jsstring * V),
            mapM (fun kv => v ← f kv.2; Some (kv.1, v)) (prod_map Datatypes.id g <$> l)
            = Some l) as Hl.
  { induction l as [|[k v] l IH]; [done|].
    rewrite fmap_cons. cbn [mapM].
    change ((prod_map Datatypes.id g (k, v)).2) with (g v).
    change ((prod_map Datatypes.id g (k, v)).1) with k.
    rewrite Hfg. cbn [mbind option_bind]. by rewrite IH. }
  rewrite Hl. cbn [mbind option_bind]. f_equal.
  rewrite <- (list_to_map_to_list m) at 2.
  apply list_to_map_proper.
  - rewrite fmap_rev. apply NoDup_ListNoDup, NoDup_rev, NoDup_ListNoDup.
    apply NoDup_fst_map_to_list.
  - symmetry. apply Permutation_rev.
Qed.

Lemma stateOfJson_jsonOfState (st : TreeState) : stateOfJson (jsonOfState st) = Some st.
Proof.
  destruct st as [key seen active ns cs]. unfold jsonOfState, stateOfJson.
  cbn [convoKey seenLinearCount activeId nodes collapsedIds].
  destruct (jget_state_fields (JStr key) (JNum seen) (JStr active)
              (JObj (prod_map Datatypes.id jsonOfNode <$> map_to_list ns))
              (JObj (prod_map Datatypes.id JBool <$> map_to_list cs)))
    as (-> & -> & -> & -> & ->).
  cbn [mbind option_bind asStr asNum].
  rewrite (asRecord_record nodeOfJson jsonOfNode) by apply nodeOfJson_jsonOfNode.
  cbn [mbind option_bind].
  rewrite (asRecord_record asBool JBool) by done. reflexivity.
Qed.

Lemma defaultCollapsedIds_jsonOfState (st : TreeState) :
  defaultCollapsedIds (jsonOfState st) = jsonOfState st.
Proof.
  unfold jsonOfState, defaultCollapsedIds.
  destruct (jget_state_fields (JStr (convoKey st)) (JNum (seenLinearCount st))
              (JStr (activeId st))
              (JObj (prod_map Datatypes.id jsonOfNode <$> map_to_list (nodes st)))
              (JObj (prod_map Datatypes.id JBool <$> map_to_list (collapsedIds st))))
    as (_ & _ & _ & _ & ->).
  reflexivity.
Qed.

(** What [saveTree] stores, [loadTree] returns. *)
Lemma loadTree_saveTree (storage : gmap jsstring jsstring) (st : TreeState) :
  loadTree (saveTree storage st) (convoKey st) = Some st.
Proof.
  unfold loadTree, saveTree. rewrite lookup_insert_eq. unfold safeJsonParse.
  cbn [mbind option_bind].
  destruct (stringify_head (jsonOfState st)) as (c & t & Hs & _).
  assert (truthy (stringify (jsonOfState st)) = true) as -> by by rewrite Hs.
  rewrite parseJSON_stringify. cbn [mbind option_bind].
  change (jfalsy (jsonOfState st)) with false. cbn iota.
  rewrite defaultCollapsedIds_jsonOfState. apply stateOfJson_jsonOfState.
Qed.

(** C6. Round-trip persistence. For every state, the stripped state is read
    back from its encoded form field for field: the JSON text of the
    stripped state parses to the value that was written, that value read as
    a [TreeState] is the stripped state (conversation key, seenLinearCount,
    activeId, every node with its id, parentId, children, depth, linearIndex
    and summary, and collapsedIds), and so [loadTree] after [saveTree]
    returns the stripped state; the markup fields of all its nodes are
    empty, and its other fields are those of the state. *)
Theorem persist_roundtrip (storage : gmap jsstring jsstring) (st : TreeState) :
  parseJSON (stringify (jsonOfState (stripTreeForPersist st)))
  = Some (jsonOfState (stripTreeForPersist st))
  ∧ stateOfJson (jsonOfState (stripTreeForPersist st)) = Some (stripTreeForPersist st)
  ∧ loadTree (saveTree storage (stripTreeForPersist st)) (convoKey st)
    = Some (stripTreeForPersist st)
  ∧ (∀ k n, nodes (stripTreeForPersist st) !! k = Some n →
       userHtml n = [] ∧ assistantHtml n = []
       ∧ ∃ n0, nodes st !! k = Some n0
               ∧ id n = id n0 ∧ parentId n = parentId n0
               ∧ children n = children n0 ∧ depth n = depth n0
               ∧ linearIndex n = linearIndex n0 ∧ summary n = summary n0)
  ∧ convoKey (stripTreeForPersist st) = convoKey st
  ∧ seenLinearCount (stripTreeForPersist st) = seenLinearCount st
  ∧ activeId (stripTreeForPersist st) = activeId st
  ∧ collapsedIds (stripTreeForPersist st) = collapsedIds st.
Proof.
  split; [apply parseJSON_stringify|].
  split; [apply stateOfJson_jsonOfState|].
  split; [apply (loadTree_saveTree storage (stripTreeForPersist st))|].
  split; [|done].
  intros k n Hk. cbn [stripTreeForPersist nodes] in Hk.
  rewrite lookup_fmap in Hk. destruct (nodes st !! k) as [n0|]; [|done].
  injection Hk as <-. split; [done|]. split; [done|]. exists n0. done.
Qed.

(** * Further properties *)

(** ** Tree integrity is kept *)

Lemma tree_ok_sound (st : TreeState) :
  tree_ok st = true
  ↔ is_Some (nodes st !! ROOT_ID) ∧ ∀ k n, nodes st !! k = Some n → soundNode st k n.
Proof.
  split.
  - intros Hok. split; [by apply tree_ok_root|]. intros k n Hk.
    destruct (tree_ok_node st k n Hok Hk) as (H1 & H2 & H3 & H4).
    split; [by eapply tree_ok_truthy|]. done.
  - intros [[r Hr] Hall]. unfold tree_ok. rewrite Hr. cbn [andb].
    apply forallb_forall. intros [k n] Hin.
    apply list_elem_of_In, elem_of_map_to_list in Hin.
    destruct (Hall k n Hin) as (Ht & Hid & Hd & Hch & Hpar).
    unfold nodeOk. cbn [fst snd]. rewrite Ht. cbn [andb].
    rewrite bool_decide_eq_true_2 by done. cbn [andb].
    rewrite (proj2 (Z.leb_le 0 (depth n)) Hd). cbn [andb].
    apply andb_true_iff. split.
    + apply forallb_forall. intros c Hc. apply list_elem_of_In in Hc.
      destruct (Hch c Hc) as (Hcr & cn & Hcn & Hcp). unfold childOk.
      rewrite bool_decide_eq_false_2 by done. rewrite Hcn. cbn [negb andb].
      by apply bool_decide_eq_true_2.
    + destruct (decide (k = ROOT_ID)) as [Hkr|Hkr].
      * by rewrite bool_decide_eq_true_2.
      * rewrite bool_decide_eq_false_2 by done. cbn [orb].
        destruct (Hpar Hkr) as (p & Hp & Hin' & Hdp). rewrite Hp.
        rewrite bool_decide_eq_true_2 by done. cbn [andb]. by apply Z.eqb_eq.
Qed.

Lemma freshId_not_root (idx : Z) (rnd : jsstring) : freshId idx rnd ≠ ROOT_ID.
Proof. unfold freshId. vm_compute. discriminate. Qed.

Lemma freshId_truthy (idx : Z) (rnd : jsstring) : truthy (freshId idx rnd) = true.
Proof. reflexivity. Qed.

(** One append, with an id that is not in the table, keeps a sound tree
    sound. *)
Lemma appendUnderActive_tree_ok (st st' : TreeState) (pair : option Pair) (idx : Z)
    (rnd : jsstring) :
  tree_ok st = true → nodes st !! freshId idx rnd = None →
  appendUnderActive st pair idx rnd = Some st' →
  tree_ok st' = true.
Proof.
  intros Hok Hfresh. unfold appendUnderActive.
  destruct (activeOrRoot st) as [p|] eqn:Hact; [|done].
  pose proof (activeOrRoot_parentKey st p Hact) as Hp.
  destruct pair as [pr|]; [|done]. cbn [mbind option_bind]. intros [= <-].
  set (i' := freshId idx rnd) in *.
  destruct (tree_ok_node st _ p Hok Hp) as (Hidp & Hdp & Hchp & Hparp).
  rewrite Hidp. set (pk := parentKey st) in *.
  assert (i' ≠ pk) as Hne by congruence.
  set (node := mkNode i' pk [] (depth p + 1) idx
                 (makeSummaryFromUserText (userText pr) 20)
                 (pairUserHtml pr) (pairAssistantHtml pr)).
  set (p' := withChildren p (children p ++ [i'])).
  set (m' := <[pk := p']> (<[i' := node]> (nodes st))).
  (* every old entry is still there, with the same parent and depth *)
  assert (∀ k n, nodes st !! k = Some n →
            ∃ n', m' !! k = Some n' ∧ parentId n' = parentId n
                  ∧ depth n' = depth n
                  ∧ ∀ c, c ∈ children n → c ∈ children n') as Hold.
  { intros k n Hk. destruct (decide (k = pk)) as [->|Hkp].
    - exists p'. unfold m'. rewrite lookup_insert_eq. rewrite Hp in Hk.
      injection Hk as <-. split; [done|]. split; [done|]. split; [done|].
      intros c Hc. cbn. apply elem_of_app. by left.
    - exists n. unfold m'. rewrite lookup_insert_ne by done.
      rewrite lookup_insert_ne by congruence. done. }
  apply tree_ok_sound. unfold soundNode. cbn [nodes]. fold i' node p' m'. split.
  { destruct (tree_ok_root st Hok) as [r Hr].
    destruct (Hold _ _ Hr) as (r' & Hr' & _). eauto. }
  intros k n Hk. unfold m' in Hk.
  destruct (decide (k = pk)) as [->|Hkp].
  - rewrite lookup_insert_eq in Hk. injection Hk as <-.
    split; [by eapply tree_ok_truthy|]. split; [done|]. split; [done|]. split.
    + intros c Hc. cbn in Hc. apply elem_of_app in Hc as [Hc|Hc].
      * destruct (Hchp c Hc) as (Hcr & cn & Hcn & Hcp). split; [done|].
        destruct (Hold _ _ Hcn) as (cn' & Hcn' & Hpar' & _).
        exists cn'. split; [done|]. congruence.
      * apply list_elem_of_singleton in Hc as ->. split; [apply freshId_not_root|].
        exists node. split; [|done]. unfold m'.
        rewrite lookup_insert_ne by done. by rewrite lookup_insert_eq.
    + intros Hr. destruct (Hparp Hr) as (pp & Hpp & Hin & Hd).
      destruct (Hold _ _ Hpp) as (pp' & Hpp' & _ & Hd' & Hch').
      exists pp'. split; [done|]. split; [by apply Hch'|]. cbn. lia.
  - rewrite lookup_insert_ne in Hk by done.
    destruct (decide (k = i')) as [->|Hki].
    + rewrite lookup_insert_eq in Hk. injection Hk as <-.
      split; [done|]. split; [done|]. split; [cbn; lia|]. split.
      * intros c Hc. by apply elem_of_nil in Hc.
      * intros _. exists p'. split; [unfold m'; by rewrite lookup_insert_eq|].
        split; [|done]. cbn. apply elem_of_app. right. left.
    + rewrite lookup_insert_ne in Hk by done.
      destruct (tree_ok_node st k n Hok Hk) as (Hid & Hd & Hch & Hpar).
      split; [by eapply tree_ok_truthy|]. split; [done|]. split; [done|]. split.
      * intros c Hc. destruct (Hch c Hc) as (Hcr & cn & Hcn & Hcp). split; [done|].
        destruct (Hold _ _ Hcn) as (cn' & Hcn' & Hpar' & _).
        exists cn'. split; [done|]. congruence.
      * intros Hr. destruct (Hpar Hr) as (pp & Hpp & Hin & Hdd).
        destruct (Hold _ _ Hpp) as (pp' & Hpp' & _ & Hd' & Hch').
        exists pp'. split; [done|]. split; [by apply Hch'|]. lia.
Qed.

Lemma appendUnderActive_absent (st st' : TreeState) (pair : option Pair) (idx : Z)
    (rnd k : jsstring) :
  tree_ok st = true → appendUnderActive st pair idx rnd = Some st' →
  nodes st !! k = None → k ≠ freshId idx rnd → nodes st' !! k = None.
Proof.
  intros Hok. unfold appendUnderActive.
  destruct (activeOrRoot st) as [p|] eqn:Hact; [|done].
  pose proof (activeOrRoot_parentKey st p Hact) as Hp.
  destruct pair as [pr|]; [|done]. cbn [mbind option_bind]. intros [= <-] Hk Hne.
  cbn [nodes]. destruct (tree_ok_node st _ p Hok Hp) as (-> & _).
  rewrite lookup_insert_ne by congruence. by rewrite lookup_insert_ne.
Qed.

Lemma appendLoop_tree_ok (pairs : list Pair) (rnd : nat → jsstring) (n : nat) :
  ∀ (k : nat) (i : Z) (st st' : TreeState),
    tree_ok st = true →
    (∀ j, (j < n)%nat → nodes st !! freshId (i + Z.of_nat j) (rnd (k + j)%nat) = None) →
    appendLoop n pairs rnd k i st = Some st' →
    tree_ok st' = true.
Proof.
  induction n as [|n IH]; intros k i st st' Hok Hfresh; cbn [appendLoop].
  - by intros [= <-].
  - destruct (appendUnderActive st (pairAt pairs i) i (rnd k)) as [mid|] eqn:Hmid;
      [|done]. cbn [mbind option_bind]. apply IH.
    + eapply appendUnderActive_tree_ok; [done| |exact Hmid].
      specialize (Hfresh 0%nat). rewrite Z.add_0_r, Nat.add_0_r in Hfresh.
      apply Hfresh. lia.
    + intros j Hj. eapply appendUnderActive_absent; [done|exact Hmid| |].
      * replace (i + 1 + Z.of_nat j) with (i + Z.of_nat (S j)) by lia.
        replace (S k + j)%nat with (k + S j)%nat by lia. apply Hfresh. lia.
      * intros Heq. apply freshId_inj in Heq. lia.
Qed.

(** X1. A pass of the reconciler keeps tree integrity: on a sound tree with
    a count that is not negative, whose cursor names a node or at least no
    member inherited from [Object.prototype], when the ids drawn are not in
    the table, the pass returns and its result is a sound tree again. *)
Theorem reconcile_keeps_integrity (st : TreeState) (pairs : list Pair)
    (rnd : nat → jsstring) :
  tree_ok st = true → 0 ≤ seenLinearCount st →
  is_Some (activeOrRoot st) →
  (∀ j, seenLinearCount st + Z.of_nat j < Z.of_nat (length pairs) →
        nodes st !! freshId (seenLinearCount st + Z.of_nat j) (rnd j) = None) →
  ∃ st', reconcile st pairs rnd = Some st' ∧ tree_ok st' = true.
Proof.
  intros Hok H0 Hact Hfresh.
  destruct (reconcile_total st pairs rnd H0 Hact) as [st' Hrec].
  exists st'. split; [done|]. revert Hrec. unfold reconcile.
  destruct (Z.of_nat (length pairs) <=? seenLinearCount st) eqn:E.
  - by intros [= <-].
  - apply Z.leb_gt in E. apply appendLoop_tree_ok; [done|].
    intros j Hj. apply Hfresh. lia.
Qed.

Lemma reconcile_keeps_integrity_witness :
  ∃ st', reconcile branched
           [mkPair [] [] [] []; mkPair [] [] [] []; mkPair [] [] [] [];
            mkPair [] [] [] []; mkPair [] [] [] []; mkPair (js "again") [] [] []]
           rndAb = Some st'
         ∧ tree_ok st' = true.
Proof.
  apply reconcile_keeps_integrity.
  - vm_compute. reflexivity.
  - vm_compute. discriminate.
  - vm_compute. eauto.
  - intros j Hj. assert (j = 0%nat) as -> by (cbn in Hj; lia).
    vm_compute. reflexivity.
Defined.

Lemma alignId_truthy (i : nat) : truthy (alignId i) = true.
Proof. reflexivity. Qed.

Lemma alignInv_keys (pairs : list Pair) (n : nat) (s : gmap jsstring TreeNode * jsstring)
    (k : jsstring) :
  alignInv pairs n s → is_Some (s.1 !! k) →
  k = ROOT_ID ∨ ∃ i, (i < n)%nat ∧ k = alignId i.
Proof.
  intros (_ & _ & _ & Hnone & _) [nd Hk].
  destruct (decide (k = ROOT_ID)) as [|Hkr]; [by left|]. right.
  destruct (decide (Exists (fun i => k = alignId i) (seq 0 n))) as [Hex|Hnex].
  - apply Exists_exists in Hex as (i & Hi & ->). exists i. split; [|done].
    apply elem_of_seq in Hi. lia.
  - exfalso. rewrite Hnone in Hk; [done|done|].
    intros i Hi ->. apply Hnex. apply Exists_exists. exists i.
    split; [|done]. apply elem_of_seq. lia.
Qed.

(** X2. The aligner returns a sound tree whose cursor resolves, and a pass
    of the reconciler over the same pairs right after it changes nothing. *)
Theorem align_sound (key : jsstring) (pairs : list Pair) (rnd : nat → jsstring) :
  ∃ st, buildAlignedLinearTreeFromPairs key pairs = Some st
        ∧ tree_ok st = true
        ∧ is_Some (nodes st !! activeId st)
        ∧ reconcile st pairs rnd = Some st.
Proof.
  destruct (alignLoop_inv pairs (length pairs) 0 _ (alignInv_init pairs))
    as ([m pid] & Hfold & Hinv).
  pose proof Hinv as (Hpid & Hroot & Hnodes & Hnone & Hsize).
  cbn [fst snd] in Hpid, Hroot, Hnodes, Hnone, Hsize. simpl in Hinv.
  unfold buildAlignedLinearTreeFromPairs. rewrite Hfold. cbn [mbind option_bind].
  eexists. split; [reflexivity|]. split; [|split].
  - apply tree_ok_sound. unfold soundNode. cbn [nodes]. split; [eauto|].
    intros k nd Hk.
    destruct (alignInv_keys pairs _ (m, pid) k Hinv) as [->|(i & Hi & ->)]; [eauto| |].
    + rewrite Hroot in Hk. injection Hk as <-.
      split; [done|]. split; [done|]. split; [done|]. split; [|done].
      intros c Hc. cbn [children depth parentId id alignedRoot alignedNode withChildren rootNode] in Hc. destruct (0 <? length pairs)%nat eqn:E.
      * apply Nat.ltb_lt in E. apply list_elem_of_singleton in Hc as ->.
        split; [apply alignId_not_root|]. exists (alignedNode pairs (length pairs) 0).
        split; [by apply Hnodes|done].
      * by apply elem_of_nil in Hc.
    + rewrite (Hnodes i Hi) in Hk. injection Hk as <-.
      split; [done|]. split; [done|]. split; [cbn [children depth parentId id alignedRoot alignedNode withChildren rootNode]; lia|]. split.
      * intros c Hc. cbn [children depth parentId id alignedRoot alignedNode withChildren rootNode] in Hc. destruct (S i <? length pairs)%nat eqn:E.
        -- apply Nat.ltb_lt in E. apply list_elem_of_singleton in Hc as ->.
           split; [apply alignId_not_root|].
           exists (alignedNode pairs (length pairs) (S i)).
           split; [by apply Hnodes|done].
        -- by apply elem_of_nil in Hc.
      * intros _. destruct i as [|i'].
        -- exists (alignedRoot (length pairs)). split; [done|]. cbn [children depth parentId id alignedRoot alignedNode withChildren rootNode].
           rewrite (proj2 (Nat.ltb_lt 0 (length pairs))) by lia.
           split; [left|lia].
        -- exists (alignedNode pairs (length pairs) i'). split; [apply Hnodes; lia|].
           cbn [children depth parentId id alignedRoot alignedNode withChildren rootNode]. rewrite (proj2 (Nat.ltb_lt (S i') (length pairs))) by lia.
           split; [left|lia].
  - cbn [nodes activeId]. destruct (length pairs) as [|n'] eqn:E.
    + cbn [Nat.ltb Nat.leb]. rewrite Hroot. eauto.
    + rewrite (proj2 (Nat.ltb_lt 0 (S n'))) by lia.
      rewrite Hnodes by lia. eauto.
  - unfold reconcile. cbn [seenLinearCount]. by rewrite Z.leb_refl.
Qed.

(** ** What a deletion removes *)

Lemma collected_nil (st : TreeState) : collected st [] [].
Proof.
  repeat split; intros; exfalso; eapply not_elem_of_nil; eassumption.
Qed.

Lemma collected_app (st : TreeState) (c : jsstring) (cs add1 add2 : list jsstring) :
  collected st [c] add1 → collected st cs add2 → collected st (c :: cs) (add1 ++ add2).
Proof.
  intros (A1 & A2 & A3 & A4) (B1 & B2 & B3 & B4). repeat split.
  - intros x Hx Hin. apply elem_of_app. apply elem_of_cons in Hx as [->|Hx].
    + left. apply A1; [left|done].
    + right. by apply B1.
  - intros x Hx. apply elem_of_app in Hx as [Hx|Hx]; [by apply A2 | by apply B2].
  - intros k n x Hk Hn Hx Hin. apply elem_of_app.
    apply elem_of_app in Hk as [Hk|Hk]; [left; by eapply A3 | right; by eapply B3].
  - intros x Hx. apply elem_of_app in Hx as [Hx|Hx].
    + destruct (A4 x Hx) as [Hs|(y & yn & Hy & Hyn & Hc)].
      * apply list_elem_of_singleton in Hs as ->. left. left.
      * right. exists y, yn. split; [apply elem_of_app; by left|done].
    + destruct (B4 x Hx) as [Hs|(y & yn & Hy & Hyn & Hc)].
      * left. by right.
      * right. exists y, yn. split; [apply elem_of_app; by right|done].
Qed.

Lemma collectDfs_collected (st : TreeState) (fuel : nat) :
  ∀ i res res', collectDfs fuel st i res = Some res' →
    ∃ added, res' = res ++ added ∧ collected st [i] added.
Proof.
  induction fuel as [|f IH]; intros i res res'; [done|]. cbn [collectDfs].
  destruct (nodes st !! i) as [n|] eqn:Hn.
  - assert (∀ cs acc r, foldM (fun acc c => collectDfs f st c acc) acc cs = Some r →
              ∃ added, r = acc ++ added ∧ collected st cs added) as Hfold.
    { induction cs as [|c cs IHcs]; intros acc r; cbn [foldM].
      - intros [= <-]. exists []. split; [by rewrite app_nil_r | apply collected_nil].
      - destruct (collectDfs f st c acc) as [a1|] eqn:Hc; [|done].
        cbn [mbind option_bind]. intros Hr.
        destruct (IH _ _ _ Hc) as (add1 & -> & Hcol1).
        destruct (IHcs _ _ Hr) as (add2 & -> & Hcol2).
        exists (add1 ++ add2). split; [by rewrite app_assoc|].
        by apply collected_app. }
    intros Hr. destruct (Hfold _ _ _ Hr) as (addc & -> & (C1 & C2 & C3 & C4)).
    exists (i :: addc). split; [by rewrite <- app_assoc|]. repeat split.
    + intros c Hc _. apply list_elem_of_singleton in Hc as ->. left.
    + intros x Hx. apply elem_of_cons in Hx as [->|Hx]; [eauto | by apply C2].
    + intros k nk c Hk Hnk Hc Hin. right.
      apply elem_of_cons in Hk as [->|Hk].
      * rewrite Hn in Hnk. injection Hnk as <-. by apply C1.
      * by eapply C3.
    + intros x Hx. apply elem_of_cons in Hx as [->|Hx]; [left; left|].
      right. destruct (C4 x Hx) as [Hs|(y & yn & Hy & Hyn & Hc)].
      * exists i, n. split; [left|done].
      * exists y, yn. split; [by right|done].
  - intros [= <-]. exists []. split; [by rewrite app_nil_r|].
    repeat split; try (intros; exfalso; eapply not_elem_of_nil; eassumption).
    intros c Hc Hin. apply list_elem_of_singleton in Hc as ->.
    rewrite Hn in Hin. by destruct Hin.
Qed.

Lemma collectSubtreeIds_collected (st : TreeState) (fuel : nat) (i : jsstring)
    (ids : list jsstring) :
  collectSubtreeIds fuel st i = Some ids → collected st [i] ids.
Proof.
  intros H. destruct (collectDfs_collected st fuel i [] ids H) as (added & -> & Hc).
  exact Hc.
Qed.

(** X3. What a deletion removes, on every state: the ids collected from a
    valid target hold the target and, with every node, its children that
    are in the table; after the deletion none of them is a key of the nodes
    table or of collapsedIds, every other flag is kept, and every other
    node is kept as it was, but for the parent of the target, which no
    longer lists it. *)
Theorem deleteSubtree_removes (fuel : nat) (st st' : TreeState) (targetId : jsstring)
    (target : TreeNode) :
  nodes st !! targetId = Some target → targetId ≠ ROOT_ID →
  deleteSubtree fuel st targetId = Some st' →
  ∃ ids, collectSubtreeIds fuel st targetId = Some ids
    ∧ collected st [targetId] ids
    ∧ targetId ∈ ids
    ∧ (∀ k, k ∈ ids → nodes st' !! k = None ∧ collapsedIds st' !! k = None)
    ∧ (∀ k, k ∉ ids → collapsedIds st' !! k = collapsedIds st !! k)
    ∧ (∀ k, k ∉ ids → k ≠ parentId target → nodes st' !! k = nodes st !! k)
    ∧ (∀ p, nodes st' !! parentId target = Some p →
         (targetId ∉ children p)
         ∧ ∃ p0, nodes st !! parentId target = Some p0
                 ∧ p = withChildren p0 (filter (fun c => c ≠ targetId) (children p0))).
Proof.
  intros Ht Hne Hdel.
  destruct (deleteSubtree_valid fuel st st' targetId target Ht Hne Hdel)
    as (ids & m0 & Hids & Hm0 & Hn & _ & Hc & _).
  pose proof (collectSubtreeIds_collected st fuel _ _ Hids) as Hcol.
  assert (∀ k, m0 !! k = if bool_decide (k ∈ ids) then None else nodes st !! k) as Hm0l.
  { intros k. rewrite Hm0. apply lookup_foldl_delete. }
  exists ids. split; [done|]. split; [done|]. split.
  { destruct Hcol as (C1 & _). apply C1; [left | eauto]. }
  split.
  { intros k Hk. split.
    - rewrite Hn. destruct (nodes st !! parentId target) as [p|] eqn:Hp;
        [destruct (m0 !! parentId target) as [p'|] eqn:Hp'|];
        try (rewrite Hm0l; by rewrite bool_decide_eq_true_2).
      rewrite lookup_insert_ne.
      + rewrite Hm0l. by rewrite bool_decide_eq_true_2.
      + intros <-. rewrite Hm0l in Hp'. by rewrite bool_decide_eq_true_2 in Hp'.
    - rewrite Hc. apply map_lookup_filter_None. right. intros b _ Hnin.
      apply Hnin. cbn. by apply elem_of_list_to_set. }
  split.
  { intros k Hk. rewrite Hc.
    destruct (collapsedIds st !! k) as [b|] eqn:Hb.
    - apply map_lookup_filter_Some. split; [done|]. cbn.
      by rewrite elem_of_list_to_set.
    - apply map_lookup_filter_None. by left. }
  split.
  { intros k Hk Hkp. rewrite Hn.
    destruct (nodes st !! parentId target) as [p|] eqn:Hp;
      [destruct (m0 !! parentId target) as [p'|] eqn:Hp'|];
      rewrite ?lookup_insert_ne by done; rewrite Hm0l;
      by rewrite bool_decide_eq_false_2. }
  intros p Hp'. rewrite Hn in Hp'.
  destruct (nodes st !! parentId target) as [p0|] eqn:Hp0.
  - destruct (m0 !! parentId target) as [p1|] eqn:Hp1.
    + rewrite lookup_insert_eq in Hp'. injection Hp' as <-. split; [|eauto].
      cbn. intros Hin. apply list_elem_of_filter in Hin as [Hin _]. done.
    + rewrite Hp1 in Hp'. done.
  - rewrite Hm0l in Hp'. case_bool_decide; [done|]. rewrite Hp0 in Hp'. done.
Qed.

Lemma deleteSubtree_removes_witness :
  ∃ ids, collectSubtreeIds 5 branched (js "n_1_b2") = Some ids
    ∧ collected branched [js "n_1_b2"] ids
    ∧ js "n_1_b2" ∈ ids.
Proof.
  assert (nodes branched !! js "n_1_b2"
          = Some (turnNode (js "n_1_b2") (js "n_0_a1") [js "n_2_c3"] 2 1)) as H1
    by (vm_compute; reflexivity).
  assert (js "n_1_b2" ≠ ROOT_ID) as H2 by (vm_compute; discriminate).
  assert (∃ st', deleteSubtree 5 branched (js "n_1_b2") = Some st') as [st' H3]
    by (vm_compute; eauto).
  destruct (deleteSubtree_removes 5 branched st' (js "n_1_b2") _ H1 H2 H3)
    as (ids & Hids & Hcol & Hin & _).
  exists ids. done.
Defined.

Lemma deleteSubtree_sound (fuel : nat) (st st' : TreeState)
    (targetId : jsstring) (target : TreeNode) :
  tree_ok st = true →
  nodes st !! targetId = Some target → targetId ≠ ROOT_ID →
  deleteSubtree fuel st targetId = Some st' →
  tree_ok st' = true.
Proof.
  intros Hok Ht Hne Hdel.
  destruct (deleteSubtree_valid fuel st st' targetId target Ht Hne Hdel)
    as (ids & m0 & Hids & Hm0 & Hn & Ha & _).
  destruct (collectSubtreeIds_collected st fuel _ _ Hids) as (C1 & C2 & C3 & C4).
  destruct (deleteSubtree_parent_survives fuel st targetId target ids Hok Ht Hne Hids)
    as (Hpnin & Hrnin & [p0 Hp0]).
  assert (∀ k, m0 !! k = if bool_decide (k ∈ ids) then None else nodes st !! k) as Hm0l.
  { intros k. rewrite Hm0. apply lookup_foldl_delete. }
  set (pk := parentId target) in *.
  set (p' := withChildren p0 (filter (fun c => c ≠ targetId) (children p0))).
  assert (nodes st' = <[pk := p']> m0) as Hn'.
  { rewrite Hn, Hp0, Hm0l. rewrite bool_decide_eq_false_2 by done. by rewrite Hp0. }
  (* a surviving entry keeps its parent and depth, and its children but the target *)
  assert (∀ k n, nodes st !! k = Some n → k ∉ ids →
            ∃ n', nodes st' !! k = Some n' ∧ parentId n' = parentId n
                  ∧ depth n' = depth n ∧ id n' = id n
                  ∧ (∀ c, c ∈ children n → c ≠ targetId → c ∈ children n')
                  ∧ (∀ c, c ∈ children n' → c ∈ children n ∧ c ∉ ids)) as Hkeep.
  { intros k n Hk Hnin.
    assert (∀ c, c ∈ children n → c ∈ ids → c = targetId) as Hchild.
    { intros c Hc Hcin. destruct (C4 c Hcin) as [Hs|(y & yn & Hy & Hyn & Hcy)].
      - by apply list_elem_of_singleton in Hs.
      - exfalso. destruct (tree_ok_child st k c n Hok Hk Hc) as (_ & cn & Hcn & Hcp & _).
        destruct (tree_ok_child st y c yn Hok Hyn Hcy) as (_ & cn' & Hcn' & Hcp' & _).
        rewrite Hcn in Hcn'. injection Hcn' as <-. congruence. }
    destruct (decide (k = pk)) as [->|Hkp].
    - exists p'. rewrite Hn', lookup_insert_eq. rewrite Hp0 in Hk. injection Hk as <-.
      split; [done|]. split; [done|]. split; [done|]. split; [done|]. split.
      + intros c Hc Hct. cbn. apply list_elem_of_filter. done.
      + intros c Hc. cbn in Hc. apply list_elem_of_filter in Hc as [Hct Hc].
        split; [done|]. intros Hcin. by apply Hct, Hchild.
    - exists n. rewrite Hn', lookup_insert_ne by done. rewrite Hm0l.
      rewrite bool_decide_eq_false_2 by done.
      split; [done|]. split; [done|]. split; [done|]. split; [done|]. split; [done|].
      intros c Hc. split; [done|]. intros Hcin.
      pose proof (Hchild c Hc Hcin) as ->.
      destruct (tree_ok_child st k _ n Hok Hk Hc) as (_ & cn & Hcn & Hcp & _).
      rewrite Ht in Hcn. injection Hcn as <-. done. }
  assert (∀ k n', nodes st' !! k = Some n' →
            ∃ n, nodes st !! k = Some n ∧ k ∉ ids) as Hfrom.
  { intros k n' Hk. rewrite Hn' in Hk. destruct (decide (k = pk)) as [->|Hkp]; [eauto|].
    rewrite lookup_insert_ne in Hk by done. rewrite Hm0l in Hk.
    case_bool_decide; [done|]. eauto. }
  assert (tree_ok st' = true) as Hok'.
  { apply tree_ok_sound. split.
    - destruct (tree_ok_root st Hok) as [r Hr].
      destruct (Hkeep _ _ Hr Hrnin) as (r' & Hr' & _). eauto.
    - intros k n' Hk. destruct (Hfrom k n' Hk) as (n & Hkn & Hnin).
      destruct (Hkeep k n Hkn Hnin) as (n'' & Hk'' & Hpar & Hd & Hid & Hch1 & Hch2).
      rewrite Hk in Hk''. injection Hk'' as <-.
      destruct (tree_ok_node st k n Hok Hkn) as (Hidn & Hdn & Hchn & Hparn).
      split; [by eapply tree_ok_truthy|]. split; [congruence|]. split; [lia|]. split.
      + intros c Hc. destruct (Hch2 c Hc) as [Hcn Hcnin].
        destruct (Hchn c Hcn) as (Hcr & cn & Hcn' & Hcp). split; [done|].
        destruct (Hkeep c cn Hcn' Hcnin) as (cn'' & Hc'' & Hcpar & _).
        exists cn''. split; [done|]. congruence.
      + intros Hkr. destruct (Hparn Hkr) as (pp & Hpp & Hin & Hdd).
        assert (parentId n ∉ ids) as Hppnin.
        { intros Hin'. apply Hnin. eapply C3; eauto. }
        destruct (Hkeep _ pp Hpp Hppnin) as (pp' & Hpp' & _ & Hdp & _ & Hchp & _).
        rewrite Hpar. exists pp'. split; [done|]. split; [|lia].
        apply Hchp; [done|]. intros ->. apply Hnin.
        apply C1; [left|eauto]. }
  exact Hok'.
Qed.

(** On a sound tree a deletion removes its target and leaves the cursor on
    the parent of the target, which is still in the table. *)
Lemma deleteSubtree_gone (fuel : nat) (st st' : TreeState) (targetId : jsstring)
    (target : TreeNode) :
  tree_ok st = true →
  nodes st !! targetId = Some target → targetId ≠ ROOT_ID →
  deleteSubtree fuel st targetId = Some st' →
  nodes st' !! targetId = None ∧ activeId st' = parentId target
  ∧ convoKey st' = convoKey st ∧ is_Some (nodes st' !! parentId target).
Proof.
  intros Hok Ht Hne Hdel.
  destruct (deleteSubtree_valid fuel st st' targetId target Ht Hne Hdel)
    as (ids & m0 & Hids & Hm0 & Hn & Ha & _ & _ & Hkey).
  destruct (collectSubtreeIds_collected st fuel _ _ Hids) as (C1 & _).
  destruct (deleteSubtree_parent_survives fuel st targetId target ids Hok Ht Hne Hids)
    as (Hpnin & _ & [p Hp]).
  assert (targetId ∈ ids) as Hin by (apply C1; [left|eauto]).
  assert (m0 !! parentId target = Some p) as Hm0p.
  { rewrite Hm0, lookup_foldl_delete. by rewrite bool_decide_eq_false_2. }
  rewrite Hp, Hm0p in Hn. split; [|split; [|split; [done|]]].
  - rewrite Hn, lookup_insert_ne by (intros Heq; apply Hpnin; by rewrite Heq).
    rewrite Hm0, lookup_foldl_delete. by rewrite bool_decide_eq_true_2.
  - rewrite Ha, Hn. by rewrite lookup_insert_eq.
  - rewrite Hn, lookup_insert_eq. eauto.
Qed.

(** X4. A deletion keeps tree integrity: deleting a valid target from a
    sound tree gives a sound tree, with the root still there and the cursor
    on a node of the table. *)
Theorem deleteSubtree_keeps_integrity (fuel : nat) (st st' : TreeState)
    (targetId : jsstring) (target : TreeNode) :
  tree_ok st = true →
  nodes st !! targetId = Some target → targetId ≠ ROOT_ID →
  deleteSubtree fuel st targetId = Some st' →
  tree_ok st' = true ∧ is_Some (nodes st' !! activeId st').
Proof.
  intros Hok Ht Hne Hdel. split.
  - by apply (deleteSubtree_sound fuel st st' targetId target).
  - destruct (deleteSubtree_gone fuel st st' targetId target Hok Ht Hne Hdel)
      as (_ & Ha & _ & Hp).
    by rewrite Ha.
Qed.

Lemma deleteSubtree_keeps_integrity_witness :
  ∃ st', deleteSubtree 5 branched (js "n_1_b2") = Some st'
         ∧ tree_ok st' = true ∧ is_Some (nodes st' !! activeId st').
Proof.
  assert (tree_ok branched = true) as H0 by (vm_compute; reflexivity).
  assert (nodes branched !! js "n_1_b2"
          = Some (turnNode (js "n_1_b2") (js "n_0_a1") [js "n_2_c3"] 2 1)) as H1
    by (vm_compute; reflexivity).
  assert (js "n_1_b2" ≠ ROOT_ID) as H2 by (vm_compute; discriminate).
  assert (∃ st', deleteSubtree 5 branched (js "n_1_b2") = Some st') as [st' H3]
    by (vm_compute; eauto).
  exists st'. split; [exact H3|].
  exact (deleteSubtree_keeps_integrity 5 branched st' (js "n_1_b2") _ H0 H1 H2 H3).
Defined.

(** ** Passes of the reconciler compose *)

(** X5. A pass that returns leaves seenLinearCount at the larger of its old
    value and [pairs.length], and a second pass over the same pairs (with
    any random draws) or over fewer pairs changes nothing: the pass is safe
    to run redundantly. *)
Theorem reconcile_idempotent (st st' : TreeState) (pairs : list Pair)
    (rnd : nat → jsstring) :
  reconcile st pairs rnd = Some st' →
  seenLinearCount st' = Z.max (seenLinearCount st) (Z.of_nat (length pairs))
  ∧ ∀ pairs' rnd', (length pairs' ≤ length pairs)%nat →
      reconcile st' pairs' rnd' = Some st'.
Proof.
  intros Hrec.
  assert (seenLinearCount st' = Z.max (seenLinearCount st) (Z.of_nat (length pairs)))
    as Hseen.
  { revert Hrec. unfold reconcile.
    destruct (Z.of_nat (length pairs) <=? seenLinearCount st) eqn:E.
    - apply Z.leb_le in E. intros [= <-]. lia.
    - apply Z.leb_gt in E. intros Hloop.
      destruct (appendLoop_nodes _ _ _ _ _ _ _ Hloop) as (Hs & _).
      rewrite Hs; lia. }
  split; [done|]. intros pairs' rnd' Hlen. unfold reconcile.
  rewrite (proj2 (Z.leb_le _ _)); [done|]. lia.
Qed.

Lemma reconcile_idempotent_witness :
  ∃ st', reconcile (freshTree (js "c_1")) onePair rndAb = Some st'
         ∧ seenLinearCount st' = 1
         ∧ reconcile st' onePair (fun _ => js "cd") = Some st'.
Proof.
  assert (∃ st', reconcile (freshTree (js "c_1")) onePair rndAb = Some st')
    as [st' H] by (vm_compute; eauto).
  destruct (reconcile_idempotent _ _ _ _ H) as [Hs Hi].
  exists st'. split; [exact H|]. split; [exact Hs|]. apply Hi. reflexivity.
Defined.

(** ** The walk to the root on any table *)

Lemma keepWalking_inv (guard : gset jsstring) (c : jsstring) :
  keepWalking guard c = true → c ≠ ROOT_ID ∧ c ∉ guard.
Proof.
  unfold keepWalking. intros H. apply andb_true_iff in H as [H Hg].
  apply andb_true_iff in H as [_ Hr]. apply negb_true_iff in Hr, Hg.
  apply bool_decide_eq_false in Hr, Hg. done.
Qed.

Lemma pathLoop_walk (st : TreeState) (fuel : nat) :
  idsConsistent st →
  ∀ guard cur out out', pathLoop fuel st guard cur out = Some out' →
    ∃ added, out' = out ++ added
      ∧ chained st cur added
      ∧ NoDup (idsOf added)
      ∧ ∀ n, n ∈ added → id n ∉ guard.
Proof.
  intros Hids. induction fuel as [|f IH]; intros guard cur out out'; [done|].
  cbn [pathLoop]. destruct (keepWalking guard cur) eqn:Hw.
  - destruct (keepWalking_inv _ _ Hw) as [Hr Hg].
    destruct (nodes st !! cur) as [n|] eqn:Hn.
    + intros Hrec. destruct (IH _ _ _ _ Hrec) as (added & -> & Hch & Hnd & Hgd).
      pose proof (Hids _ _ Hn) as Hid.
      exists (n :: added). split; [by rewrite <- app_assoc|]. split; [done|]. split.
      * cbn. constructor; [|done]. intros Hin. unfold idsOf in Hin.
        apply list_elem_of_In, in_map_iff in Hin as (n' & Hn' & Hin').
        apply list_elem_of_In in Hin'. apply (Hgd n' Hin').
        apply elem_of_union. left. apply elem_of_singleton. congruence.
      * intros n' Hn'. apply elem_of_cons in Hn' as [->|Hn']; [by rewrite Hid|].
        intros Hin. apply (Hgd n' Hn'). apply elem_of_union. by right.
    + intros [= <-]. exists []. rewrite app_nil_r. repeat split; try constructor.
      intros n Hn'. by apply elem_of_nil in Hn'.
  - intros [= <-]. exists []. rewrite app_nil_r. repeat split; try constructor.
    intros n Hn'. by apply elem_of_nil in Hn'.
Qed.

Lemma chained_in_table (st : TreeState) (cur : jsstring) (l : list TreeNode) :
  idsConsistent st → chained st cur l →
  ∀ n, n ∈ l → id n ≠ ROOT_ID ∧ nodes st !! id n = Some n.
Proof.
  intros Hids. revert cur. induction l as [|x l IH]; intros cur Hch n Hn.
  - by apply elem_of_nil in Hn.
  - destruct Hch as (Hr & Hx & Hch). apply elem_of_cons in Hn as [->|Hn].
    + rewrite (Hids _ _ Hx). done.
    + by eapply IH.
Qed.

(** X6. The path to the root on every table whose nodes are stored under
    their own id, cyclic parent links included: [pathToRoot] is the reverse
    of a walk from the active node along [parentId]; it never lists the
    root, lists no node twice, holds nodes of the table only and so at most
    as many as the table has. *)
Theorem pathToRoot_guarded (st : TreeState) :
  idsConsistent st →
  chained st (activeId st) (rev (pathToRoot st))
  ∧ NoDup (idsOf (pathToRoot st))
  ∧ (∀ n, n ∈ pathToRoot st → id n ≠ ROOT_ID ∧ nodes st !! id n = Some n)
  ∧ (length (pathToRoot st) ≤ size (nodes st))%nat.
Proof.
  intros Hids. pose proof (pathToRoot_returns st) as Hret.
  destruct (pathLoop_walk st _ Hids _ _ _ _ Hret) as (added & Hadd & Hch & Hnd & _).
  rewrite app_nil_l in Hadd. rewrite Hadd.
  assert (pathToRoot st = rev added) as Hp.
  { by rewrite <- Hadd, rev_involutive. }
  assert (∀ n, n ∈ pathToRoot st → id n ≠ ROOT_ID ∧ nodes st !! id n = Some n) as Hin.
  { intros n Hn. rewrite Hp, elem_of_rev in Hn.
    exact (chained_in_table st (activeId st) added Hids Hch n Hn). }
  assert (NoDup (idsOf (pathToRoot st))) as Hnd'.
  { rewrite Hp. unfold idsOf in *. rewrite map_rev.
    apply NoDup_ListNoDup, NoDup_rev, NoDup_ListNoDup. exact Hnd. }
  split; [done|]. split; [done|]. split; [done|].
  rewrite <- (length_map id). change (map id (pathToRoot st)) with (idsOf (pathToRoot st)).
  rewrite <- size_dom.
  rewrite <- (size_list_to_set (C := gset jsstring) (idsOf (pathToRoot st))) by done.
  apply subseteq_size. intros x Hx. apply elem_of_list_to_set in Hx.
  unfold idsOf in Hx. apply list_elem_of_In, in_map_iff in Hx as (n & <- & Hn).
  apply list_elem_of_In in Hn. apply elem_of_dom. destruct (Hin n Hn) as [_ ->]. eauto.
Qed.

Lemma pathToRoot_guarded_witness :
  idsOf (pathToRoot cyclic) = [js "n_1_b2"; js "n_0_a1"]
  ∧ NoDup (idsOf (pathToRoot cyclic))
  ∧ (length (pathToRoot cyclic) ≤ size (nodes cyclic))%nat.
Proof.
  assert (idsConsistent cyclic) as Hids.
  { intros k n Hk. unfold cyclic in Hk. cbn [nodes] in Hk.
    repeat (apply lookup_insert_Some in Hk as [[<- <-]|[_ Hk]]; [reflexivity|]).
    by rewrite lookup_empty in Hk. }
  destruct (pathToRoot_guarded cyclic Hids) as (_ & Hnd & _ & Hlen).
  split; [vm_compute; reflexivity|]. split; [exact Hnd | exact Hlen].
Defined.

(** ** Visibility *)

Lemma hiddenLoop_no_flags (st : TreeState) (fuel : nat) :
  (∀ p, isCollapsed st p = false) →
  ∀ guard cur b, hiddenLoop fuel st guard cur = Some b → b = false.
Proof.
  intros Hno. induction fuel as [|f IH]; intros guard cur b; [done|].
  cbn [hiddenLoop]. destruct (keepWalking guard cur); [|by intros [= <-]].
  destruct (nodes st !! cur) as [n|]; [|by intros [= <-]].
  rewrite Hno, andb_false_r. apply IH.
Qed.

Lemma filter_all {A : Type} (P : A → Prop) `{!∀ x, Decision (P x)} (l : list A) :
  (∀ x, x ∈ l → P x) → filter P l = l.
Proof.
  induction l as [|x l IH]; intros Hall; [done|].
  rewrite filter_cons_True by (apply Hall; left).
  rewrite IH; [done|]. intros y Hy. apply Hall. by right.
Qed.

(** X7. After [expandAllNodes] nothing is hidden, on every state: the flags
    are empty, [isHiddenByCollapsed] answers false for every id, and the
    listing shown is the whole listing of [flattenTree]; the nodes, the
    cursor and the count are untouched. *)
Theorem expandAllNodes_shows_all (fuel : nat) (st : TreeState) :
  (∀ i, isHiddenByCollapsed (expandAllNodes st) i = false)
  ∧ flatNodes fuel (expandAllNodes st) = flattenTree fuel st
  ∧ collapsedIds (expandAllNodes st) = ∅
  ∧ nodes (expandAllNodes st) = nodes st
  ∧ activeId (expandAllNodes st) = activeId st
  ∧ seenLinearCount (expandAllNodes st) = seenLinearCount st.
Proof.
  assert (∀ i, isHiddenByCollapsed (expandAllNodes st) i = false) as Hno.
  { intros i. pose proof (isHiddenByCollapsed_returns (expandAllNodes st) i) as H.
    eapply hiddenLoop_no_flags; [|exact H].
    intros p. unfold isCollapsed, expandAllNodes. cbn [collapsedIds].
    by rewrite lookup_empty. }
  split; [done|]. split; [|done].
  unfold flatNodes, flattenTree. rewrite (flattenDfs_ext st (expandAllNodes st)) by done.
  destruct (flattenDfs fuel st ROOT_ID []) as [l|]; [|done].
  cbn [fmap option_fmap option_map]. f_equal. apply filter_all. intros x _. apply Hno.
Qed.

Lemma upPath_head (st : TreeState) (k : jsstring) (l : list jsstring) :
  upPath st k l → (k = ROOT_ID ∧ l = []) ∨ ∃ l', l = k :: l'.
Proof. intros Hup. inversion Hup; subst; [by left | right; eauto]. Qed.

Section hidden.

Variable st : TreeState.
Hypothesis Hok : tree_ok st = true.

Lemma upPath_parent_truthy (k : jsstring) (n : TreeNode) :
  nodes st !! k = Some n → k ≠ ROOT_ID → truthy (parentId n) = true.
Proof using Hok.
  intros Hk Hne. destruct (tree_ok_node st k n Hok Hk) as (_ & _ & _ & Hpar).
  destruct (Hpar Hne) as (p & Hp & _). by eapply tree_ok_truthy.
Qed.

Lemma hiddenLoop_ancestors (k : jsstring) (l : list jsstring) :
  upPath st k l →
  ∀ fuel guard, (length l < fuel)%nat → (∀ x, x ∈ l → x ∉ guard) →
    hiddenLoop fuel st guard k = Some (existsb (isCollapsed st) (ancestorsOf l)).
Proof using Hok.
  intros Hup. pose proof (upPath_NoDup st Hok _ _ Hup) as Hnd. revert Hnd.
  induction Hup as [|k n l Hne Hk Hup IH]; intros Hnd fuel guard Hf Hg.
  - destruct fuel as [|f]; [simpl in Hf; lia|]. cbn [hiddenLoop].
    by rewrite keepWalking_root.
  - destruct fuel as [|f]; [simpl in Hf; lia|]. cbn [hiddenLoop].
    rewrite keepWalking_true; [|by eapply tree_ok_truthy|done|apply Hg; left].
    rewrite Hk, (upPath_parent_truthy k n Hk Hne). cbn [andb ancestorsOf].
    apply NoDup_cons in Hnd as [Hknin Hnd].
    assert (existsb (isCollapsed st) (l ++ [ROOT_ID])
            = isCollapsed st (parentId n)
              || existsb (isCollapsed st) (ancestorsOf l)) as ->.
    { destruct (upPath_head st _ _ Hup) as [[-> ->]|[l' ->]].
      - cbn. by rewrite orb_false_r.
      - reflexivity. }
    destruct (isCollapsed st (parentId n)); [done|]. cbn [orb].
    apply IH; [done|simpl in Hf; lia|].
    intros x Hx. apply not_elem_of_union. split.
    + apply not_elem_of_singleton. by intros ->.
    + apply Hg. by right.
Qed.

End hidden.

(** X8. Visibility on a sound tree: a node of the table is hidden exactly
    when one of its strict ancestors (the nodes above it on its path to the
    root, the root included) is flagged collapsed; its own flag does not
    hide it. An id that is not in the table is never hidden, on any state. *)
Theorem isHidden_iff_ancestor_collapsed (st : TreeState) (k : jsstring) :
  (nodes st !! k = None → isHiddenByCollapsed st k = false)
  ∧ (tree_ok st = true → is_Some (nodes st !! k) →
     ∃ l, upPath st k l
          ∧ isHiddenByCollapsed st k = existsb (isCollapsed st) (ancestorsOf l)).
Proof.
  split.
  - intros Hk. unfold isHiddenByCollapsed. cbn [hiddenLoop].
    destruct (keepWalking ∅ k); [|done]. by rewrite Hk.
  - intros Hok [n Hk]. destruct (upPath_of_node st Hok k n Hk) as [l Hl].
    exists l. split; [done|]. unfold isHiddenByCollapsed.
    rewrite (hiddenLoop_ancestors st Hok k l Hl); [done| |].
    + pose proof (upPath_length st Hok _ _ Hl). lia.
    + intros x _. apply not_elem_of_empty.
Qed.

Lemma isHidden_iff_ancestor_collapsed_witness :
  ∃ l, upPath branched (js "n_2_c3") l
       ∧ isHiddenByCollapsed branched (js "n_2_c3")
         = existsb (isCollapsed branched) (ancestorsOf l).
Proof.
  apply (proj2 (isHidden_iff_ancestor_collapsed branched (js "n_2_c3"))).
  - vm_compute. reflexivity.
  - vm_compute. eauto.
Defined.

Lemma hiddenLoop_ext_parents (st st' : TreeState) (fuel : nat) :
  nodes st' = nodes st →
  (∀ c cn, c ≠ ROOT_ID → nodes st !! c = Some cn →
     isCollapsed st' (parentId cn) = isCollapsed st (parentId cn)) →
  ∀ guard cur, hiddenLoop fuel st' guard cur = hiddenLoop fuel st guard cur.
Proof.
  intros Hn Hc. induction fuel as [|f IH]; intros guard cur; [done|].
  cbn [hiddenLoop]. rewrite Hn. destruct (keepWalking guard cur) eqn:Hw; [|done].
  destruct (keepWalking_inv _ _ Hw) as [Hr _].
  destruct (nodes st !! cur) as [n|] eqn:Hcur; [|done].
  rewrite (Hc cur n Hr Hcur). by rewrite IH.
Qed.

(** X9. The flag of a node without children hides nothing: on a sound tree,
    toggling the flag of an id for which [hasChildren] is false (a leaf, or
    an id that is not in the table) leaves [isHiddenByCollapsed] as it was
    for every id, which is why the panel may leave such a toggle
    unwired. *)
Theorem toggle_leaf_hides_nothing (st : TreeState) (i : jsstring) :
  tree_ok st = true → hasChildren st i = false →
  ∀ nodeId, isHiddenByCollapsed (toggleCollapse st i) nodeId
            = isHiddenByCollapsed st nodeId.
Proof.
  intros Hok Hleaf nodeId. unfold isHiddenByCollapsed.
  change (nodes (toggleCollapse st i)) with (nodes st).
  rewrite (hiddenLoop_ext_parents st (toggleCollapse st i)); [done|done|].
  intros c cn Hcr Hcn. rewrite isCollapsed_toggle.
  case_bool_decide as Hp; [|done]. exfalso.
  destruct (tree_ok_node st c cn Hok Hcn) as (_ & _ & _ & Hpar).
  destruct (Hpar Hcr) as (p & Hpn & Hin & _). rewrite Hp in Hpn.
  unfold hasChildren in Hleaf. rewrite Hpn in Hleaf.
  destruct (children p); [by apply elem_of_nil in Hin | done].
Qed.

Lemma toggle_leaf_hides_nothing_witness :
  hasChildren branched (js "n_4_e5") = false
  ∧ ∀ nodeId, isHiddenByCollapsed (toggleCollapse branched (js "n_4_e5")) nodeId
              = isHiddenByCollapsed branched nodeId.
Proof.
  split; [vm_compute; reflexivity|].
  apply toggle_leaf_hides_nothing; vm_compute; reflexivity.
Defined.

(** ** The flattened listing *)

Lemma flattenDfs_collected (st : TreeState) (fuel : nat) :
  ∀ i res res', flattenDfs fuel st i res = Some res' →
    ∃ ids added, res' = res ++ added ∧ collected st [i] ids
      ∧ ∀ k n, k ∈ ids → k ≠ ROOT_ID → nodes st !! k = Some n → n ∈ added.
Proof.
  induction fuel as [|f IH]; intros i res res'; [done|]. cbn [flattenDfs].
  destruct (nodes st !! i) as [n|] eqn:Hn.
  - assert (∀ cs acc r, foldM (fun acc c => flattenDfs f st c acc) acc cs = Some r →
              ∃ ids added, r = acc ++ added ∧ collected st cs ids
                ∧ ∀ k n, k ∈ ids → k ≠ ROOT_ID → nodes st !! k = Some n → n ∈ added)
      as Hfold.
    { induction cs as [|c cs IHcs]; intros acc r; cbn [foldM].
      - intros [= <-]. exists [], []. split; [by rewrite app_nil_r|].
        split; [apply collected_nil|]. intros k nk Hk. by apply elem_of_nil in Hk.
      - destruct (flattenDfs f st c acc) as [a1|] eqn:Hc; [|done].
        cbn [mbind option_bind]. intros Hr.
        destruct (IH _ _ _ Hc) as (ids1 & add1 & -> & Hcol1 & Hin1).
        destruct (IHcs _ _ Hr) as (ids2 & add2 & -> & Hcol2 & Hin2).
        exists (ids1 ++ ids2), (add1 ++ add2). split; [by rewrite app_assoc|].
        split; [by apply collected_app|].
        intros k nk Hk Hkr Hnk. apply elem_of_app.
        apply elem_of_app in Hk as [Hk|Hk]; [left; by eapply Hin1 | right; by eapply Hin2]. }
    intros Hr. destruct (Hfold _ _ _ Hr) as (idsc & addc & Hrc & (C1 & C2 & C3 & C4) & Hinc).
    exists (i :: idsc), ((if bool_decide (i = ROOT_ID) then [] else [n]) ++ addc).
    split.
    { rewrite Hrc. case_bool_decide; [done|]. by rewrite <- app_assoc. }
    split.
    + repeat split.
      * intros c Hc _. apply list_elem_of_singleton in Hc as ->. left.
      * intros x Hx. apply elem_of_cons in Hx as [->|Hx]; [eauto | by apply C2].
      * intros k nk c Hk Hnk Hc Hin. right.
        apply elem_of_cons in Hk as [->|Hk].
        -- rewrite Hn in Hnk. injection Hnk as <-. by apply C1.
        -- by eapply C3.
      * intros x Hx. apply elem_of_cons in Hx as [->|Hx]; [left; left|].
        right. destruct (C4 x Hx) as [Hs|(y & yn & Hy & Hyn & Hc)].
        -- exists i, n. split; [left|done].
        -- exists y, yn. split; [by right|done].
    + intros k nk Hk Hkr Hnk. apply elem_of_app.
      apply elem_of_cons in Hk as [->|Hk].
      * left. rewrite bool_decide_eq_false_2 by done.
        rewrite Hn in Hnk. injection Hnk as <-. left.
      * right. by eapply Hinc.
  - intros [= <-]. exists [], []. split; [by rewrite app_nil_r|]. split.
    + repeat split; try (intros; exfalso; eapply not_elem_of_nil; eassumption).
      intros c Hc Hin. apply list_elem_of_singleton in Hc as ->.
      rewrite Hn in Hin. by destruct Hin.
    + intros k nk Hk. by apply elem_of_nil in Hk.
Qed.

(** On a sound tree a collection from the root reaches every node. *)
Lemma collected_from_root (st : TreeState) (ids : list jsstring) :
  tree_ok st = true → collected st [ROOT_ID] ids →
  ∀ k, is_Some (nodes st !! k) → k ∈ ids.
Proof.
  intros Hok (C1 & _ & C3 & _) k [n Hk].
  destruct (upPath_of_node st Hok k n Hk) as [l Hl]. clear n Hk.
  induction Hl as [|k n l Hne Hk Hup IH].
  - apply C1; [left | by apply tree_ok_root].
  - destruct (tree_ok_node st k n Hok Hk) as (_ & _ & _ & Hpar).
    destruct (Hpar Hne) as (p & Hp & Hin & _).
    eapply C3; [exact IH | exact Hp | exact Hin | eauto].
Qed.

(** X10. The listing of [flattenTree] on a sound tree holds exactly the
    nodes of the table other than the root, whatever the flags: what it
    lists is a node of the table stored under its id, and every node of the
    table but the root is listed. It is returned as soon as the call depth
    allowed is [enoughFuel st]. *)
Theorem flattenTree_lists_all (fuel : nat) (st : TreeState) :
  tree_ok st = true →
  (∀ l, flattenTree fuel st = Some l →
     ∀ n, n ∈ l ↔ id n ≠ ROOT_ID ∧ nodes st !! id n = Some n)
  ∧ ((enoughFuel st ≤ fuel)%nat → is_Some (flattenTree fuel st)).
Proof.
  intros Hok. split.
  - intros l Hl n. split.
    + intros Hn. destruct (flattenDfs_members st fuel ROOT_ID [] l Hok Hl n Hn)
        as [Hnil|[? ?]]; [by apply elem_of_nil in Hnil | done].
    + intros [Hr Hn]. destruct (flattenDfs_collected st fuel _ _ _ Hl)
        as (ids & added & Hadd & Hcol & Hin).
      rewrite app_nil_l in Hadd. subst l. eapply Hin; [|exact Hr|exact Hn].
      apply (collected_from_root st ids Hok Hcol). eauto.
  - intros Hf. apply flattenDfs_total; [done|]. unfold enoughFuel in Hf.
    destruct (tree_ok_root st Hok) as [r Hr]. rewrite Hr.
    destruct (tree_ok_node st _ r Hok Hr) as (_ & Hd & _).
    pose proof (maxDepth_bound st _ r Hr). lia.
Qed.

Lemma flattenTree_lists_all_witness :
  (enoughFuel branched ≤ 5)%nat ∧ is_Some (flattenTree 5 branched).
Proof.
  assert (tree_ok branched = true) as H0 by (vm_compute; reflexivity).
  assert (enoughFuel branched ≤ 5)%nat as H1 by (vm_compute; lia).
  split; [exact H1|]. exact (proj2 (flattenTree_lists_all 5 branched H0) H1).
Defined.

(** ** The stored entries *)

Lemma storageKey_inj (k1 k2 : jsstring) : storageKey k1 = storageKey k2 → k1 = k2.
Proof. unfold storageKey. apply app_inv_head. Qed.

Lemma storageKey_not_scroll (k1 k2 : jsstring) : storageKey k1 ≠ storageScrollKey k2.
Proof. unfold storageKey, storageScrollKey. vm_compute. discriminate. Qed.

Lemma storageKey_not_panel (k : jsstring) :
  storageKey k ≠ PANEL_LEFT_KEY ∧ storageKey k ≠ PANEL_BOTTOM_KEY.
Proof. unfold storageKey. split; vm_compute; discriminate. Qed.

(** X11. The stored tree of a conversation is touched by [saveTree] of that
    conversation only: saving the tree of another conversation, saving
    scroll offsets of any conversation, and writing the two panel
    preferences leave what [loadTree] returns as it was. *)
Theorem loadTree_frame (storage : gmap jsstring jsstring) (key : jsstring) :
  (∀ st, convoKey st ≠ key → loadTree (saveTree storage st) key = loadTree storage key)
  ∧ (∀ key' encoded,
       loadTree (saveScroll storage key' encoded) key = loadTree storage key)
  ∧ (∀ v, loadTree (<[ PANEL_LEFT_KEY := v ]> storage) key = loadTree storage key)
  ∧ (∀ v, loadTree (<[ PANEL_BOTTOM_KEY := v ]> storage) key = loadTree storage key).
Proof.
  unfold loadTree, saveTree, saveScroll. repeat split.
  - intros st Hne. rewrite lookup_insert_ne; [done|].
    intros Heq. by apply storageKey_inj in Heq.
  - intros key' encoded. rewrite lookup_insert_ne; [done|].
    apply not_eq_sym, storageKey_not_scroll.
  - intros v. rewrite lookup_insert_ne; [done|].
    apply not_eq_sym, storageKey_not_panel.
  - intros v. rewrite lookup_insert_ne; [done|].
    apply not_eq_sym, storageKey_not_panel.
Qed.

Lemma jget_old_fields (v1 v2 v3 v4 : json) :
  jget (js "collapsedIds")
    [(js "convoKey", v1); (js "seenLinearCount", v2); (js "activeId", v3);
     (js "nodes", v4)] = None.
Proof. vm_compute. reflexivity. Qed.

(** X12. A snapshot of the older format, without [collapsedIds], loads with
    collapsedIds empty and every other field as stored; the conversation
    key of the loaded state is the stored one, whatever key it is loaded
    under. *)
Theorem loadTree_old_format (storage : gmap jsstring jsstring) (key : jsstring)
    (st : TreeState) :
  loadTree (<[ storageKey key := stringify (oldJsonOfState st) ]> storage) key
  = Some (mkState (convoKey st) (seenLinearCount st) (activeId st) (nodes st) ∅).
Proof.
  unfold loadTree. rewrite lookup_insert_eq. unfold safeJsonParse.
  cbn [mbind option_bind].
  destruct (stringify_head (oldJsonOfState st)) as (c & t & Hs & _).
  assert (truthy (stringify (oldJsonOfState st)) = true) as -> by by rewrite Hs.
  rewrite parseJSON_stringify. cbn [mbind option_bind].
  change (jfalsy (oldJsonOfState st)) with false. cbn iota.
  unfold oldJsonOfState, defaultCollapsedIds. rewrite jget_old_fields.
  cbn [app]. unfold stateOfJson.
  destruct (jget_state_fields (JStr (convoKey st)) (JNum (seenLinearCount st))
              (JStr (activeId st))
              (JObj (prod_map Datatypes.id jsonOfNode <$> map_to_list (nodes st)))
              (JObj [])) as (-> & -> & -> & -> & ->).
  cbn [mbind option_bind asStr asNum].
  rewrite (asRecord_record nodeOfJson jsonOfNode) by apply nodeOfJson_jsonOfNode.
  reflexivity.
Qed.

(** ** Labels are single-line *)

Lemma replaceSpaces_spaces (b : bool) (s : jsstring) (c : N) :
  c ∈ replaceSpaces b s → isSpace c = true → c = 32%N.
Proof.
  revert b. induction s as [|x s IH]; intros b; cbn [replaceSpaces].
  - intros H. by apply elem_of_nil in H.
  - destruct (isSpace x) eqn:Hx.
    + destruct b; [apply IH|]. intros H Hc.
      apply elem_of_cons in H as [->|H]; [done|]. by eapply IH.
    + intros H Hc. apply elem_of_cons in H as [->|H]; [congruence|]. by eapply IH.
Qed.

Lemma trimStart_subset (s : jsstring) (c : N) : c ∈ trimStart s → c ∈ s.
Proof.
  induction s as [|x s IH]; [done|]. cbn [trimStart].
  destruct (isSpace x); [|done]. intros H. right. by apply IH.
Qed.

Lemma trimStart_head (s : jsstring) :
  trimStart s = [] ∨ ∃ c r, trimStart s = c :: r ∧ isSpace c = false.
Proof.
  induction s as [|x s IH]; [by left|]. cbn [trimStart].
  destruct (isSpace x) eqn:Hx; [done|]. right. eauto.
Qed.

Lemma trimStart_snoc (l : jsstring) (c : N) :
  isSpace c = false → trimStart (l ++ [c]) = trimStart l ++ [c].
Proof.
  intros Hc. induction l as [|x l IH]; cbn [app trimStart].
  - by rewrite Hc.
  - destruct (isSpace x); [exact IH | done].
Qed.

Lemma trimEnd_cons (c : N) (r : jsstring) :
  isSpace c = false → trimEnd (c :: r) = c :: trimEnd r.
Proof.
  intros Hc. unfold trimEnd. cbn [rev]. rewrite trimStart_snoc by done.
  by rewrite rev_app_distr.
Qed.

Lemma trimEnd_last (s : jsstring) :
  trimEnd s = [] ∨ ∃ r c, trimEnd s = r ++ [c] ∧ isSpace c = false.
Proof.
  unfold trimEnd. destruct (trimStart_head (rev s)) as [->|(c & r & -> & Hc)].
  - by left.
  - right. exists (rev r), c. done.
Qed.

Lemma trim_subset (s : jsstring) (c : N) : c ∈ trim s → c ∈ s.
Proof.
  unfold trim, trimEnd. intros H. rewrite elem_of_rev in H.
  apply trimStart_subset in H. rewrite elem_of_rev in H. by apply trimStart_subset.
Qed.

Lemma trim_ends (s : jsstring) :
  trim s = []
  ∨ (∃ c r, trim s = c :: r ∧ isSpace c = false)
    ∧ (∃ r c, trim s = r ++ [c] ∧ isSpace c = false).
Proof.
  unfold trim. destruct (trimStart_head s) as [->|(c & r & -> & Hc)].
  - by left.
  - right. split.
    + rewrite trimEnd_cons by done. eauto.
    + destruct (trimEnd_last (c :: r)) as [Hnil|?]; [|done].
      rewrite trimEnd_cons in Hnil by done. done.
Qed.

(** X14. A summary is a one-line label: for every user text and every
    bound, it is not empty, its only white-space characters are plain
    spaces (no line break, tab or no-break space), and it neither starts
    nor ends with white space. *)
Theorem summary_single_line (userText : jsstring) (max : nat) :
  let s := makeSummaryFromUserText userText max in
  (∀ c, c ∈ s → isSpace c = true → c = 32%N)
  ∧ (∃ c r, s = c :: r ∧ isSpace c = false)
  ∧ (∃ r c, s = r ++ [c] ∧ isSpace c = false).
Proof.
  cbv zeta. unfold makeSummaryFromUserText.
  set (t := normalizeText userText).
  assert (∀ c, c ∈ t → isSpace c = true → c = 32%N) as Ht.
  { intros c Hc. unfold t, normalizeText in Hc. apply trim_subset in Hc.
    exact (replaceSpaces_spaces _ _ _ Hc). }
  destruct (truthy t) eqn:Htr.
  - destruct (trim_ends (replaceSpaces false userText))
      as [Hnil|[(c & r & Hhd & Hc) (r' & c' & Hlast & Hc')]].
    { unfold t, normalizeText in Htr. by rewrite Hnil in Htr. }
    fold (normalizeText userText) in Hhd, Hlast. fold t in Hhd, Hlast.
    destruct (length t <=? max)%nat.
    + split; [done|]. split; [eauto | eauto].
    + split; [|split].
      * intros x Hx Hsp. apply elem_of_app in Hx as [Hx|Hx].
        -- apply Ht; [|done]. by apply (subseteq_take max t).
        -- apply list_elem_of_singleton in Hx as ->. done.
      * rewrite Hhd. destruct max as [|m].
        -- exists ELLIPSIS, []. done.
        -- exists c, (take m r ++ [ELLIPSIS]). done.
      * exists (take max t), ELLIPSIS. done.
  - split; [|split].
    + intros c Hc Hsp. exfalso. revert Hsp.
      unfold EMPTY_SUMMARY in Hc.
      repeat (apply elem_of_cons in Hc as [->|Hc]; [done|]).
      by apply elem_of_nil in Hc.
    + do 2 eexists. split; [reflexivity|done].
    + exists (js "(empty"), 41%N. done.
Qed.

(** ** Cleaning of message texts *)

Lemma replaceLoop_skip (k : nat) (s : jsstring) :
  replaceLoop k s = replaceLoop 0 (drop k s).
Proof.
  revert k. induction s as [|c r IH]; intros k.
  - by destruct k.
  - destruct k as [|k]; [done|]. cbn [replaceLoop drop]. apply IH.
Qed.

Lemma replaceLoop_cons (c : N) (r : jsstring) :
  replaceLoop 0 (c :: r)
  = match matchAt (c :: r) with
    | Some n => LF :: replaceLoop 0 (drop (Nat.pred n) r)
    | None => c :: replaceLoop 0 r
    end.
Proof.
  cbn [replaceLoop]. destruct (matchAt (c :: r)); [|done].
  by rewrite replaceLoop_skip.
Qed.

Lemma spacesNewline_drop (s : jsstring) (n : nat) :
  spacesNewline s = Some n → spacesNewline (drop n s) = None.
Proof.
  revert n. induction s as [|c r IH]; intros n; [done|].
  cbn [spacesNewline]. destruct (isSpace c); [|done].
  destruct (spacesNewline r) as [m|] eqn:Hr.
  - intros [= <-]. cbn [drop]. by apply IH.
  - destruct (c =? LF)%N; [|done]. intros [= <-]. cbn [drop]. by rewrite drop_0.
Qed.

Lemma isSpace_LF : isSpace LF = true.
Proof. reflexivity. Qed.

Lemma headIsLF_spacesNewline (s : jsstring) :
  headIsLF s = true → is_Some (spacesNewline s).
Proof.
  destruct s as [|c r]; [done|]. cbn [headIsLF spacesNewline].
  intros Hc. apply N.eqb_eq in Hc as ->. rewrite isSpace_LF.
  destruct (spacesNewline r); cbn; eauto.
Qed.

Lemma headIsLF_replaceLoop (s : jsstring) :
  headIsLF (replaceLoop 0 s) = true → is_Some (spacesNewline s).
Proof.
  destruct s as [|c r]; [done|]. rewrite replaceLoop_cons.
  destruct (matchAt (c :: r)) as [n|] eqn:Hm.
  - intros _. cbn [matchAt] in Hm. cbn [spacesNewline].
    destruct (isSpace c); [|done]. destruct (spacesNewline r); [eauto|done].
  - intros Hc. by apply (headIsLF_spacesNewline (c :: r)).
Qed.

Lemma replaceLoop_lineClean_fuel (n : nat) (s : jsstring) :
  (length s ≤ n)%nat → lineClean (replaceLoop 0 s) = true.
Proof.
  revert s. induction n as [|n IH]; intros [|c r] Hlen; try done.
  { cbn in Hlen. lia. }
  cbn [length] in Hlen. rewrite replaceLoop_cons.
  destruct (matchAt (c :: r)) as [m|] eqn:Hm; cbn [matchAt] in Hm.
  - destruct (isSpace c); [|done].
    destruct (spacesNewline r) as [m'|] eqn:Hr; [|done]. injection Hm as <-.
    cbn [Nat.pred lineClean]. rewrite IH by (rewrite length_drop; lia).
    destruct (headIsLF (replaceLoop 0 (drop m' r))) eqn:Hh; [|by rewrite andb_false_r].
    apply headIsLF_replaceLoop in Hh as [x Hx].
    by rewrite (spacesNewline_drop _ _ Hr) in Hx.
  - cbn [lineClean]. rewrite IH by lia. rewrite andb_true_r.
    destruct (isSpace c); [|done].
    destruct (headIsLF (replaceLoop 0 r)) eqn:Hh; [|done].
    apply headIsLF_replaceLoop in Hh as [x Hx]. by rewrite Hx in Hm.
Qed.

Lemma replaceLoop_lineClean (s : jsstring) : lineClean (replaceLoop 0 s) = true.
Proof. by apply (replaceLoop_lineClean_fuel (length s)). Qed.

Lemma replaceLoop_subset (k : nat) (s : jsstring) (c : N) :
  c ∈ replaceLoop k s → c = LF ∨ c ∈ s.
Proof.
  revert k. induction s as [|x r IH]; intros k; cbn [replaceLoop].
  - intros H. by apply elem_of_nil in H.
  - destruct k as [|k].
    + destruct (matchAt (x :: r)).
      * intros H. apply elem_of_cons in H as [->|H]; [by left|].
        destruct (IH _ H); [by left|]. right. by right.
      * intros H. apply elem_of_cons in H as [->|H]; [right; by left|].
        destruct (IH _ H); [by left|]. right. by right.
    + intros H. destruct (IH _ H); [by left|]. right. by right.
Qed.

Lemma replaceNbsp_free (s : jsstring) : 160%N ∉ replaceNbsp s.
Proof.
  unfold replaceNbsp. intros H. apply list_elem_of_fmap in H as (c & Hc & _).
  destruct (c =? 160)%N eqn:E; [done|]. apply N.eqb_neq in E. done.
Qed.

Lemma replaceNbsp_id (s : jsstring) : (160%N ∉ s) → replaceNbsp s = s.
Proof.
  unfold replaceNbsp. induction s as [|c r IH]; [done|]. intros H.
  apply not_elem_of_cons in H as [Hc Hr]. cbn [map].
  rewrite IH by done. destruct (c =? 160)%N eqn:E; [|done].
  apply N.eqb_eq in E. congruence.
Qed.

Lemma lineClean_lookup (t : jsstring) :
  lineClean t = true
  ↔ ∀ i c, t !! i = Some c → t !! S i = Some LF → isSpace c = false.
Proof.
  induction t as [|x r IH]; [done|]. cbn [lineClean]. split.
  - intros H. apply andb_true_iff in H as [Hx Hr]. intros [|i] c Hi Hsi.
    + cbn in Hi. injection Hi as <-. cbn in Hsi.
      destruct r as [|d r']; [done|]. cbn in Hsi. injection Hsi as ->.
      cbn [headIsLF] in Hx. rewrite N.eqb_refl, andb_true_r in Hx.
      by apply negb_true_iff in Hx.
    + cbn in Hi, Hsi. by eapply IH.
  - intros H. apply andb_true_iff. split.
    + destruct r as [|d r']; [by rewrite andb_false_r|]. cbn [headIsLF].
      destruct (d =? LF)%N eqn:E; [|by rewrite andb_false_r].
      apply N.eqb_eq in E as ->. by rewrite (H 0%nat x).
    + apply IH. intros i c Hi Hsi. by apply (H (S i) c).
Qed.

Lemma lineClean_app (x y : jsstring) :
  lineClean (x ++ y) = true → lineClean x = true ∧ lineClean y = true.
Proof.
  induction x as [|c x IH]; [done|]. cbn [app lineClean]. intros H.
  apply andb_true_iff in H as [Hc Hr]. destruct (IH Hr) as [Hx Hy].
  split; [|done]. rewrite Hx, andb_true_r.
  destruct (isSpace c); [|done]. cbn in *.
  destruct x as [|d x']; [done|]. exact Hc.
Qed.

Lemma trimStart_suffix (s : jsstring) : ∃ pre, s = pre ++ trimStart s.
Proof.
  induction s as [|c r [pre IH]]; [by exists []|]. cbn [trimStart].
  destruct (isSpace c); [|by exists []]. exists (c :: pre). cbn. by f_equal.
Qed.

Lemma trimEnd_prefix (s : jsstring) : ∃ post, s = trimEnd s ++ post.
Proof.
  unfold trimEnd. destruct (trimStart_suffix (rev s)) as [pre H].
  exists (rev pre). rewrite <- rev_app_distr, <- H. by rewrite rev_involutive.
Qed.

Lemma lineClean_trim (s : jsstring) : lineClean s = true → lineClean (trim s) = true.
Proof.
  intros H. unfold trim. destruct (trimStart_suffix s) as [pre Hpre].
  rewrite Hpre in H. apply lineClean_app in H as [_ H].
  destruct (trimEnd_prefix (trimStart s)) as [post Hpost].
  rewrite Hpost in H. by apply lineClean_app in H as [H _].
Qed.

Lemma trim_head_last (s : jsstring) :
  (∀ c, head (trim s) = Some c → isSpace c = false)
  ∧ (∀ c, last (trim s) = Some c → isSpace c = false).
Proof.
  destruct (trim_ends s) as [->|[(c & r & -> & Hc) (r' & c' & Hl & Hc')]]; [done|].
  split.
  - by intros ? [= <-].
  - rewrite Hl, last_snoc. by intros ? [= <-].
Qed.

Lemma trim_fixed (t : jsstring) :
  (∀ c, head t = Some c → isSpace c = false) →
  (∀ c, last t = Some c → isSpace c = false) →
  trim t = t.
Proof.
  intros Hh Hl. destruct t as [|c r]; [done|]. unfold trim.
  cbn [trimStart]. rewrite (Hh c) by done.
  destruct (last (c :: r)) as [d|] eqn:Hd.
  - apply last_Some in Hd as [l' Hd]. rewrite Hd in *.
    unfold trimEnd. rewrite rev_app_distr. cbn [rev app trimStart].
    rewrite (Hl d) by done. cbn. by rewrite rev_involutive.
  - by apply last_None in Hd.
Qed.

Lemma cleanText_cleaned (s : jsstring) : cleaned (cleanText s).
Proof.
  unfold cleaned, cleanText. split; [|split].
  - intros H. apply trim_subset, replaceLoop_subset in H as [H|H]; [done|].
    by apply replaceNbsp_free in H.
  - apply lineClean_lookup, lineClean_trim, replaceLoop_lineClean.
  - apply trim_head_last.
Qed.

Lemma spacesNewline_lineClean (s : jsstring) :
  lineClean s = true → headIsLF s = false → spacesNewline s = None.
Proof.
  induction s as [|c r IH]; [done|]. cbn [lineClean headIsLF spacesNewline].
  intros H Hc. apply andb_true_iff in H as [H1 H2].
  destruct (isSpace c); [|done]. cbn in H1. apply negb_true_iff in H1.
  rewrite IH by done. by rewrite Hc.
Qed.

Lemma matchAt_lineClean (s : jsstring) : lineClean s = true → matchAt s = None.
Proof.
  destruct s as [|c r]; [done|]. cbn [lineClean matchAt]. intros H.
  apply andb_true_iff in H as [H1 H2]. destruct (isSpace c); [|done].
  cbn in H1. apply negb_true_iff in H1. by rewrite spacesNewline_lineClean.
Qed.

Lemma replaceLoop_fixed (s : jsstring) : lineClean s = true → replaceLoop 0 s = s.
Proof.
  induction s as [|c r IH]; [done|]. intros H. rewrite replaceLoop_cons.
  rewrite (matchAt_lineClean _ H). cbn [lineClean] in H.
  apply andb_true_iff in H as [_ H]. by rewrite IH.
Qed.

Lemma cleaned_fixed (t : jsstring) : cleaned t → cleanText t = t.
Proof.
  intros (Hn & Hl & Hh & Hlast). unfold cleanText.
  rewrite replaceNbsp_id by done.
  rewrite replaceLoop_fixed by (by apply lineClean_lookup).
  by apply trim_fixed.
Qed.

(** X15. [cleanText] brings a text to a normal form and leaves a text in
    that form alone: the result has no no-break space, no white space
    directly before a line feed (so no line ends in white space and no line
    is blank) and no white space at either end; a text is left unchanged by
    it exactly when it has this form, and cleaning twice is cleaning once. *)
Theorem cleanText_normal_form (s t : jsstring) :
  cleaned (cleanText s)
  ∧ cleanText (cleanText s) = cleanText s
  ∧ (cleanText t = t ↔ cleaned t).
Proof.
  split; [apply cleanText_cleaned|]. split.
  - apply cleaned_fixed, cleanText_cleaned.
  - split; [|apply cleaned_fixed]. intros <-. apply cleanText_cleaned.
Qed.

(** ** Merging of message texts *)

Lemma spacesNewline_app_quiet (x rest : jsstring) :
  lineClean x = true → headIsLF x = false →
  (∃ c, last x = Some c ∧ isSpace c = false) →
  spacesNewline (x ++ rest) = None.
Proof.
  induction x as [|d x IH]; intros Hl Hh (c & Hc & Hsp); [done|].
  cbn [app spacesNewline]. destruct (isSpace d) eqn:Hd; [|done].
  cbn [lineClean] in Hl. apply andb_true_iff in Hl as [H1 H2].
  rewrite Hd in H1. cbn in H1. apply negb_true_iff in H1.
  destruct x as [|d' x'].
  - cbn in Hc. injection Hc as ->. congruence.
  - rewrite IH; [|done|done|].
    + cbn [headIsLF] in Hh. by rewrite Hh.
    + exists c. by rewrite last_cons_cons in Hc.
Qed.

Lemma replaceLoop_app_quiet (a rest : jsstring) :
  lineClean a = true →
  (∃ c, last a = Some c ∧ isSpace c = false) →
  replaceLoop 0 (a ++ rest) = a ++ replaceLoop 0 rest.
Proof.
  induction a as [|d a IH]; intros Hl (c & Hc & Hsp); [done|].
  cbn [app]. rewrite replaceLoop_cons.
  cbn [lineClean] in Hl. apply andb_true_iff in Hl as [H1 H2].
  destruct a as [|d' a'].
  - cbn in Hc. injection Hc as ->. cbn [app matchAt]. by rewrite Hsp.
  - assert (matchAt (d :: (d' :: a') ++ rest) = None) as ->.
    { cbn [matchAt]. destruct (isSpace d); [|done].
      cbn in H1. apply negb_true_iff in H1.
      rewrite spacesNewline_app_quiet; [done|done|done|].
      exists c. by rewrite last_cons_cons in Hc. }
    f_equal. apply IH; [done|]. exists c. by rewrite last_cons_cons in Hc.
Qed.

Lemma replaceLoop_blank_line (b : jsstring) :
  lineClean b = true → (∀ c, head b = Some c → isSpace c = false) →
  replaceLoop 0 (LF :: LF :: b) = LF :: b.
Proof.
  intros Hl Hh. rewrite replaceLoop_cons.
  assert (spacesNewline b = None) as Hb.
  { destruct b as [|d b']; [done|]. cbn [spacesNewline]. by rewrite (Hh d). }
  cbn [matchAt spacesNewline]. rewrite isSpace_LF, Hb, N.eqb_refl.
  cbn [option_map Nat.pred drop]. by rewrite replaceLoop_fixed.
Qed.

Lemma trimEnd_snoc_space (a : jsstring) (c : N) :
  isSpace c = true → trimEnd (a ++ [c]) = trimEnd a.
Proof.
  intros Hc. unfold trimEnd. rewrite rev_app_distr. cbn [rev app trimStart].
  by rewrite Hc.
Qed.

Lemma mergeText_joinLines (a b : jsstring) :
  cleaned a → cleaned b → mergeText a b = joinLines a b.
Proof.
  intros (Han & Hal & Hah & Hae) (Hbn & Hbl & Hbh & Hbe).
  apply lineClean_lookup in Hal, Hbl.
  unfold mergeText, joinLines, cleanText.
  rewrite replaceNbsp_id.
  2:{ intros H. apply elem_of_app in H as [H|H]; [done|].
      apply elem_of_app in H as [H|H]; [|done].
      apply elem_of_cons in H as [H|H]; [done|].
      apply elem_of_cons in H as [H|H]; [done|]. by apply elem_of_nil in H. }
  destruct a as [|x a'].
  - cbn [app truthy]. rewrite replaceLoop_blank_line by done.
    unfold trim. cbn [trimStart]. rewrite isSpace_LF.
    by apply (trim_fixed b).
  - assert (is_Some (last (x :: a'))) as [e He].
    { destruct (last (x :: a')) eqn:E; [eauto|by apply last_None in E]. }
    rewrite replaceLoop_app_quiet; [|done|eauto].
    cbn [app]. rewrite replaceLoop_blank_line by done. cbn [truthy].
    destruct b as [|y b'].
    + cbn [truthy]. unfold trim. cbn [trimStart]. rewrite (Hah x) by done.
      change (x :: a' ++ [LF]) with ((x :: a') ++ [LF]).
      rewrite trimEnd_snoc_space by done.
      pose proof (trim_fixed (x :: a') Hah Hae) as Ht.
      unfold trim in Ht. cbn [trimStart] in Ht. by rewrite (Hah x) in Ht.
    + cbn [truthy]. apply trim_fixed.
      * intros c [= <-]. by apply Hah.
      * intros c Hc. apply Hbe.
        change (x :: a' ++ LF :: y :: b') with ((x :: a') ++ LF :: y :: b') in Hc.
        by rewrite last_app_cons, last_cons_cons in Hc.
Qed.

(** ** Extraction of the messages *)

Lemma insert_snoc_last {A} (init : list A) (l y : A) :
  <[ Nat.pred (length (init ++ [l])) := y ]> (init ++ [l]) = init ++ [y].
Proof.
  rewrite length_app. cbn [length]. replace (Nat.pred (length init + 1)) with (length init + 0)%nat by lia.
  by rewrite insert_app_r.
Qed.

Lemma extractStep_nil (el : RoleEl) (r : Role) :
  roleOf (roleRaw el) = Some r →
  negb (truthy (cleanText (innerText el))) && negb (truthy (trim (innerHTML el))) = false →
  extractStep [] el = [mkMsg r (cleanText (innerText el)) (trim (innerHTML el))].
Proof. intros Hr He. unfold extractStep. by rewrite Hr, He. Qed.

Lemma extractStep_snoc (init : list Msg) (l : Msg) (el : RoleEl) (r : Role) :
  roleOf (roleRaw el) = Some r →
  negb (truthy (cleanText (innerText el))) && negb (truthy (trim (innerHTML el))) = false →
  extractStep (init ++ [l]) el
  = if decide (role l = r)
    then init ++ [mkMsg (role l) (mergeText (text l) (cleanText (innerText el)))
                    (mergeHtml (html l) (trim (innerHTML el)))]
    else (init ++ [l]) ++ [mkMsg r (cleanText (innerText el)) (trim (innerHTML el))].
Proof.
  intros Hr He. unfold extractStep. rewrite Hr, He, last_snoc.
  destruct (decide (role l = r)); [|done]. by rewrite insert_snoc_last.
Qed.

Lemma extractStep_skip (out : list Msg) (el : RoleEl) :
  roleOf (roleRaw el) = None
  ∨ negb (truthy (cleanText (innerText el))) && negb (truthy (trim (innerHTML el))) = true →
  extractStep out el = out.
Proof.
  intros [H|H]; unfold extractStep.
  - by rewrite H.
  - destruct (roleOf (roleRaw el)); [|done]. by rewrite H.
Qed.

Lemma alternating_snoc (init : list Msg) (l m : Msg) :
  alternating (init ++ [l]) → role l ≠ role m → alternating ((init ++ [l]) ++ [m]).
Proof.
  intros Ha Hr. induction init as [|a init IH]; [done|].
  destruct init as [|b init'].
  - cbn in *. tauto.
  - cbn [app alternating] in *. destruct Ha as [Hab Ha]. split; [done|]. by apply IH.
Qed.

Lemma alternating_replace_last (init : list Msg) (l l' : Msg) :
  alternating (init ++ [l]) → role l' = role l → alternating (init ++ [l']).
Proof.
  intros Ha Hr. induction init as [|a init IH]; [done|].
  destruct init as [|b init'].
  - cbn in *. rewrite Hr. tauto.
  - cbn [app alternating] in *. destruct Ha as [Hab Ha]. split; [done|]. by apply IH.
Qed.

(** What the extraction loop keeps true of [out]. *)
Lemma extractStep_inv (out : list Msg) (el : RoleEl) :
  alternating out →
  Forall (fun m => cleaned (text m) ∧ truthy (text m) || truthy (html m) = true) out →
  alternating (extractStep out el)
  ∧ Forall (fun m => cleaned (text m) ∧ truthy (text m) || truthy (html m) = true)
      (extractStep out el).
Proof.
  intros Ha Hf.
  destruct (roleOf (roleRaw el)) as [r|] eqn:Hr; [|by rewrite extractStep_skip by eauto].
  destruct (negb (truthy (cleanText (innerText el))) && negb (truthy (trim (innerHTML el))))
    eqn:He; [by rewrite extractStep_skip by eauto|].
  assert (truthy (cleanText (innerText el)) || truthy (trim (innerHTML el)) = true) as Hne.
  { destruct (truthy (cleanText (innerText el))), (truthy (trim (innerHTML el))); done. }
  destruct out as [|a out'] using rev_ind.
  - rewrite (extractStep_nil el r) by done. split; [done|].
    apply Forall_singleton. split; [apply cleanText_cleaned | done].
  - clear IHout'. rewrite (extractStep_snoc _ _ el r) by done.
    apply Forall_app in Hf as [Hf Hl].
    destruct (decide (role a = r)) as [Heq|Hneq].
    + split; [by eapply alternating_replace_last|].
      apply Forall_app. split; [done|]. apply Forall_singleton. cbn [text html].
      split; [apply cleanText_cleaned|].
      unfold mergeHtml. destruct (html a); cbn; by rewrite orb_true_r.
    + split; [by apply alternating_snoc|].
      apply Forall_app. split; [by apply Forall_app|].
      apply Forall_singleton. split; [apply cleanText_cleaned | done].
Qed.

Lemma extractLoop_inv (els : list RoleEl) (out : list Msg) :
  alternating out →
  Forall (fun m => cleaned (text m) ∧ truthy (text m) || truthy (html m) = true) out →
  alternating (fold_left extractStep els out)
  ∧ Forall (fun m => cleaned (text m) ∧ truthy (text m) || truthy (html m) = true)
      (fold_left extractStep els out).
Proof.
  revert out. induction els as [|el els IH]; intros out Ha Hf; [done|].
  cbn [fold_left]. destruct (extractStep_inv out el Ha Hf). by apply IH.
Qed.

Lemma extractStep_length (out : list Msg) (el : RoleEl) :
  (length (extractStep out el) ≤ S (length out))%nat.
Proof.
  unfold extractStep. destruct (roleOf (roleRaw el)); [|lia].
  destruct (_ && _); [lia|].
  destruct (last out); [destruct (decide _)|];
    rewrite ?length_insert, ?length_app; cbn; lia.
Qed.

Lemma extractLoop_length (els : list RoleEl) (out : list Msg) :
  (length (fold_left extractStep els out) ≤ length els + length out)%nat.
Proof.
  revert out. induction els as [|el els IH]; intros out; cbn [fold_left length]; [lia|].
  pose proof (IH (extractStep out el)). pose proof (extractStep_length out el). lia.
Qed.

Lemma adjacentPairs_cons_cons (u a : Msg) (rest : list Msg) :
  adjacentPairs (u :: a :: rest)
  = match role u, role a with
    | user, assistant =>
        mkPair (text u) (text a) (html u) (html a) :: adjacentPairs (a :: rest)
    | _, _ => adjacentPairs (a :: rest)
    end.
Proof. reflexivity. Qed.

Lemma alternating_pairs (msgs : list Msg) :
  alternating msgs →
  length msgs = (2 * length (adjacentPairs msgs) + unpaired msgs)%nat.
Proof.
  induction msgs as [|m msgs IH]; [done|]. destruct msgs as [|m' msgs'].
  - intros _. unfold unpaired. cbn [head last length adjacentPairs].
    destruct (role m); repeat case_decide; try done; cbn; lia.
  - intros [Hr Ha]. specialize (IH Ha). cbn [length] in *.
    unfold unpaired in *. rewrite last_cons_cons. cbn [head] in *.
    rewrite adjacentPairs_cons_cons.
    destruct (role m) eqn:Hm, (role m') eqn:Hm'; try done;
      repeat case_decide; try done; cbn [length] in *; lia.
Qed.

(** X16. The messages the overlay extracts from the page alternate between
    the two roles; each has a cleaned text and is not empty in both text and
    markup; there are no more of them than top-level role elements; and
    pairing them leaves out nothing but an assistant message at the head and
    a user message at the end. *)
Theorem extractMessages_alternates (all : list RoleEl) :
  let out := extractMessages all in
  alternating out
  ∧ (∀ m, m ∈ out →
       cleaned (text m) ∧ (truthy (text m) = true ∨ truthy (html m) = true))
  ∧ (length out ≤ length (uniqueTopLevelRoleEls all) ≤ length all)%nat
  ∧ length out = (2 * length (pairMessages out) + unpaired out)%nat.
Proof.
  cbv zeta. unfold extractMessages.
  destruct (extractLoop_inv (uniqueTopLevelRoleEls all) []) as [Ha Hf]; [done|done|].
  split; [done|]. split; [|split].
  - intros m Hm. rewrite Forall_forall in Hf. destruct (Hf m Hm) as [Hc Ht].
    split; [done|]. by apply orb_true_iff.
  - pose proof (extractLoop_length (uniqueTopLevelRoleEls all) []) as Hl.
    cbn [length] in Hl. split; [lia|]. unfold uniqueTopLevelRoleEls. apply length_filter.
  - rewrite pairMessages_adjacent. by apply alternating_pairs.
Qed.

(** X17. Successive elements of one role become one message: when the last
    extracted message has the role of the next kept top-level element, the
    element is merged into it, and since both texts are cleaned the merged
    text is the two texts on two lines, without the blank line of the
    separator, or the one that is not empty; the markup is joined by a line
    feed. *)
Theorem extractMessages_merges (all : list RoleEl) (el : RoleEl) (l : Msg) :
  nested el = false →
  roleOf (roleRaw el) = Some (role l) →
  truthy (cleanText (innerText el)) = true ∨ truthy (trim (innerHTML el)) = true →
  last (extractMessages all) = Some l →
  ∃ init,
    extractMessages all = init ++ [l]
    ∧ extractMessages (all ++ [el])
      = init ++ [mkMsg (role l) (joinLines (text l) (cleanText (innerText el)))
                   (html l ++ [LF] ++ trim (innerHTML el))].
Proof.
  intros Hn Hr Hne Hl. apply last_Some in Hl as [init Hinit].
  exists init. split; [done|].
  destruct (extractLoop_inv (uniqueTopLevelRoleEls all) []) as [_ Hf]; [done|done|].
  fold (extractMessages all) in Hf. rewrite Hinit in Hf.
  apply Forall_app in Hf as [_ Hf]. apply Forall_singleton in Hf as [Hc _].
  unfold extractMessages at 1. unfold uniqueTopLevelRoleEls.
  rewrite filter_app, filter_cons_True, filter_nil by done.
  rewrite fold_left_app. fold (uniqueTopLevelRoleEls all). fold (extractMessages all).
  rewrite Hinit. cbn [fold_left].
  rewrite (extractStep_snoc _ _ el (role l)); [|done|].
  - rewrite decide_True by done.
    rewrite mergeText_joinLines; [done|done|apply cleanText_cleaned].
  - destruct Hne as [-> | ->]; [done|by rewrite andb_false_r].
Qed.

Lemma extractMessages_merges_witness :
  ∃ init,
    extractMessages [mkEl 0 false (Some (js "user")) (js "hi ") (js "<p>hi</p>")]
    = init ++ [mkMsg user (js "hi") (js "<p>hi</p>")]
    ∧ extractMessages
        ([mkEl 0 false (Some (js "user")) (js "hi ") (js "<p>hi</p>")]
         ++ [mkEl 1 false (Some (js "user")) (js " there") (js "<p>there</p> ")])
      = init ++ [mkMsg user (joinLines (js "hi") (cleanText (js " there")))
                   (js "<p>hi</p>" ++ [LF] ++ trim (js "<p>there</p> "))].
Proof.
  apply (extractMessages_merges
           [mkEl 0 false (Some (js "user")) (js "hi ") (js "<p>hi</p>")]
           (mkEl 1 false (Some (js "user")) (js " there") (js "<p>there</p> "))
           (mkMsg user (js "hi") (js "<p>hi</p>")));
    [reflexivity | reflexivity | left; reflexivity | reflexivity].
Defined.

(** ** The two extractions agree *)

Lemma uniqueLoop_distinct (els : list RoleEl) (seen : gset nat) (out : list RoleEl) :
  NoDup (map elKey els) → (∀ el, el ∈ els → elKey el ∉ seen) →
  snd (fold_left PageInfoExtract.uniqueStep els (seen, out)) = out ++ els.
Proof.
  revert seen out. induction els as [|el els IH]; intros seen out Hnd Hs.
  - cbn. by rewrite app_nil_r.
  - cbn [map] in Hnd. apply NoDup_cons in Hnd as [Hel Hnd].
    cbn [fold_left PageInfoExtract.uniqueStep].
    rewrite decide_False by (apply Hs; by left).
    rewrite IH; [by rewrite <- app_assoc | done |].
    intros e He Hin. apply elem_of_union in Hin as [Hin|Hin].
    + apply elem_of_singleton in Hin. apply Hel. rewrite <- Hin.
      apply list_elem_of_In, in_map, list_elem_of_In. done.
    + apply (Hs e); [by right|done].
Qed.

Lemma NoDup_keys_filter (P : RoleEl → Prop) `{∀ x, Decision (P x)} (els : list RoleEl) :
  NoDup (map elKey els) → NoDup (map elKey (filter P els)).
Proof.
  induction els as [|el els IH]; [done|]. cbn [map]. intros Hnd.
  apply NoDup_cons in Hnd as [Hel Hnd]. rewrite filter_cons.
  destruct (decide (P el)); [|by apply IH]. cbn [map]. apply NoDup_cons.
  split; [|by apply IH]. intros Hin. apply Hel.
  apply list_elem_of_In, in_map_iff in Hin as (e & He & Hin).
  apply list_elem_of_In in Hin. apply list_elem_of_filter in Hin as [_ Hin].
  rewrite <- He. apply list_elem_of_In, in_map, list_elem_of_In. done.
Qed.

Lemma uniqueTopLevelRoleEls_agree (all : list RoleEl) :
  NoDup (map elKey all) →
  PageInfoExtract.uniqueTopLevelRoleEls all = uniqueTopLevelRoleEls all.
Proof.
  intros Hnd. unfold PageInfoExtract.uniqueTopLevelRoleEls, uniqueTopLevelRoleEls.
  rewrite uniqueLoop_distinct; [done | by apply NoDup_keys_filter |].
  intros el _. apply not_elem_of_empty.
Qed.

Lemma uniqueLoop_length (els : list RoleEl) (seen : gset nat) (out : list RoleEl) :
  (length (snd (fold_left PageInfoExtract.uniqueStep els (seen, out)))
   ≤ length out + length els)%nat.
Proof.
  revert seen out. induction els as [|el els IH]; intros seen out; cbn [fold_left length].
  - cbn. lia.
  - cbn [PageInfoExtract.uniqueStep]. destruct (decide _).
    + pose proof (IH seen out). lia.
    + pose proof (IH ({[elKey el]} ∪ seen) (out ++ [el])) as Hl.
      rewrite length_app in Hl. cbn [length] in Hl. lia.
Qed.

Lemma mergeStep_forget (merged : list PageInfo.Msg) (el : RoleEl) (r : Role) (i : Z) :
  roleOf (roleRaw el) = Some r →
  negb (truthy (cleanText (innerText el))) && negb (truthy (trim (innerHTML el))) = false →
  map forgetIdx
    (PageInfoExtract.mergeStep merged
       (PageInfo.mkMsg r (cleanText (innerText el)) (trim (innerHTML el)) i))
  = extractStep (map forgetIdx merged) el.
Proof.
  intros Hr He. destruct merged as [|l init _] using rev_ind.
  - cbn [map]. by rewrite (extractStep_nil el r).
  - rewrite map_app. cbn [map]. rewrite (extractStep_snoc _ _ el r) by done.
    unfold PageInfoExtract.mergeStep. rewrite last_snoc. cbn [PageInfo.role forgetIdx role].
    destruct (decide (PageInfo.role l = r)).
    + rewrite insert_snoc_last, map_app. done.
    + by rewrite !map_app.
Qed.

Lemma extractLoops_agree (els : list RoleEl) (raw : list PageInfo.Msg) (i : Z) :
  map forgetIdx
    (fold_left PageInfoExtract.mergeStep
       (fst (fold_left PageInfoExtract.rawStep els (raw, i))) [])
  = fold_left extractStep els
      (map forgetIdx (fold_left PageInfoExtract.mergeStep raw [])).
Proof.
  revert raw i. induction els as [|el els IH]; intros raw i; [done|].
  cbn [fold_left]. unfold PageInfoExtract.rawStep at 2.
  destruct (roleOf (roleRaw el)) as [r|] eqn:Hr;
    [|by rewrite IH, extractStep_skip by eauto].
  destruct (negb (truthy (cleanText (innerText el))) && negb (truthy (trim (innerHTML el))))
    eqn:He; [by rewrite IH, extractStep_skip by eauto|].
  rewrite IH, fold_left_app. cbn [fold_left]. by rewrite (mergeStep_forget _ el r).
Qed.

Lemma rawLoop_length (els : list RoleEl) (raw : list PageInfo.Msg) (i : Z) :
  (length (fst (fold_left PageInfoExtract.rawStep els (raw, i)))
   ≤ length raw + length els)%nat.
Proof.
  revert raw i. induction els as [|el els IH]; intros raw i; cbn [fold_left length].
  - cbn. lia.
  - unfold PageInfoExtract.rawStep at 2. destruct (roleOf (roleRaw el)).
    + destruct (_ && _).
      * pose proof (IH raw i). lia.
      * pose proof (IH (raw ++ [PageInfo.mkMsg r (cleanText (innerText el)) (trim (innerHTML el)) i]) (i + 1)) as Hl.
        rewrite length_app in Hl. cbn [length] in Hl. lia.
    + pose proof (IH raw i). lia.
Qed.

(** X18. The two content scripts read the same conversation: when the
    element list names no element twice, the messages of
    [extractMessagesByRole], their index left aside, are the messages of the
    overlay's [extractMessages], and the linear nodes of the page info are
    the overlay's pairs, numbered from 0. *)
Theorem extract_agree (all : list RoleEl) :
  NoDup (map elKey all) →
  map forgetIdx (fst (PageInfoExtract.extractMessagesByRole all)) = extractMessages all
  ∧ fst (PageInfoExtract.pageInfo all)
    = numberFrom 0 (pairMessages (extractMessages all)).
Proof.
  intros Hnd.
  assert (map forgetIdx (fst (PageInfoExtract.extractMessagesByRole all))
          = extractMessages all) as Hm.
  { unfold PageInfoExtract.extractMessagesByRole. cbn [fst].
    rewrite uniqueTopLevelRoleEls_agree by done. by rewrite extractLoops_agree. }
  split; [done|]. unfold PageInfoExtract.pageInfo.
  destruct (PageInfoExtract.extractMessagesByRole all) as [messages debug].
  cbn [fst] in *. by rewrite pairToLinearNodes_spec, Hm.
Qed.

Lemma extract_agree_witness :
  map forgetIdx
    (fst (PageInfoExtract.extractMessagesByRole
            [mkEl 0 false (Some (js "user")) (js "hi ") (js "<p>hi</p>");
             mkEl 1 true (Some (js "user")) (js "hi") (js "hi");
             mkEl 2 false (Some (js "assistant")) (js "hello") (js "<p>hello</p>");
             mkEl 3 false (Some (js "assistant")) (js "there") (js "<p>there</p>")]))
  = extractMessages
      [mkEl 0 false (Some (js "user")) (js "hi ") (js "<p>hi</p>");
       mkEl 1 true (Some (js "user")) (js "hi") (js "hi");
       mkEl 2 false (Some (js "assistant")) (js "hello") (js "<p>hello</p>");
       mkEl 3 false (Some (js "assistant")) (js "there") (js "<p>there</p>")]
  ∧ fst (PageInfoExtract.pageInfo
           [mkEl 0 false (Some (js "user")) (js "hi ") (js "<p>hi</p>");
            mkEl 1 true (Some (js "user")) (js "hi") (js "hi");
            mkEl 2 false (Some (js "assistant")) (js "hello") (js "<p>hello</p>");
            mkEl 3 false (Some (js "assistant")) (js "there") (js "<p>there</p>")])
    = numberFrom 0
        (pairMessages
           (extractMessages
              [mkEl 0 false (Some (js "user")) (js "hi ") (js "<p>hi</p>");
               mkEl 1 true (Some (js "user")) (js "hi") (js "hi");
               mkEl 2 false (Some (js "assistant")) (js "hello") (js "<p>hello</p>");
               mkEl 3 false (Some (js "assistant")) (js "there") (js "<p>there</p>")])).
Proof.
  apply (extract_agree
           [mkEl 0 false (Some (js "user")) (js "hi ") (js "<p>hi</p>");
            mkEl 1 true (Some (js "user")) (js "hi") (js "hi");
            mkEl 2 false (Some (js "assistant")) (js "hello") (js "<p>hello</p>");
            mkEl 3 false (Some (js "assistant")) (js "there") (js "<p>there</p>")]).
  apply (bool_decide_unpack _). vm_compute. exact I.
Defined.

Lemma unpaired_le (msgs : list Msg) : (unpaired msgs ≤ 2)%nat.
Proof.
  unfold unpaired. destruct (head msgs), (last msgs); repeat case_decide; lia.
Qed.

(** X19. The counts reported with the page info are consistent: there are
    at most as many messages as top-level role elements, at most as many of
    those as elements, and the merged messages are all used in a linear
    node but for at most two of them, so the number of messages is twice
    the number of nodes, or one or two more. *)
Theorem pageInfo_counts (all : list RoleEl) :
  let '(linearNodes, (roleCount, messageCount, nodeCount)) :=
    PageInfoExtract.pageInfo all in
  nodeCount = Z.of_nat (length linearNodes)
  ∧ 2 * nodeCount ≤ messageCount ≤ 2 * nodeCount + 2
  ∧ messageCount ≤ roleCount ≤ Z.of_nat (length all).
Proof.
  unfold PageInfoExtract.pageInfo, PageInfoExtract.extractMessagesByRole.
  cbn [PageInfoExtract.roleCount PageInfoExtract.messageCount].
  set (roleEls := PageInfoExtract.uniqueTopLevelRoleEls all).
  set (merged := fold_left PageInfoExtract.mergeStep _ []).
  pose proof (extractLoops_agree roleEls [] 0) as Hm. cbn [fold_left map] in Hm.
  fold merged in Hm.
  destruct (extractLoop_inv roleEls []) as [Ha _]; [done|done|].
  rewrite <- Hm in Ha. apply alternating_pairs in Ha.
  pose proof (unpaired_le (map forgetIdx merged)) as Hu.
  rewrite length_map in Ha.
  rewrite pairToLinearNodes_spec, numberFrom_length, pairMessages_adjacent.
  pose proof (extractLoop_length roleEls []) as Hl. rewrite <- Hm, length_map in Hl.
  cbn [length] in Hl.
  assert (length roleEls ≤ length all)%nat as Hr.
  { unfold roleEls, PageInfoExtract.uniqueTopLevelRoleEls.
    pose proof (uniqueLoop_length (filter (fun el => nested el = false) all) ∅ []) as H1.
    pose proof (length_filter (fun el => nested el = false) all) as H2.
    cbn [length] in H1. lia. }
  lia.
Qed.

(** ** Trees are stored under their own key *)

Lemma appendUnderActive_convoKey (st st' : TreeState) (pair : option Pair) (i : Z)
    (rnd : jsstring) :
  appendUnderActive st pair i rnd = Some st' → convoKey st' = convoKey st.
Proof.
  unfold appendUnderActive. destruct (activeOrRoot st); [|done].
  destruct pair; [|done]. cbn. by intros [= <-].
Qed.

Lemma appendLoop_convoKey (n : nat) (pairs : list Pair) (rnd : nat → jsstring)
    (k : nat) (i : Z) (st st' : TreeState) :
  appendLoop n pairs rnd k i st = Some st' → convoKey st' = convoKey st.
Proof.
  revert k i st. induction n as [|n IH]; intros k i st; cbn [appendLoop].
  - by intros [= <-].
  - destruct (appendUnderActive st (pairAt pairs i) i (rnd k)) as [mid|] eqn:Hm; [|done].
    cbn. intros H. rewrite (IH _ _ _ H). by eapply appendUnderActive_convoKey.
Qed.

Lemma reconcile_convoKey (st st' : TreeState) (pairs : list Pair) (rnd : nat → jsstring) :
  reconcile st pairs rnd = Some st' → convoKey st' = convoKey st.
Proof.
  unfold reconcile. destruct (_ <=? _); [by intros [= <-]|]. apply appendLoop_convoKey.
Qed.

Lemma keyed_empty : keyed ∅.
Proof. intros k st. unfold loadTree. by rewrite lookup_empty. Qed.

Lemma keyed_saveTree (storage : gmap jsstring jsstring) (st : TreeState) :
  keyed storage → keyed (saveTree storage st).
Proof.
  intros Hk k st' Hl. destruct (decide (k = convoKey st)) as [->|Hne].
  - rewrite loadTree_saveTree in Hl. by injection Hl as <-.
  - apply Hk. rewrite <- Hl. unfold loadTree, saveTree.
    rewrite lookup_insert_ne; [done|]. intros Heq. by apply storageKey_inj in Heq.
Qed.

Lemma keyed_other (storage : gmap jsstring jsstring) (key v : jsstring) :
  (∀ k, storageKey k ≠ key) → keyed storage → keyed (<[ key := v ]> storage).
Proof.
  intros Hne Hk k st' Hl. apply Hk. rewrite <- Hl. unfold loadTree.
  rewrite lookup_insert_ne; [done|]. apply not_eq_sym, Hne.
Qed.

(** X20. Trees are stored under the key of their conversation, and a
    refresh follows the page to its conversation: no write of the overlay
    (a tree, scroll offsets, a panel preference) breaks the first, and with
    it whatever [refresh] returns for the conversation [key] is a tree of
    that conversation, the stored one or a fresh one after a change of
    conversation. *)
Theorem refresh_follows_key (storage : gmap jsstring jsstring) (key : jsstring) :
  keyed storage →
  (∀ st pairs rnd st',
     refresh storage key st pairs rnd = Some st' → convoKey st' = key)
  ∧ (∀ st pairs rnd, convoKey st ≠ key →
       refresh storage key st pairs rnd = Some (initialTree storage key))
  ∧ (∀ st, keyed (saveTree storage st))
  ∧ (∀ k encoded, keyed (saveScroll storage k encoded))
  ∧ (∀ v, keyed (<[ PANEL_LEFT_KEY := v ]> storage))
  ∧ (∀ v, keyed (<[ PANEL_BOTTOM_KEY := v ]> storage)).
Proof.
  intros Hk. split; [|split; [|split; [|split; [|split]]]].
  - intros st pairs rnd st'. unfold refresh.
    destruct (decide (convoKey st = key)) as [<-|Hne].
    + apply reconcile_convoKey.
    + intros [= <-]. unfold initialTree.
      destruct (loadTree storage key) as [saved|] eqn:Hl; [|done].
      by apply Hk.
  - intros st pairs rnd Hne. unfold refresh. by rewrite decide_False.
  - intros st. by apply keyed_saveTree.
  - intros k encoded. apply keyed_other; [|done].
    intros k'. apply storageKey_not_scroll.
  - intros v. apply keyed_other; [|done]. intros k'. apply storageKey_not_panel.
  - intros v. apply keyed_other; [|done]. intros k'. apply storageKey_not_panel.
Qed.

Lemma refresh_follows_key_witness :
  ∃ st',
    refresh (saveTree ∅ (freshTree (js "c_1"))) (js "c_2") (freshTree (js "c_1"))
      [] rndAb = Some st'
    ∧ convoKey st' = js "c_2".
Proof.
  destruct (refresh_follows_key (saveTree ∅ (freshTree (js "c_1"))) (js "c_2")
              (keyed_saveTree ∅ (freshTree (js "c_1")) keyed_empty))
    as (H1 & H2 & _).
  assert (convoKey (freshTree (js "c_1")) ≠ js "c_2") as Hne
    by (vm_compute; discriminate).
  eexists. split; [exact (H2 _ [] rndAb Hne)|].
  exact (H1 _ [] rndAb _ (H2 _ [] rndAb Hne)).
Defined.

(** ** A reloaded tree has the structure that was saved *)

Lemma strip_lookup (st : TreeState) (k : jsstring) :
  nodes (stripTreeForPersist st) !! k = stripNode <$> nodes st !! k.
Proof. cbn [stripTreeForPersist nodes]. apply lookup_fmap. Qed.

Lemma strip_soundNode (st : TreeState) (k : jsstring) (n : TreeNode) :
  soundNode st k n ↔ soundNode (stripTreeForPersist st) k (stripNode n).
Proof.
  unfold soundNode. cbn [stripNode id depth children parentId].
  split; intros (H1 & H2 & H3 & H4 & H5); (split; [done|]); (split; [done|]);
    (split; [done|]); split.
  - intros c Hc. destruct (H4 c Hc) as (Hr & cn & Hcn & Hp). split; [done|].
    exists (stripNode cn). by rewrite strip_lookup, Hcn.
  - intros Hne. destruct (H5 Hne) as (p & Hp & Hin & Hd).
    exists (stripNode p). by rewrite strip_lookup, Hp.
  - intros c Hc. destruct (H4 c Hc) as (Hr & cn & Hcn & Hp). split; [done|].
    rewrite strip_lookup in Hcn. destruct (nodes st !! c) as [cn0|]; [|done].
    injection Hcn as <-. eauto.
  - intros Hne. destruct (H5 Hne) as (p & Hp & Hin & Hd).
    rewrite strip_lookup in Hp. destruct (nodes st !! parentId n) as [p0|]; [|done].
    injection Hp as <-. eauto.
Qed.

Lemma strip_tree_ok (st : TreeState) :
  tree_ok (stripTreeForPersist st) = tree_ok st.
Proof.
  apply eq_true_iff_eq. rewrite !tree_ok_sound, strip_lookup. split.
  - intros [Hr Hall]. split.
    + destruct (nodes st !! ROOT_ID); [eauto|]. by destruct Hr.
    + intros k n Hk. apply (proj2 (strip_soundNode st k n)), Hall.
      by rewrite strip_lookup, Hk.
  - intros [[r Hr] Hall]. split; [rewrite Hr; cbn; eauto|].
    intros k n Hk. rewrite strip_lookup in Hk.
    destruct (nodes st !! k) as [n0|] eqn:Hn0; [|done]. injection Hk as <-.
    by apply (proj1 (strip_soundNode st k n0)), Hall.
Qed.

Lemma strip_hiddenLoop (st : TreeState) (fuel : nat) (guard : gset jsstring)
    (cur : jsstring) :
  hiddenLoop fuel (stripTreeForPersist st) guard cur = hiddenLoop fuel st guard cur.
Proof.
  revert guard cur. induction fuel as [|f IH]; intros guard cur; [done|].
  cbn [hiddenLoop]. destruct (keepWalking guard cur); [|done].
  rewrite strip_lookup. destruct (nodes st !! cur) as [n|]; [|done].
  cbn [fmap option_fmap option_map stripNode parentId].
  change (isCollapsed (stripTreeForPersist st) (parentId n))
    with (isCollapsed st (parentId n)).
  by rewrite IH.
Qed.

Lemma strip_isHidden (st : TreeState) (k : jsstring) :
  isHiddenByCollapsed (stripTreeForPersist st) k = isHiddenByCollapsed st k.
Proof.
  unfold isHiddenByCollapsed. rewrite strip_hiddenLoop.
  cbn [stripTreeForPersist nodes]. by rewrite map_size_fmap.
Qed.

Lemma strip_pathLoop (st : TreeState) (fuel : nat) (guard : gset jsstring)
    (cur : jsstring) (out : list TreeNode) :
  pathLoop fuel (stripTreeForPersist st) guard cur (map stripNode out)
  = option_map (map stripNode) (pathLoop fuel st guard cur out).
Proof.
  revert guard cur out. induction fuel as [|f IH]; intros guard cur out; [done|].
  cbn [pathLoop]. destruct (keepWalking guard cur); [|done].
  rewrite strip_lookup. destruct (nodes st !! cur) as [n|]; [|done].
  cbn [fmap option_fmap option_map stripNode parentId].
  rewrite <- IH, map_app. done.
Qed.

Lemma foldM_map {A B C : Type} (g : A → C) (f : A → B → option A)
    (f' : C → B → option C) (l : list B) (a : A) :
  (∀ a0 b, b ∈ l → f' (g a0) b = option_map g (f a0 b)) →
  foldM f' (g a) l = option_map g (foldM f a l).
Proof.
  revert a. induction l as [|b l IH]; intros a Hf; [done|].
  cbn [foldM]. rewrite Hf by left. destruct (f a b) as [a1|]; [|done].
  cbn. apply IH. intros a0 b0 Hb0. apply Hf. by right.
Qed.

Lemma strip_flattenDfs (st : TreeState) (fuel : nat) (i : jsstring)
    (res : list TreeNode) :
  flattenDfs fuel (stripTreeForPersist st) i (map stripNode res)
  = option_map (map stripNode) (flattenDfs fuel st i res).
Proof.
  revert i res. induction fuel as [|f IH]; intros i res; [done|].
  cbn [flattenDfs]. rewrite strip_lookup. destruct (nodes st !! i) as [n|]; [|done].
  cbn [fmap option_fmap option_map stripNode children].
  rewrite <- (foldM_map (map stripNode) (fun acc c => flattenDfs f st c acc)
                (fun acc c => flattenDfs f (stripTreeForPersist st) c acc)).
  - f_equal. destruct (bool_decide (i = ROOT_ID)); [done|]. by rewrite map_app.
  - intros a0 b _. apply IH.
Qed.

Lemma strip_filter_hidden (st : TreeState) (l : list TreeNode) :
  filter (fun n => isHiddenByCollapsed (stripTreeForPersist st) (id n) = false)
    (map stripNode l)
  = map stripNode (filter (fun n => isHiddenByCollapsed st (id n) = false) l).
Proof.
  induction l as [|n l IH]; [done|]. cbn [map]. rewrite !filter_cons.
  rewrite strip_isHidden. cbn [stripNode id].
  destruct (decide (isHiddenByCollapsed st (id n) = false)); cbn [map]; by rewrite IH.
Qed.

(** X21. Reloading a saved tree loses the markup and nothing of the
    structure: what [loadTree] returns after [saveTree] of the stripped
    state passes the integrity check exactly when the state did, hides the
    same nodes, and gives the same path to the cursor and the same
    listings, node for node with the markup emptied; stripping it again
    changes nothing. *)
Theorem reload_keeps_structure (storage : gmap jsstring jsstring) (st : TreeState)
    (fuel : nat) :
  ∃ loaded,
    loadTree (saveTree storage (stripTreeForPersist st)) (convoKey st) = Some loaded
    ∧ tree_ok loaded = tree_ok st
    ∧ activeId loaded = activeId st
    ∧ (∀ k, isHiddenByCollapsed loaded k = isHiddenByCollapsed st k)
    ∧ pathToRoot loaded = map stripNode (pathToRoot st)
    ∧ flattenTree fuel loaded = option_map (map stripNode) (flattenTree fuel st)
    ∧ flatNodes fuel loaded = option_map (map stripNode) (flatNodes fuel st)
    ∧ stripTreeForPersist loaded = loaded.
Proof.
  exists (stripTreeForPersist st). split.
  { apply (loadTree_saveTree storage (stripTreeForPersist st)). }
  split; [apply strip_tree_ok|]. split; [done|]. split; [apply strip_isHidden|].
  assert (flattenTree fuel (stripTreeForPersist st)
          = option_map (map stripNode) (flattenTree fuel st)) as Hflat.
  { unfold flattenTree. apply (strip_flattenDfs st fuel ROOT_ID []). }
  split; [|split; [done|split]].
  - unfold pathToRoot. cbn [stripTreeForPersist nodes activeId].
    rewrite map_size_fmap.
    pose proof (strip_pathLoop st (S (size (nodes st))) ∅ (activeId st) []) as H.
    cbn [map] in H. cbn [stripTreeForPersist nodes activeId] in H. 
    change (mkState (convoKey st) (seenLinearCount st) (activeId st)
              (stripNode <$> nodes st) (collapsedIds st))
      with (stripTreeForPersist st).
    rewrite H. destruct (pathLoop _ st ∅ (activeId st) []); cbn; [|done].
    by rewrite map_rev.
  - unfold flatNodes. rewrite Hflat.
    destruct (flattenTree fuel st) as [l|]; [|done].
    cbn [fmap option_fmap option_map]. f_equal. apply strip_filter_hidden.
  - unfold stripTreeForPersist. cbn [convoKey seenLinearCount activeId nodes collapsedIds].
    f_equal. rewrite <- map_fmap_compose. by apply map_fmap_ext.
Qed.

(** ** The delete button *)

(** X22. The delete button on a sound tree: with the cursor on the root it
    only shows the alert, and a declined confirmation changes nothing; a
    confirmed deletion returns, leaves a sound tree without the deleted
    node and with the cursor on its parent, and stores the stripped new
    tree under the key of the conversation, so that a reload gives that
    tree, without touching the entry of any other conversation. *)
Theorem deleteActiveNode_spec (fuel : nat) (st : TreeState) (ok : bool)
    (storage : gmap jsstring jsstring) (target : TreeNode) :
  tree_ok st = true → nodes st !! activeId st = Some target →
  (enoughFuel st ≤ fuel)%nat →
  ∃ next storage' alert,
    deleteActiveNode fuel st ok storage = Some (next, storage', alert)
    ∧ tree_ok next = true
    ∧ (alert = true ↔ activeId st = ROOT_ID)
    ∧ (activeId st = ROOT_ID ∨ ok = false → next = st ∧ storage' = storage)
    ∧ (activeId st ≠ ROOT_ID → ok = true →
         nodes next !! activeId st = None
         ∧ activeId next = parentId target
         ∧ loadTree storage' (convoKey st) = Some (stripTreeForPersist next)
         ∧ ∀ key, key ≠ convoKey st → loadTree storage' key = loadTree storage key).
Proof.
  intros Hok Ht Hf. unfold deleteActiveNode.
  rewrite (tree_ok_truthy st _ _ Hok Ht). cbn [negb orb].
  destruct (decide (activeId st = ROOT_ID)) as [Hr|Hr].
  { rewrite bool_decide_eq_true_2 by done. exists st, storage, true.
    split; [done|]. split; [done|]. split; [done|]. split; [done|]. done. }
  rewrite bool_decide_eq_false_2 by done. destruct ok.
  - destruct (deleteSubtree_total st fuel (activeId st) Hok Hf) as [next Hdel]; [eauto|].
    rewrite Hdel. cbn [mbind option_bind].
    pose proof (deleteSubtree_sound fuel st next _ _ Hok Ht Hr Hdel) as Hok'.
    destruct (deleteSubtree_gone fuel st next _ _ Hok Ht Hr Hdel) as (Hg & Ha & Hk & _).
    exists next, (saveTree storage (stripTreeForPersist next)), false.
    split; [done|]. split; [done|]. split; [done|]. split.
    { intros [?|?]; done. }
    intros _ _. split; [done|]. split; [done|]. split.
    + rewrite <- Hk. apply (loadTree_saveTree storage (stripTreeForPersist next)).
    + intros key Hne. unfold loadTree, saveTree. rewrite lookup_insert_ne; [done|].
      cbn [stripTreeForPersist convoKey]. rewrite Hk.
      intros Heq. by apply storageKey_inj in Heq.
  - exists st, storage, false.
    split; [done|]. split; [done|]. split; [done|]. split; [done|]. done.
Qed.

Lemma deleteActiveNode_spec_witness :
  ∃ next storage' alert,
    deleteActiveNode 5 branched true ∅ = Some (next, storage', alert)
    ∧ tree_ok next = true
    ∧ nodes next !! js "n_3_d4" = None
    ∧ activeId next = js "n_0_a1"
    ∧ loadTree storage' (js "c_1") = Some (stripTreeForPersist next).
Proof.
  assert (tree_ok branched = true) as H0 by (vm_compute; reflexivity).
  assert (nodes branched !! activeId branched
          = Some (turnNode (js "n_3_d4") (js "n_0_a1") [js "n_4_e5"] 2 3)) as H1
    by (vm_compute; reflexivity).
  assert (enoughFuel branched ≤ 5)%nat as H2 by (vm_compute; lia).
  destruct (deleteActiveNode_spec 5 branched true ∅ _ H0 H1 H2)
    as (next & storage' & alert & Hd & Hok & _ & _ & Hrest).
  destruct Hrest as (Hg & Ha & Hl & _); [vm_compute; discriminate | reflexivity |].
  exists next, storage', alert.
  exact (conj Hd (conj Hok (conj Hg (conj Ha Hl)))).
Defined.

(** ** Selecting a node starts a branch *)

(** X23. Branching: after a node of a sound tree is selected, the next
    exchange of the page is appended under that node, whatever children it
    already has: the pass returns a sound tree in which the new node is the
    last child of the selected node, one level deeper, and is the new
    cursor, and in which every other node is as before. *)
Theorem selectActive_branches (st : TreeState) (i : jsstring) (p : TreeNode)
    (pairs : list Pair) (rnd : nat → jsstring) :
  tree_ok st = true → nodes st !! i = Some p →
  0 ≤ seenLinearCount st →
  Z.of_nat (length pairs) = seenLinearCount st + 1 →
  nodes st !! freshId (seenLinearCount st) (rnd 0%nat) = None →
  ∃ st' pair,
    reconcile (selectActive st st i) pairs rnd = Some st'
    ∧ pairs !! Z.to_nat (seenLinearCount st) = Some pair
    ∧ nodes st' !! freshId (seenLinearCount st) (rnd 0%nat)
      = Some (mkNode (freshId (seenLinearCount st) (rnd 0%nat)) i []
                (depth p + 1) (seenLinearCount st)
                (makeSummaryFromUserText (userText pair) 20)
                (pairUserHtml pair) (pairAssistantHtml pair))
    ∧ nodes st' !! i
      = Some (withChildren p (children p ++ [freshId (seenLinearCount st) (rnd 0%nat)]))
    ∧ (∀ k, k ≠ freshId (seenLinearCount st) (rnd 0%nat) → k ≠ i →
         nodes st' !! k = nodes st !! k)
    ∧ activeId st' = freshId (seenLinearCount st) (rnd 0%nat)
    ∧ seenLinearCount st' = Z.of_nat (length pairs)
    ∧ tree_ok st' = true.
Proof.
  intros Hok Hp H0 Hlen Hfresh.
  destruct (tree_ok_node st i p Hok Hp) as (Hid & _).
  set (newId := freshId (seenLinearCount st) (rnd 0%nat)) in *.
  assert (newId ≠ i) as Hne by congruence.
  destruct (pairAt_Some pairs (seenLinearCount st)) as [pair Hpair]; [lia|lia|].
  unfold selectActive. rewrite Hp.
  set (st1 := mkState (convoKey st) (seenLinearCount st) i (nodes st) (collapsedIds st)).
  assert (tree_ok st1 = true) as Hok1 by exact Hok.
  unfold reconcile. cbn [seenLinearCount st1].
  rewrite (proj2 (Z.leb_gt _ _)) by lia.
  replace (Z.to_nat (Z.of_nat (length pairs) - seenLinearCount st)) with 1%nat by lia.
  cbn [appendLoop].
  destruct (appendUnderActive st1 (pairAt pairs (seenLinearCount st))
              (seenLinearCount st) (rnd 0%nat)) as [st'|] eqn:Happ.
  2:{ exfalso. revert Happ. unfold appendUnderActive, activeOrRoot.
      cbn [st1 nodes activeId]. by rewrite Hp, Hpair. }
  cbn [mbind option_bind]. exists st', pair.
  pose proof (appendUnderActive_tree_ok st1 st' _ _ _ Hok1 Hfresh Happ) as Hok'.
  revert Happ. unfold appendUnderActive, activeOrRoot. cbn [st1 nodes activeId].
  rewrite Hp, Hpair. cbn [mbind option_bind]. rewrite Hid. fold newId.
  intros [= <-]. cbn [nodes activeId seenLinearCount].
  split; [done|]. split.
  { unfold pairAt in Hpair. by rewrite (proj2 (Z.leb_le _ _) H0) in Hpair. }
  split; [by rewrite lookup_insert_ne, lookup_insert_eq|].
  split; [by rewrite lookup_insert_eq|]. split.
  { intros k Hk1 Hk2. by rewrite !lookup_insert_ne. }
  split; [done|]. split; [lia|]. exact Hok'.
Qed.

Lemma selectActive_branches_witness :
  ∃ st' pair,
    reconcile (selectActive twoBranches twoBranches (js "n_1_b2"))
      [mkPair (js "a") (js "b") [] []; mkPair (js "c") (js "d") [] [];
       mkPair (js "e") (js "f") [] []] rndAb = Some st'
    ∧ [mkPair (js "a") (js "b") [] []; mkPair (js "c") (js "d") [] [];
       mkPair (js "e") (js "f") [] []] !! Z.to_nat (seenLinearCount twoBranches)
      = Some pair
    ∧ activeId st' = freshId (seenLinearCount twoBranches) (rndAb 0%nat)
    ∧ tree_ok st' = true.
Proof.
  assert (tree_ok twoBranches = true) as H0 by (vm_compute; reflexivity).
  assert (nodes twoBranches !! js "n_1_b2"
          = Some (turnNode (js "n_1_b2") ROOT_ID [] 1 1)) as H1
    by (vm_compute; reflexivity).
  destruct (selectActive_branches twoBranches (js "n_1_b2") _
              [mkPair (js "a") (js "b") [] []; mkPair (js "c") (js "d") [] [];
               mkPair (js "e") (js "f") [] []] rndAb H0 H1)
    as (st' & pair & Hr & Hp & _ & _ & _ & Ha & _ & Hok);
    [vm_compute; discriminate | reflexivity | vm_compute; reflexivity |].
  exists st', pair. exact (conj Hr (conj Hp (conj Ha Hok))).
Defined.

(** ** After an alignment the panel replays the conversation *)

Lemma rev_seq_S (k : nat) : rev (seq 0 (S k)) = k :: rev (seq 0 k).
Proof. rewrite seq_S, rev_app_distr. done. Qed.

Lemma chain_pathLoop (st : TreeState) (pairs : list Pair) (n : nat) :
  (∀ i, (i < n)%nat → nodes st !! alignId i = Some (alignedNode pairs n i)) →
  ∀ i fuel guard out,
    (i < n)%nat → (S i < fuel)%nat → (∀ j, (j ≤ i)%nat → alignId j ∉ guard) →
    pathLoop fuel st guard (alignId i) out
    = Some (out ++ map (alignedNode pairs n) (rev (seq 0 (S i)))).
Proof.
  intros Hnodes. induction i as [|i IH]; intros fuel guard out Hi Hf Hg.
  - destruct fuel as [|[|f]]; [lia|lia|]. cbn [pathLoop].
    rewrite keepWalking_true;
      [|apply alignId_truthy|apply alignId_not_root|by apply Hg].
    rewrite Hnodes by done. cbn [alignedNode parentId].
    by rewrite keepWalking_root.
  - destruct fuel as [|f]; [lia|]. cbn [pathLoop].
    rewrite keepWalking_true;
      [|apply alignId_truthy|apply alignId_not_root|by apply Hg].
    rewrite Hnodes by done. cbn [alignedNode parentId].
    rewrite IH; [|lia|lia|].
    + rewrite (rev_seq_S (S i)). cbn [map]. rewrite <- app_assoc. done.
    + intros j Hj Hin. apply elem_of_union in Hin as [Hin|Hin].
      * apply elem_of_singleton, alignId_inj in Hin. lia.
      * apply (Hg j); [lia|done].
Qed.

Lemma map_lookup_seq {A B : Type} (h : option A → B) (pre l : list A) :
  map (fun i => h ((pre ++ l) !! i)) (seq (length pre) (length l))
  = map (fun x => h (Some x)) l.
Proof.
  revert pre. induction l as [|x l IH]; intros pre; [done|].
  cbn [length seq map]. f_equal.
  - by rewrite list_lookup_middle.
  - specialize (IH (pre ++ [x])). rewrite <- app_assoc, length_app in IH.
    cbn [length app] in IH. by rewrite Nat.add_1_r in IH.
Qed.

(** X24. After an alignment the left panel replays the conversation: the
    aligner returns a tree whose path to the cursor is the whole chain, node
    0 first, and the cards drawn for it show the markup of the pairs, one
    card for each pair and in the order of the page. *)
Theorem align_replays (key : jsstring) (pairs : list Pair) :
  ∃ st,
    buildAlignedLinearTreeFromPairs key pairs = Some st
    ∧ pathToRoot st = map (alignedNode pairs (length pairs)) (seq 0 (length pairs))
    ∧ map linearIndex (pathToRoot st) = map Z.of_nat (seq 0 (length pairs))
    ∧ cardsHtml st pairs = map (fun p => (pairUserHtml p, pairAssistantHtml p)) pairs.
Proof.
  destruct (alignLoop_inv pairs (length pairs) 0 _ (alignInv_init pairs))
    as ([m pid] & Hfold & Hpid & Hroot & Hnodes & Hnone & Hsize).
  cbn [fst snd Nat.add] in Hpid, Hroot, Hnodes, Hnone, Hsize.
  unfold buildAlignedLinearTreeFromPairs. rewrite Hfold. cbn [mbind option_bind].
  eexists. split; [reflexivity|].
  match goal with |- pathToRoot ?s = _ ∧ _ => set (st := s) end.
  assert (pathToRoot st
          = map (alignedNode pairs (length pairs)) (seq 0 (length pairs))) as Hpath.
  { unfold pathToRoot. cbn [st nodes activeId]. rewrite Hsize.
    destruct (length pairs) as [|n'] eqn:E.
    - cbn [Nat.ltb Nat.leb pathLoop]. by rewrite keepWalking_root.
    - rewrite (proj2 (Nat.ltb_lt 0 (S n'))) by lia.
      replace (S n' - 1)%nat with n' by lia.
      rewrite (chain_pathLoop st pairs (S n')); [|done|lia|lia|].
      + cbn [default app]. unfold Datatypes.id. by rewrite map_rev, rev_involutive.
      + intros j _. apply not_elem_of_empty. }
  split; [done|]. split.
  - rewrite Hpath, map_map. done.
  - unfold cardsHtml. rewrite Hpath, map_map. cbn [alignedNode linearIndex].
    pose proof (map_lookup_seq
                  (fun o : option Pair =>
                     match o with
                     | Some p => (pairUserHtml p, pairAssistantHtml p)
                     | None => (NOT_LOADED, NOT_LOADED)
                     end) [] pairs) as H.
    cbn [length app] in H. rewrite <- H. apply map_ext. intros i.
    unfold getLiveHtmlByIndex, pairAt.
    rewrite (proj2 (Z.leb_le 0 (Z.of_nat i))) by lia. by rewrite Nat2Z.id.
Qed.

(** ** A pass extends the active path *)

Lemma upPath_transfer (st st' : TreeState) (k : jsstring) (l : list jsstring) :
  (∀ x n, nodes st !! x = Some n →
     ∃ n', nodes st' !! x = Some n' ∧ parentId n' = parentId n) →
  upPath st k l → upPath st' k l.
Proof.
  intros Hkeep. induction 1 as [|k n l Hne Hk Hup IH]; [constructor|].
  destruct (Hkeep k n Hk) as (n' & Hk' & Hp). econstructor; [done|exact Hk'|].
  by rewrite Hp.
Qed.

(** One append under a cursor that resolves. *)
Lemma appendUnderActive_path (st st' : TreeState) (p : TreeNode) (pair : Pair)
    (i : Z) (r : jsstring) :
  tree_ok st = true → nodes st !! activeId st = Some p →
  nodes st !! freshId i r = None →
  appendUnderActive st (Some pair) i r = Some st' →
  pathIds st' = pathIds st ++ [freshId i r]
  ∧ activeId st' = freshId i r
  ∧ nodes st' !! freshId i r
    = Some (mkNode (freshId i r) (activeId st) [] (depth p + 1) i
              (makeSummaryFromUserText (userText pair) 20)
              (pairUserHtml pair) (pairAssistantHtml pair))
  ∧ (∀ x n, nodes st !! x = Some n → ∃ cs, nodes st' !! x = Some (withChildren n cs)).
Proof.
  intros Hok Hp Hfresh Happ.
  pose proof (appendUnderActive_tree_ok st st' _ _ _ Hok Hfresh Happ) as Hok'.
  revert Happ. unfold appendUnderActive, activeOrRoot. rewrite Hp.
  cbn [mbind option_bind]. destruct (tree_ok_node st _ p Hok Hp) as (Hid & _).
  rewrite Hid. set (new := freshId i r) in *. intros [= <-].
  assert (new ≠ activeId st) as Hne by congruence.
  assert (∀ x n, nodes st !! x = Some n →
            ∃ cs, (<[activeId st := withChildren p (children p ++ [new])]>
                     (<[new := mkNode new (activeId st) [] (depth p + 1) i
                                 (makeSummaryFromUserText (userText pair) 20)
                                 (pairUserHtml pair) (pairAssistantHtml pair)]>
                        (nodes st))) !! x = Some (withChildren n cs)) as Hkeep.
  { intros x n Hx. destruct (decide (x = activeId st)) as [->|Hxa].
    - rewrite lookup_insert_eq. rewrite Hp in Hx. injection Hx as <-. eauto.
    - rewrite lookup_insert_ne by done.
      rewrite lookup_insert_ne by congruence.
      exists (children n). by rewrite withChildren_self. }
  cbn [activeId nodes]. split; [|split; [done|split; [|done]]].
  - destruct (upPath_of_node st Hok _ p Hp) as [l Hl].
    rewrite (pathIds_spec st Hok l Hl).
    match goal with |- pathIds ?s = _ => set (st' := s) in * end.
    rewrite (pathIds_spec st' Hok' (new :: l)); [by cbn [rev app]|].
    cbn [st' activeId]. econstructor.
    + apply freshId_not_root.
    + cbn [st' nodes]. rewrite lookup_insert_ne by done. apply lookup_insert_eq.
    + cbn [parentId]. apply (upPath_transfer st); [|done].
      intros x n Hx. destruct (Hkeep x n Hx) as [cs Hcs].
      exists (withChildren n cs). done.
  - rewrite lookup_insert_ne by done. apply lookup_insert_eq.
Qed.

Lemma drawn_shift (i : Z) (rnd : nat → jsstring) (k j : nat) :
  drawn (i + 1) rnd (S k) j = drawn i rnd k (S j).
Proof.
  unfold drawn. replace (i + 1 + Z.of_nat j) with (i + Z.of_nat (S j)) by lia.
  replace (S k + j)%nat with (k + S j)%nat by lia. done.
Qed.

Lemma drawn_0 (i : Z) (rnd : nat → jsstring) (k : nat) :
  drawn i rnd k 0 = freshId i (rnd k).
Proof. unfold drawn. by rewrite Z.add_0_r, Nat.add_0_r. Qed.

Lemma appendLoop_path (pairs : list Pair) (rnd : nat → jsstring) (n : nat) :
  ∀ (k : nat) (i : Z) (st : TreeState),
    tree_ok st = true → is_Some (nodes st !! activeId st) →
    0 ≤ i → i + Z.of_nat n ≤ Z.of_nat (length pairs) →
    (∀ j, (j < n)%nat → nodes st !! drawn i rnd k j = None) →
    ∃ st', appendLoop n pairs rnd k i st = Some st'
      ∧ pathIds st' = pathIds st ++ map (drawn i rnd k) (seq 0 n)
      ∧ (∀ x nx, nodes st !! x = Some nx →
           ∃ cs, nodes st' !! x = Some (withChildren nx cs))
      ∧ (∀ j, (j < n)%nat →
           ∃ nd pair,
             nodes st' !! drawn i rnd k j = Some nd
             ∧ pairs !! Z.to_nat (i + Z.of_nat j) = Some pair
             ∧ parentId nd = match j with
                             | O => activeId st
                             | S j' => drawn i rnd k j'
                             end
             ∧ linearIndex nd = i + Z.of_nat j
             ∧ userHtml nd = pairUserHtml pair
             ∧ assistantHtml nd = pairAssistantHtml pair).
Proof.
  induction n as [|n IH]; intros k i st Hok [p Hp] H0 Hlen Hfresh.
  - exists st. cbn [appendLoop seq map]. rewrite app_nil_r.
    split; [done|]. split; [done|]. split; [|intros; lia].
    intros x nx Hx. exists (children nx). by rewrite withChildren_self.
  - cbn [appendLoop].
    destruct (pairAt_Some pairs i) as [pair Hpair]; [lia|lia|]. rewrite Hpair.
    pose proof (Hfresh 0%nat ltac:(lia)) as Hf0. rewrite drawn_0 in Hf0.
    destruct (appendUnderActive st (Some pair) i (rnd k)) as [mid|] eqn:Hmid.
    2:{ exfalso. revert Hmid. unfold appendUnderActive, activeOrRoot. by rewrite Hp. }
    cbn [mbind option_bind].
    destruct (appendUnderActive_path st mid p pair i (rnd k) Hok Hp Hf0 Hmid)
      as (Hpath & Hact & Hnew & Hkeep).
    destruct (IH (S k) (i + 1) mid) as (st' & Hloop & Hpath' & Hkeep' & Hnodes').
    + eapply appendUnderActive_tree_ok; [exact Hok|exact Hf0|exact Hmid].
    + rewrite Hact, Hnew. eauto.
    + lia.
    + lia.
    + intros j Hj. rewrite drawn_shift.
      eapply appendUnderActive_absent; [exact Hok|exact Hmid| |].
      * apply Hfresh. lia.
      * unfold drawn. intros Heq. apply freshId_inj in Heq. lia.
    + exists st'. split; [done|]. split; [|split].
      * rewrite Hpath', Hpath, <- app_assoc. f_equal. cbn [seq map app].
        rewrite drawn_0. f_equal. rewrite <- seq_shift, map_map.
        apply map_ext. intros j. apply drawn_shift.
      * intros x nx Hx. destruct (Hkeep x nx Hx) as [cs Hcs].
        destruct (Hkeep' _ _ Hcs) as [cs' Hcs']. exists cs'. by rewrite Hcs'.
      * intros [|j] Hj.
        -- rewrite drawn_0. destruct (Hkeep' _ _ Hnew) as [cs Hcs].
           eexists. exists pair. split; [exact Hcs|].
           rewrite Z.add_0_r. split.
           { unfold pairAt in Hpair. by rewrite (proj2 (Z.leb_le _ _) H0) in Hpair. }
           done.
        -- destruct (Hnodes' j ltac:(lia)) as (nd & pr & Hnd & Hpr & Hpar & Hli & Hu & Ha).
           exists nd, pr. rewrite <- drawn_shift. split; [done|]. split.
           { replace (i + Z.of_nat (S j)) with (i + 1 + Z.of_nat j) by lia. done. }
           split.
           { rewrite Hpar. destruct j as [|j']; [by rewrite Hact, drawn_0|].
             apply drawn_shift. }
           split; [lia|done].
Qed.

(** X25. A pass extends the active path: on a sound tree whose cursor
    resolves, with a count that is not negative and drawn ids that are not
    in the table, the pass returns a tree whose path from the root to the
    cursor is the old path followed by the new nodes in the order of their
    indices; each new node hangs under the one before it (the first under
    the old cursor), carries its index and the markup of its pair, and the
    card drawn for it from the live pairs shows that same markup. *)
Theorem reconcile_extends_path (st : TreeState) (pairs : list Pair)
    (rnd : nat → jsstring) :
  tree_ok st = true → is_Some (nodes st !! activeId st) →
  0 ≤ seenLinearCount st →
  (∀ j, seenLinearCount st + Z.of_nat j < Z.of_nat (length pairs) →
        nodes st !! drawn (seenLinearCount st) rnd 0 j = None) →
  ∃ st',
    reconcile st pairs rnd = Some st'
    ∧ pathIds st'
      = pathIds st
        ++ map (drawn (seenLinearCount st) rnd 0)
             (seq 0 (Z.to_nat (Z.of_nat (length pairs) - seenLinearCount st)))
    ∧ (∀ j, seenLinearCount st + Z.of_nat j < Z.of_nat (length pairs) →
         ∃ nd pair,
           nodes st' !! drawn (seenLinearCount st) rnd 0 j = Some nd
           ∧ pairs !! Z.to_nat (seenLinearCount st + Z.of_nat j) = Some pair
           ∧ parentId nd = match j with
                           | O => activeId st
                           | S j' => drawn (seenLinearCount st) rnd 0 j'
                           end
           ∧ linearIndex nd = seenLinearCount st + Z.of_nat j
           ∧ userHtml nd = pairUserHtml pair
           ∧ assistantHtml nd = pairAssistantHtml pair
           ∧ getLiveHtmlByIndex pairs (linearIndex nd) = (userHtml nd, assistantHtml nd)).
Proof.
  intros Hok Hact H0 Hfresh. unfold reconcile.
  destruct (Z.of_nat (length pairs) <=? seenLinearCount st) eqn:E.
  - apply Z.leb_le in E. exists st. split; [done|].
    replace (Z.to_nat (Z.of_nat (length pairs) - seenLinearCount st)) with 0%nat by lia.
    cbn [seq map]. rewrite app_nil_r. split; [done|]. intros j Hj. lia.
  - apply Z.leb_gt in E.
    destruct (appendLoop_path pairs rnd
                (Z.to_nat (Z.of_nat (length pairs) - seenLinearCount st))
                0 (seenLinearCount st) st Hok Hact H0)
      as (st' & Hloop & Hpath & _ & Hnodes).
    + lia.
    + intros j Hj. apply Hfresh. lia.
    + exists st'. split; [done|]. split; [done|]. intros j Hj.
      destruct (Hnodes j ltac:(lia)) as (nd & pr & Hnd & Hpr & Hpar & Hli & Hu & Ha).
      exists nd, pr. split; [done|]. split; [done|]. split; [done|].
      split; [done|]. split; [done|]. split; [done|].
      unfold getLiveHtmlByIndex, pairAt. rewrite Hli.
      rewrite (proj2 (Z.leb_le 0 _)) by lia. by rewrite Hpr, Hu, Ha.
Qed.

Lemma reconcile_extends_path_witness :
  ∃ st',
    reconcile (freshTree (js "c_1")) onePair rndAb = Some st'
    ∧ pathIds st' = pathIds (freshTree (js "c_1")) ++ [drawn 0 rndAb 0 0].
Proof.
  assert (tree_ok (freshTree (js "c_1")) = true) as H0 by (vm_compute; reflexivity).
  assert (is_Some (nodes (freshTree (js "c_1")) !! activeId (freshTree (js "c_1"))))
    as H1 by (vm_compute; eauto).
  assert (0 ≤ seenLinearCount (freshTree (js "c_1"))) as H2 by (vm_compute; discriminate).
  destruct (reconcile_extends_path (freshTree (js "c_1")) onePair rndAb H0 H1 H2)
    as (st' & Hr & Hp & _).
  { intros j Hj. assert (j = 0%nat) as -> by (cbn in Hj; lia).
    vm_compute. reflexivity. }
  exists st'. exact (conj Hr Hp).
Defined.
